(** * thunder.images.images: the [Images] collection

    A shallow embedding of [thunder/images/images.py].  An [Images] object
    wraps an array whose axis 0 indexes the images; every method is a few
    lines of glue around numpy, scipy and the distributed array library.
    The glue (argument checks, shape bookkeeping, mode dispatch, the order of
    the calls) is what this development models and verifies.

    Layout: the Python and numpy layer, the numerical kernels the module
    imports (an interface), the float64 product [sample] computes, the
    methods of [Images] on array values, the filters again on a store of
    shared buffers (they write in place), the specification's own wording, an
    instance to compute with, and then the theorems. *)

From Stdlib Require Import ZArith QArith Qround Qabs Qpower Lqa Lia List.
From stdpp Require Import base tactics option list.

Set Default Proof Using "Type".
Open Scope Z_scope.
Open Scope nat_scope.

(** ** Python layer: exceptions, ranges, list deletion *)

Module Py.

(** The failures the module raises itself, and those of the libraries it
    calls that its own control flow can reach. *)
Inductive message :=
| MsgNsamples (got : Z)            (* number of samples must be larger than 0 *)
| MsgFactors (got : list Z)        (* All sampling factors must be positive *)
| MsgNeighborhood                  (* The neighborhood must be specified as an integer. *)
| MsgSparkContext                  (* Must provide a SparkContext *)
| MsgAxis (axis lo hi : Z)         (* Axis for projection (a) exceeds image dimensions (lo-hi) *)
| MsgSubtract (got want : list nat)(* Cannot subtract image with dimensions .. *)
| MsgNumpy.                        (* a failure raised inside numpy *)

Inductive exn :=
| ValueError (m : message)
| Exception_ (m : message)
| IndexError
| TypeError.

Inductive result (A : Type) :=
| Ok (a : A)
| Raise (e : exn).
Arguments Ok {A} a.
Arguments Raise {A} e.

Definition bind {A B} (m : result A) (k : A -> result B) : result B :=
  match m with
  | Ok a => k a
  | Raise e => Raise e
  end.

(** [[f(x) for x in l]] where [f] may raise: the first failure wins. *)
Fixpoint mapM {A B} (f : A -> result B) (l : list A) : result (list B) :=
  match l with
  | [] => Ok []
  | x :: l' => bind (f x) (fun y => bind (mapM f l') (fun ys => Ok (y :: ys)))
  end.

(** [range(i, stop, step)] for a positive step, unrolled at most [fuel] times. *)
Fixpoint range_from (fuel i stop step : nat) : list nat :=
  match fuel with
  | O => []
  | S fuel' => if i <? stop then i :: range_from fuel' (i + step) stop step else []
  end.

(** [range(0, stop, step)]; [stop] iterations are enough when [step >= 1]. *)
Definition range_step (stop step : nat) : list nat := range_from stop 0 stop step.

(** A Python index into a sequence of length [n]: negative indices count
    from the end; [None] is Python's IndexError. *)
Definition norm_index (n : nat) (i : Z) : option nat :=
  if (0 <=? i)%Z then
    if (i <? Z.of_nat n)%Z then Some (Z.to_nat i) else None
  else
    if (- Z.of_nat n <=? i)%Z then Some (Z.to_nat (Z.of_nat n + i)) else None.

(** [del l[i]] *)
Definition del {A} (l : list A) (i : Z) : result (list A) :=
  match norm_index (length l) i with
  | Some k => Ok (delete k l)
  | None => Raise IndexError
  end.

(** [l[i]] *)
Definition getitem {A} (l : list A) (i : Z) : result A :=
  match norm_index (length l) i with
  | Some k => match l !! k with Some x => Ok x | None => Raise IndexError end
  | None => Raise IndexError
  end.

End Py.

Export Py.

Notation "'let*' x ':=' m 'in' k" := (Py.bind m (fun x => k))
  (at level 10, x name, m at level 100, k at level 200, only parsing).

(** ** numpy layer: arrays as a shape and row-major data *)

Module Np.

Record ndarray (T : Type) := NdArray { shape : list nat; data : list T }.
Arguments NdArray {T} shape data.
Arguments shape {T} _.
Arguments data {T} _.

(** [numpy.prod] of a shape; [prod(()) = 1]. *)
Definition prod (l : list nat) : nat := foldr Nat.mul 1 l.

(** [numpy.size] of a tuple of ints: the number of its entries. *)
Definition size (l : list nat) : nat := length l.

Section Arrays.
Context {T : Type}.

Definition wf (a : ndarray T) : Prop := length (data a) = prod (shape a).

(** The [n] consecutive blocks of [p] entries of [d]. *)
Definition chunks (p n : nat) (d : list T) : list (list T) :=
  map (fun i => take p (drop (i * p) d)) (seq 0 n).

(** [len(a)], i.e. [a.shape[0]] for an array that has an axis 0. *)
Definition len (a : ndarray T) : nat := hd 0 (shape a).

(** Iterating over [a]: the sub-arrays [a[0], a[1], ...] along axis 0. *)
Definition rows (a : ndarray T) : list (ndarray T) :=
  map (NdArray (tl (shape a))) (chunks (prod (tl (shape a))) (len a) (data a)).

(** [asarray([x0, x1, ...])] for arrays of one shape. *)
Definition stack (l : list (ndarray T)) : ndarray T :=
  NdArray (length l :: match l with [] => [] | x :: _ => shape x end)
          (concat (map data l)).

(** [concatenate((a, b), axis=0)] *)
Definition concatenate (a b : ndarray T) : ndarray T :=
  NdArray ((len a + len b) :: tl (shape a)) (data a ++ data b).

(** Columns of a list of rows of width [p]: column [j] collects entry [j]
    of every row, in row order. *)
Fixpoint columns (p : nat) (rs : list (list T)) : list (list T) :=
  match rs with
  | [] => replicate p []
  | r :: rs' => zip_with cons r (columns p rs')
  end.

(** [a.transpose((1, ..., n, 0))]: axis 0 becomes the last axis. *)
Definition transpose_first_last (a : ndarray T) : ndarray T :=
  NdArray (tl (shape a) ++ [len a])
          (concat (columns (prod (tl (shape a))) (map data (rows a)))).

(** The 1-d arrays along the last axis. *)
Definition last_axis (a : ndarray T) : list (list T) :=
  let n := List.last (shape a) 0 in
  chunks n (prod (removelast (shape a))) (data a).

(** [x.squeeze(axis=None)]: every axis of length one is dropped. *)
Definition squeeze_all (x : ndarray T) : ndarray T :=
  NdArray (filter (fun n => n ≠ 1) (shape x)) (data x).

(** Drop the axes listed in [ax] from [shp]; an axis that is listed must
    exist and have length one. *)
Fixpoint squeeze_shape (i : nat) (ax : list nat) (shp : list nat) : option (list nat) :=
  match shp with
  | [] => Some []
  | n :: shp' =>
      if bool_decide (i ∈ ax) then
        if n =? 1 then squeeze_shape (S i) ax shp' else None
      else cons n <$> squeeze_shape (S i) ax shp'
  end.

(** [x.squeeze(axis=axis)]: [None] squeezes every unit axis, a tuple only
    the listed ones (numpy raises when one is out of range or not unit). *)
Definition squeeze (axis : option (list nat)) (x : ndarray T) : result (ndarray T) :=
  match axis with
  | None => Ok (squeeze_all x)
  | Some ax =>
      if forallb (fun i => i <? length (shape x)) ax then
        match squeeze_shape 0 ax (shape x) with
        | Some shp => Ok (NdArray shp (data x))
        | None => Raise (ValueError MsgNumpy)
        end
      else Raise (ValueError MsgNumpy)
  end.

(** [v[slice(0, n0, s0), slice(0, n1, s1), ...]] on row-major data: along
    each axis keep the blocks whose index is in [range(0, n, s)]. *)
Fixpoint take_strided (shp steps : list nat) (d : list T) : list T :=
  match shp, steps with
  | n :: shp', s :: steps' =>
      let blocks := chunks (prod shp') n d in
      concat (map (take_strided shp' steps')
                  (omap (fun i => blocks !! i) (range_step n s)))
  | _, _ => d
  end.

Definition getitem_slices (steps : list nat) (v : ndarray T) : ndarray T :=
  NdArray (zip_with (fun n s => length (range_step n s)) (shape v) steps
             ++ drop (length steps) (shape v))
          (take_strided (shape v) steps (data v)).

(** The plane [x[:, :, z]] of a 3-d array, as a 2-d array. *)
Definition get_plane (z : nat) (x : ndarray T) : ndarray T :=
  match shape x with
  | [d0; d1; d2] =>
      NdArray [d0; d1] (omap (fun c => c !! z) (chunks d2 (d0 * d1) (data x)))
  | _ => x
  end.

(** [x[:, :, z] = p] for a plane [p] of the same two leading lengths. *)
Definition set_plane (z : nat) (p x : ndarray T) : ndarray T :=
  match shape x with
  | [d0; d1; d2] =>
      NdArray (shape x)
              (concat (zip_with (fun c v => <[z := v]> c)
                                 (chunks d2 (d0 * d1) (data x)) (data p)))
  | _ => x
  end.

End Arrays.

(** [numpy.ravel_multi_index(idx, shp)]: the position of the entry at
    multi-index [idx] in the row-major data of an array of shape [shp]. *)
Fixpoint ravel (shp idx : list nat) : nat :=
  match shp, idx with
  | _ :: shp', i :: idx' => i * prod shp' + ravel shp' idx'
  | _, _ => 0
  end.

End Np.

Export Np.

(** ** The numerical libraries the module imports

    numpy's reductions, scipy's filters, the random generator and the
    distributed engine's sampler are outside the repository.  They enter as
    an interface of pure, total functions; the array operations whose effect
    on shapes and positions the theorems are about ([squeeze], slicing,
    [concatenate], [transpose], writing a plane) are modelled concretely
    above. *)

Inductive aggregate := Mean | Var | Std | Sum | Max | Min.

Inductive filter_name := median | uniform.

(** An int or a sequence of ints ([size], [factor], [order]). *)
Inductive arg := Scalar (z : Z) | Seq (l : list Z).

(** A number or a sequence of numbers ([sigma]). *)
Inductive farg := FScalar (q : Q) | FSeq (l : list Q).

(** A Python object received where the code tests [isinstance(_, int)]. *)
Inductive pyobj := PyInt (z : Z) | PyFloat (q : Q) | PyNone.

(** The 2x2 matrix [corrcoef(x, y)] returns. *)
Record mat22 (T : Type) := Mat22 { m00 : T; m01 : T; m10 : T; m11 : T }.
Arguments Mat22 {T}.
Arguments m01 {T}.

Class Kernels (T : Type) := {
  (** the value of [mean], [var], ... over the entries met along axis 0 *)
  reduce0 : aggregate -> list T -> T;
  (** [numpy.amax(x, axis)], [numpy.amin(x, axis)] *)
  amax : ndarray T -> Z -> ndarray T;
  amin : ndarray T -> Z -> ndarray T;
  (** [+] and [-] on entries *)
  add : T -> T -> T;
  sub : T -> T -> T;
  (** [scipy.ndimage.filters.gaussian_filter(v, sigma, order)] *)
  gaussian : ndarray T -> farg -> arg -> ndarray T;
  (** [FILTERS[name](x, size)]: [median_filter] and [uniform_filter] *)
  ndfilter : filter_name -> ndarray T -> arg -> ndarray T;
  (** [numpy.corrcoef(x, y)] *)
  corrcoef : list T -> list T -> mat22 T;
  (** [rdd.takeSample(withReplacement, num, seed)] on the records of an RDD *)
  takeSample : list (ndarray T) -> bool -> Z -> Z -> list (ndarray T)
}.

(** numpy's global random generator, state [G]. *)
Class Random (G : Type) := {
  (** [random.randint(lo, hi)] *)
  randint : Z -> Z -> G -> Z * G;
  (** [random.rand(n)]: [n] uniform deviates of [[0, 1)] *)
  rand : nat -> G -> list Q * G
}.

(** ** float64 arithmetic

    The deviates of [random.rand] are float64 numbers, and so is their
    product with [self.shape[0]].  A finite float64 is a rational number:
    an integer of at most 53 bits times a power of two, the exponent not
    below -1074.  An operation returns the float64 nearest to the exact
    result, a tie going to the even significand.  Overflow is left out:
    nothing here comes near [2 ^ 1024]. *)

(** [floor(log2(x))] of a positive number *)
Definition floor_log2 (x : Q) : Z :=
  let t := (Z.log2 (Qnum x) - Z.log2 (Zpos (Qden x)))%Z in
  if Qle_bool (2 ^ t) x then t else (t - 1)%Z.

(** The nearest integer, a tie going to the even one. *)
Definition round_half_even (q : Q) : Z :=
  let f := Qfloor q in
  match (q - inject_Z f ?= 1 # 2)%Q with
  | Lt => f
  | Gt => (f + 1)%Z
  | Eq => if Z.even f then f else (f + 1)%Z
  end.

(** The float64 nearest to [x]: [x] rounded to a multiple of [2 ^ e], where
    [e] leaves 53 bits to the significand and stops at -1074. *)
Definition float64 (x : Q) : Q :=
  let x := Qred x in
  if Qeq_bool x 0 then 0%Q
  else
    let e := Z.max (floor_log2 (Qabs x) - 52) (-1074) in
    Qred (inject_Z (round_half_even (x / 2 ^ e)) * 2 ^ e).

(** [x * y] on two float64 numbers *)
Definition mul64 (x y : Q) : Q := float64 (x * y).

(** [int(k)] on a number: truncation toward zero. *)
Definition int (k : Q) : Z := Z.quot (Qnum k) (Zpos (Qden k)).

(** ** The class [Images] *)

Inductive Mode := local | spark.

Module Images.

Record t (T : Type) := Make { values : ndarray T; mode : Mode }.
Arguments Make {T} values mode.
Arguments values {T} _.
Arguments mode {T} _.

(** The sibling class the series conversion hands over to: the array, with
    the series along its last axis, and the index labelling the series. *)
Record Series (T : Type) := MakeSeries {
  svalues : ndarray T;
  index : list nat
}.
Arguments MakeSeries {T} svalues index.
Arguments svalues {T} _.
Arguments index {T} _.

Section Methods.
Context {T : Type} `{Kernels T}.

(** Modelled from the spec: [Data.__init__] (thunder/base.py, not in
    src/) keeps the array and the mode it is given.  [Images.__init__]
    passes both on, with ['local'] as the default mode. *)
Definition __init__ (values : ndarray T) (mode : Mode) : t T := Make values mode.

(** [self._constructor(values)]: the class itself, called with one
    argument, so in the default mode. *)
Definition _constructor (values : ndarray T) : t T := __init__ values local.

Definition shape (self : t T) : list nat := Np.shape (values self).

(** [self.shape[1:]] *)
Definition dims (self : t T) : list nat := drop 1 (shape self).

(** The records of [self.tordd()]: one per image. *)
Definition tordd (self : t T) : list (ndarray T) := rows (values self).

Definition count (self : t T) : nat :=
  match mode self with
  | local => len (values self)
  | spark => length (tordd self)
  end.

(** A collection has an axis 0 and as many entries as its shape says. *)
Definition wf (self : t T) : Prop :=
  Np.wf (values self) /\ shape self <> [].

(** Modelled from the spec: [Data._map] (thunder/base.py, not in src/)
    applies [func] to each image independently and wraps the results in a
    collection of the same mode; the per-image shape of the result is the
    declared [value_shape] when one is given, and otherwise the shape of
    [func] applied to one image, which needs an image to probe. *)
Definition _map (self : t T) (func : ndarray T -> result (ndarray T))
    (value_shape : option (list nat)) : result (t T) :=
  let* outs := mapM func (tordd self) in
  match value_shape with
  | Some d =>
      Ok (Make (NdArray (len (values self) :: d) (concat (List.map data outs)))
               (mode self))
  | None =>
      match outs with
      | [] => Raise IndexError
      | o :: _ =>
          Ok (Make (NdArray (len (values self) :: Np.shape o)
                            (concat (List.map data outs)))
                   (mode self))
      end
  end.

(** [with_keys] stays at its default in every call of this module. *)
Definition map (self : t T) (func : ndarray T -> result (ndarray T))
    (dims : option (list nat)) : result (t T) :=
  _map self func dims.

(** [self.values.<agg>(axis=0, keepdims=True)]: the reduced axis stays,
    with length one.  [max] and [min] have no identity and raise on an axis
    of length zero. *)
Definition reduce_axis0 (k : aggregate) (a : ndarray T) : result (ndarray T) :=
  let no_identity := match k with Max | Min => true | _ => false end in
  if no_identity && (len a =? 0) then Raise (ValueError MsgNumpy)
  else Ok (NdArray (1 :: tl (Np.shape a))
             (List.map (reduce0 k)
                (columns (prod (tl (Np.shape a))) (List.map data (rows a))))).

Definition mean (self : t T) : result (t T) :=
  let* v := reduce_axis0 Mean (values self) in Ok (_constructor v).

Definition var (self : t T) : result (t T) :=
  let* v := reduce_axis0 Var (values self) in Ok (_constructor v).

Definition std (self : t T) : result (t T) :=
  let* v := reduce_axis0 Std (values self) in Ok (_constructor v).

Definition sum (self : t T) : result (t T) :=
  let* v := reduce_axis0 Sum (values self) in Ok (_constructor v).

Definition max (self : t T) : result (t T) :=
  let* v := reduce_axis0 Max (values self) in Ok (_constructor v).

Definition min (self : t T) : result (t T) :=
  let* v := reduce_axis0 Min (values self) in Ok (_constructor v).

(** [range(1, len(self.shape) - 1)]: empty when the bound is below 1. *)
Definition squeeze (self : t T) : result (t T) :=
  let axis :=
    if prod (drop 1 (shape self)) =? 1
    then Some (seq 1 (length (shape self) - 1 - 1))
    else None in
  map self (fun x => Np.squeeze axis x) None.

Definition max_projection (self : t T) (axis : Z) : result (t T) :=
  if (Z.of_nat (size (dims self)) <=? axis)%Z then
    Raise (Exception_ (MsgAxis axis 0 (Z.of_nat (size (dims self)) - 1)))
  else
    let* newdims := del (dims self) axis in
    map self (fun x => Ok (amax x axis)) (Some newdims).

(** [a + b] on two arrays of one shape *)
Definition add_arrays (a b : ndarray T) : ndarray T :=
  NdArray (Np.shape a) (zip_with add (data a) (data b)).

Definition max_min_projection (self : t T) (axis : Z) : result (t T) :=
  if (Z.of_nat (size (dims self)) <=? axis)%Z then
    Raise (Exception_ (MsgAxis axis 0 (Z.of_nat (size (dims self)) - 1)))
  else
    let* newdims := del (dims self) axis in
    map self (fun x => Ok (add_arrays (amax x axis) (amin x axis))) (Some newdims).

(** The local [roundup(a, b)] of [subsample]: [(a + b - 1) // b]. *)
Definition roundup (a b : Z) : Z := ((a + b - 1) / b)%Z.

(** [l[i]] for an index of [range(len(..))] *)
Definition at_ {A} (l : list A) (i : nat) : result A :=
  match l !! i with
  | Some x => Ok x
  | None => Raise IndexError
  end.

Definition subsample (self : t T) (factor : arg) : result (t T) :=
  let dims := dims self in
  let ndims := length dims in
  let factor :=
    match factor with
    | Scalar f => replicate ndims f
    | Seq fs => fs
    end in
  (* [int(sf) for sf in factor] changes nothing on ints *)
  if existsb (fun sf => (sf <=? 0)%Z) factor then
    Raise (ValueError (MsgFactors factor))
  else
    (* slice(0, dims[i], factor[i]): the stop is the axis length, so the
       step alone describes the slice *)
    let* slices :=
      mapM (fun i => let* _ := at_ dims i in
                     let* f := at_ factor i in Ok (Z.to_nat f))
           (seq 0 ndims) in
    let* newdims :=
      mapM (fun i => let* d := at_ dims i in
                     let* f := at_ factor i in
                     Ok (Z.to_nat (roundup (Z.of_nat d) f)))
           (seq 0 ndims) in
    map self (fun v => Ok (getitem_slices slices v)) (Some newdims).

Definition gaussian_filter (self : t T) (sigma : farg) (order : arg) : result (t T) :=
  map self (fun v => Ok (gaussian v sigma order)) (Some (dims self)).

(** [im[:, :, z] = p]: the right-hand side must fit the plane. *)
Definition assign_plane (z : nat) (p im : ndarray T) : result (ndarray T) :=
  if bool_decide (Np.shape p = take 2 (Np.shape im)) then Ok (set_plane z p im)
  else Raise (ValueError MsgNumpy).

(** The loop of the inner [filter_] of the slice-by-slice case,
    [for z in arange(0, dims[2]): im[:, :, z] = func(im[:, :, z], size[0:2])],
    on the value of the array it writes (the copy it made, or the record it
    was handed: the value is the same). *)
Fixpoint filter_planes (func : ndarray T -> arg -> ndarray T) (size2 : arg)
    (zs : list nat) (im : ndarray T) : result (ndarray T) :=
  match zs with
  | [] => Ok im
  | z :: zs' =>
      let* im' := assign_plane z (func (get_plane z im) size2) im in
      filter_planes func size2 zs' im'
  end.

(** [isscalar(size)] is [Scalar]; [size[2]] raises on a sequence that is
    too short; [size[0:2]] and [dims[2]] are read by the inner [filter_]. *)
Definition _image_filter (self : t T) (filter : filter_name) (size : arg)
    : result (t T) :=
  let func := ndfilter filter in
  let dims := dims self in
  let ndims := length dims in
  let size :=
    match size with
    | Scalar s => if ndims =? 3 then Seq [s; s; s] else size
    | Seq _ => size
    end in
  let* slicewise :=
    if ndims =? 3 then
      match size with
      | Seq l => let* s2 := getitem l 2 in Ok (s2 =? 0)%Z
      | Scalar _ => Raise TypeError
      end
    else Ok false in
  if slicewise then
    let size2 := match size with Seq l => Seq (take 2 l) | Scalar _ => size end in
    let* d2 := at_ dims 2 in
    map self (fun v => filter_planes func size2 (seq 0 d2) v) (Some dims)
  else
    map self (fun v => Ok (func v size)) (Some dims).

Definition uniform_filter (self : t T) (size : arg) : result (t T) :=
  _image_filter self uniform size.

Definition median_filter (self : t T) (size : arg) : result (t T) :=
  _image_filter self median size.

(** The operand of [subtract]: a number or an array. *)
Inductive operand := Number (v : T) | Array (a : ndarray T).

Definition subtract (self : t T) (val : operand) : result (t T) :=
  match val with
  | Array a =>
      if bool_decide (Np.shape a = dims self) then
        map self (fun x => Ok (NdArray (Np.shape x) (zip_with sub (data x) (data a))))
            (Some (dims self))
      else Raise (Exception_ (MsgSubtract (Np.shape a) (dims self)))
  | Number v =>
      map self (fun x => Ok (NdArray (Np.shape x) (List.map (fun e => sub e v) (data x))))
          (Some (dims self))
  end.

(** Modelled from the spec: [fromarray] and [fromrdd]
    (thunder/images/readers.py, not in src/) return a conforming collection
    wrapping the given storage, local for an array and distributed for an
    RDD. *)
Definition fromarray (values : ndarray T) : t T := __init__ values local.

(** The reader takes the dims from the records; here they are passed. *)
Definition fromrdd (records : list (ndarray T)) (dims : list nat) : t T :=
  __init__ (NdArray (length records :: dims) (concat (List.map data records))) spark.

(** [arange(n)] *)
Definition arange (n : nat) : list nat := seq 0 n.

(** Both arms move axis 0 behind the image axes: [swap] on the distributed
    array, [transpose] on the local one. *)
Definition toseries (self : t T) : Series T :=
  let index := arange (len (values self)) in
  match mode self with
  | spark => MakeSeries (transpose_first_last (values self)) index
  | local => MakeSeries (transpose_first_last (values self)) index
  end.

(** Modelled from the spec: [Series.map] and [Series.toarray]
    (thunder/series/series.py and thunder/base.py, not in src/), for a
    function that returns a number: it is applied to the series of every
    spatial position, and [toarray] materializes the values as one local
    array. *)
Definition series_map (s : Series T) (func : list T -> T) : Series T :=
  MakeSeries (NdArray (removelast (Np.shape (svalues s)))
                      (List.map func (last_axis (svalues s))))
             (index s).

Definition toarray (s : Series T) : ndarray T := svalues s.

Definition localcorr (self : t T) (neighborhood : pyobj) : result (ndarray T) :=
  match neighborhood with
  | PyInt n =>
      let nimages := len (values self) in
      let* blurred := uniform_filter self (Scalar (n * 2 + 1)) in
      let combinedImages :=
        match mode self with
        | spark =>
            let combined := Make (concatenate (values self) (values blurred)) spark in
            fromrdd (tordd combined) (dims combined)
        | local =>
            fromarray (concatenate (values self) (values blurred))
        end in
      let series := toseries combinedImages in
      let corr :=
        series_map series
          (fun x => m01 (corrcoef (take nimages x) (drop nimages x))) in
      Ok (toarray corr)
  | _ => Raise (ValueError MsgNeighborhood)
  end.

End Methods.

(** [sample] also reads and advances numpy's global generator; the
    deviates [random.rand] hands out are float64 numbers. *)
Section Sampling.
Context {T : Type} `{Kernels T} {G : Type} `{Random G}.

Definition sample (self : t T) (nsamples : Z) (seed : option Z) (g : G)
    : result (t T) * G :=
  if (nsamples <? 1)%Z then (Raise (ValueError (MsgNsamples nsamples)), g)
  else
    let '(seed, g) :=
      match seed with
      | None => randint 0 (2 ^ 32) g
      | Some s => (s, g)
      end in
    match mode self with
    | spark =>
        let result := stack (takeSample (tordd self) false nsamples seed) in
        (Ok (_constructor result), g)
    | local =>
        let '(ks, g) := rand (Z.to_nat nsamples) g in
        (* [random.rand(nsamples) * self.shape[0]]: the int becomes a float64,
           and the products are float64 products *)
        let n := float64 (inject_Z (Z.of_nat (len (values self)))) in
        let inds := List.map (fun k => int (mul64 k n)) ks in
        (let* picked := mapM (fun i => getitem (rows (values self)) i) inds in
         Ok (_constructor (stack picked)), g)
    end.

End Sampling.

End Images.

(** ** The filters on a store

    [_image_filter] is the one method that writes into an array
    ([im[:, :, z] = ...]).  To say what such a write can reach, arrays are
    here objects on a store of buffers: an array object is a window on a
    buffer, a row [a[i]] is a window on the buffer of [a], and a write
    through a window changes the buffer for everybody who shares it. *)

Module Store.

(** The store: buffer [l] holds the entries of the arrays that share it. *)
Abbreviation heap T := (list (list T)).

(** An array object: the window of [prod shape] entries at [off] in buffer
    [buf], and numpy's WRITEABLE flag. *)
Record ref := Ref { buf : nat; off : nat; rshape : list nat; writeable : bool }.

(** A collection whose array lives on the store. *)
Record t := Make { values : ref; mode : Mode }.

Section Effects.
Context {T : Type} `{Kernels T}.

(** Computations that read and write the store and may raise; the store
    survives a failure. *)
Definition M (A : Type) : Type := heap T -> result A * heap T.

Definition ret {A} (a : A) : M A := fun h => (Ok a, h).

Definition bindM {A B} (m : M A) (k : A -> M B) : M B :=
  fun h => match m h with
           | (Ok a, h') => k a h'
           | (Raise e, h') => (Raise e, h')
           end.

Definition lift {A} (r : result A) : M A := fun h => (r, h).

(** The value seen through a window. *)
Definition read (r : ref) : M (ndarray T) :=
  fun h => match h !! buf r with
           | Some b => (Ok (NdArray (rshape r) (take (prod (rshape r)) (drop (off r) b))), h)
           | None => (Raise IndexError, h)
           end.

(** Overwrite the window with [d]; numpy refuses when the array is
    read-only. *)
Definition write (r : ref) (d : list T) : M unit :=
  fun h => if writeable r then
             match h !! buf r with
             | Some b =>
                 (Ok (), <[buf r := take (off r) b ++ d ++ drop (off r + length d) b]> h)
             | None => (Raise IndexError, h)
             end
           else (Raise (ValueError MsgNumpy), h).

(** A new array object owning a new buffer. *)
Definition new (x : ndarray T) (w : bool) : M ref :=
  fun h => (Ok (Ref (length h) 0 (Np.shape x) w), h ++ [data x]).

(** [im.copy()] *)
Definition copy (im : ref) : M ref :=
  bindM (read im) (fun x => new x true).

(** [im.setflags(write=w)] *)
Definition setflags (im : ref) (w : bool) : ref :=
  Ref (buf im) (off im) (rshape im) w.

(** [a[i]]: a view, sharing the buffer of [a]. *)
Definition row (a : ref) (i : nat) : ref :=
  Ref (buf a) (off a + i * prod (tl (rshape a))) (tl (rshape a)) (writeable a).

(** The loop [for z in arange(0, dims[2]): im[:, :, z] = func(im[:, :, z], size[0:2])] *)
Fixpoint filter_loop (func : ndarray T -> arg -> ndarray T) (size2 : arg)
    (zs : list nat) (im : ref) : M unit :=
  match zs with
  | [] => ret ()
  | z :: zs' =>
      bindM (read im) (fun x =>
      bindM (lift (Images.assign_plane z (func (get_plane z x) size2) x)) (fun x' =>
      bindM (write im (data x')) (fun _ =>
      filter_loop func size2 zs' im)))
  end.

(** The inner [filter_] of the slice-by-slice case. *)
Definition filter_slicewise (mode : Mode) (func : ndarray T -> arg -> ndarray T)
    (size2 : arg) (d2 : nat) (im : ref) : M ref :=
  bindM (match mode with
         | spark => ret (setflags im true)
         | local => copy im
         end) (fun im =>
  bindM (filter_loop func size2 (seq 0 d2) im) (fun _ =>
  ret im)).

(** [lambda x: func(x, size)]: the result is a new array. *)
Definition filter_whole (func : ndarray T -> arg -> ndarray T) (size : arg)
    (x : ref) : M ref :=
  bindM (read x) (fun v => new (func v size) true).

(** What [func] receives for image [i].  Locally it is the row [a[i]], a
    view of the collection's own array.  A distributed collection hands
    every worker a record it has just deserialized: an array of its own,
    which comes read-only. *)
Definition record (self : t) (i : nat) : M ref :=
  match mode self with
  | local => ret (row (values self) i)
  | spark => bindM (read (row (values self) i)) (fun x => new x false)
  end.

Fixpoint map_records (self : t) (func : ref -> M ref) (ids : list nat)
    : M (list (ndarray T)) :=
  match ids with
  | [] => ret []
  | i :: ids' =>
      bindM (record self i) (fun x =>
      bindM (func x) (fun y =>
      bindM (read y) (fun v =>
      bindM (map_records self func ids') (fun vs =>
      ret (v :: vs)))))
  end.

(** Modelled from the spec: [Data._map] with a declared [value_shape], on
    the store: [func] is applied once per image and the results are
    gathered in the array of a new collection of the same mode. *)
Definition _map (self : t) (func : ref -> M ref) (value_shape : list nat) : M t :=
  let n := hd 0 (rshape (values self)) in
  bindM (map_records self func (seq 0 n)) (fun outs =>
  bindM (new (NdArray (n :: value_shape) (concat (List.map data outs))) true) (fun a =>
  ret (Make a (mode self)))).

Definition map (self : t) (func : ref -> M ref) (dims : list nat) : M t :=
  _map self func dims.

Definition dims (self : t) : list nat := drop 1 (rshape (values self)).

Definition _image_filter (self : t) (filter : filter_name) (size : arg) : M t :=
  let func := ndfilter filter in
  let mode := mode self in
  let dims := dims self in
  let ndims := length dims in
  let size :=
    match size with
    | Scalar s => if ndims =? 3 then Seq [s; s; s] else size
    | Seq _ => size
    end in
  bindM (lift (if ndims =? 3 then
                 match size with
                 | Seq l => let* s2 := getitem l 2 in Ok (s2 =? 0)%Z
                 | Scalar _ => Raise TypeError
                 end
               else Ok false)) (fun slicewise =>
  if (slicewise : bool) then
    let size2 := match size with Seq l => Seq (take 2 l) | Scalar _ => size end in
    bindM (lift (Images.at_ dims 2)) (fun d2 =>
    map self (fun v => filter_slicewise mode func size2 d2 v) dims)
  else
    map self (fun v => filter_whole func size v) dims).

Definition uniform_filter (self : t) (size : arg) : M t :=
  _image_filter self uniform size.

Definition median_filter (self : t) (size : arg) : M t :=
  _image_filter self median size.

(** The buffers of [h] are all still in [h'], with the same entries. *)
Definition untouched (h h' : heap T) : Prop :=
  forall l b, h !! l = Some b -> h' !! l = Some b.

(** The same, for all buffers but [l0]. *)
Definition untouched_but (l0 : nat) (h h' : heap T) : Prop :=
  length h <= length h' /\
  forall l b, l <> l0 -> h !! l = Some b -> h' !! l = Some b.

(** A computation that leaves every buffer it finds as it is: it may
    allocate, and write what it has allocated. *)
Definition preserves {A} (m : M A) : Prop :=
  forall h, untouched h (snd (m h)).

(** The collection as a value: what the pure methods work on. *)
Definition load (self : t) (h : heap T) : result (Images.t T) :=
  let* v := fst (read (values self) h) in Ok (Images.Make v (mode self)).

End Effects.

End Store.

(** ** What the specification says, in its own words *)

Module Spec.

(** [ceil(a / b)] on the rationals. *)
Definition ceil_div (a b : Z) : Z := Qceiling (inject_Z a / inject_Z b).

Section Words.
Context {T : Type} `{Kernels T}.

(** The series of spatial position [p]: the entry at [p] of every element,
    in element order. *)
Definition series_at (p : nat) (elements : list (ndarray T)) : list T :=
  omap (fun e => data e !! p) elements.

(** The size the filter is called with for a window [w]: one int, spread
    over the three axes of a volume. *)
Definition window (ndims : nat) (w : Z) : arg :=
  if ndims =? 3 then Seq [w; w; w] else Scalar w.

(** Steps (1) to (5) of [localcorr]: blur with a uniform filter of window
    [2 * neighborhood + 1]; put the N originals and then the N blurred
    elements in one collection of 2N; take the series of every spatial
    position; correlate its first N entries with its last N; gather the
    coefficients, one per position. *)
Definition localcorr (elements : list (ndarray T)) (dims : list nat)
    (neighborhood : Z) : list T :=
  let n := length elements in
  let w := (2 * neighborhood + 1)%Z in
  let blurred := List.map (fun e => ndfilter uniform e (window (length dims) w)) elements in
  let combined := elements ++ blurred in
  List.map (fun p =>
              let s := series_at p combined in
              m01 (corrcoef (take n s) (drop n s)))
           (seq 0 (prod dims)).

End Words.

End Spec.

(** ** An instance on integer pixels, to run the methods

    The reductions are the real ones on [Z]; the scipy filters, the
    correlation and the sampler are replaced by small functions of the same
    signature (the filters keep the shape). *)

Module Demo.

Definition reduce_Z (k : aggregate) (l : list Z) : Z :=
  let total := foldr Z.add 0%Z l in
  let n := Z.of_nat (length l) in
  match k with
  | Sum => total
  | Mean => (total / n)%Z
  | Max => foldr Z.max (hd 0%Z l) l
  | Min => foldr Z.min (hd 0%Z l) l
  | Var => (foldr Z.add 0 (List.map (fun v => v * v) l) / n - (total / n) * (total / n))%Z
  | Std => Z.sqrt (foldr Z.add 0 (List.map (fun v => v * v) l) / n - (total / n) * (total / n))%Z
  end.

(** Reduce axis [k] of a row-major array with [f]. *)
Definition reduce_axis (f : list Z -> Z) (k : nat) (x : ndarray Z) : ndarray Z :=
  let outer := prod (take k (shape x)) in
  let n := nth k (shape x) 0 in
  let inner := prod (drop (S k) (shape x)) in
  NdArray (delete k (shape x))
          (concat (List.map (fun block => List.map f (columns inner (chunks inner n block)))
                            (chunks (n * inner) outer (data x)))).

Definition reduce_axis_Z (f : list Z -> Z) (x : ndarray Z) (axis : Z) : ndarray Z :=
  match norm_index (length (shape x)) axis with
  | Some k => reduce_axis f k x
  | None => x
  end.

Definition dot (x y : list Z) : Z := foldr Z.add 0%Z (zip_with Z.mul x y).

#[global] Instance kernels_Z : Kernels Z := {|
  reduce0 := reduce_Z;
  amax := reduce_axis_Z (reduce_Z Max);
  amin := reduce_axis_Z (reduce_Z Min);
  add := Z.add;
  sub := Z.sub;
  gaussian := fun v _ _ => v;
  ndfilter := fun name x size =>
    match name with
    | uniform => NdArray (shape x) (List.map (Z.mul 2) (data x))
    | median => NdArray (shape x) (List.map (Z.add 1) (data x))
    end;
  corrcoef := fun x y => Mat22 (dot x x) (dot x y) (dot y x) (dot y y);
  takeSample := fun records _ num seed =>
    take (Z.to_nat num) (rotate (Z.to_nat seed) records)
|}.

(** A generator given by the deviates it is going to produce. *)
#[global] Instance random_list : Random (list Q) := {|
  randint := fun lo hi g =>
    match g with
    | u :: g' => ((lo + Qfloor (u * inject_Z (hi - lo)))%Z, g')
    | [] => (lo, [])
    end;
  rand := fun n g => (take n (g ++ replicate n 0%Q), drop n g)
|}.

(** Two volumes of dims (4, 1, 3), entries 0..23. *)
Definition volumes : ndarray Z := NdArray [2; 4; 1; 3] (List.map Z.of_nat (seq 0 24)).

(** Two volumes of dims (2, 2, 3), entries 0..23. *)
Definition cubes : ndarray Z := NdArray [2; 2; 2; 3] (List.map Z.of_nat (seq 0 24)).

(** Three images of dims (2, 2), entries 0..11. *)
Definition frames : ndarray Z := NdArray [3; 2; 2] (List.map Z.of_nat (seq 0 12)).

(** Two scalars per image: dims (1, 1, 1). *)
Definition points : ndarray Z := NdArray [2; 1; 1; 1] [7; 9]%Z.

(** A store holding [cubes] in buffer 0. *)
Definition cubes_heap : Store.heap Z := [data cubes].

Definition cubes_ref (m : Mode) : Store.t :=
  Store.Make (Store.Ref 0 0 (shape cubes) true) m.

End Demo.

(** * Theorems *)

(** ** Blocks and columns of row-major data *)

Section ListFacts.
Context {T : Type}.
Implicit Types (d r : list T) (rs : list (list T)).

Lemma length_chunks p n d : length (chunks p n d) = n.
Proof. unfold chunks. by rewrite length_map, length_seq. Qed.

Lemma chunks_S p n d : chunks p (S n) d = take p d :: chunks p n (drop p d).
Proof.
  unfold chunks. rewrite <- cons_seq, <- seq_shift. cbn [List.map].
  rewrite drop_0. f_equal. rewrite map_map. apply map_ext. intros i.
  by rewrite drop_drop.
Qed.

(** Cutting a concatenation of blocks of width [p] gives the blocks back. *)
Lemma chunks_concat p rs :
  Forall (fun r => length r = p) rs -> chunks p (length rs) (concat rs) = rs.
Proof.
  induction 1 as [|r rs Hr Hrs IH]; [done|].
  cbn [length concat]. rewrite chunks_S. subst p.
  rewrite take_app_length, drop_app_length. by rewrite IH.
Qed.

Lemma Forall_length_chunks p n d :
  n * p <= length d -> Forall (fun r => length r = p) (chunks p n d).
Proof.
  revert d. induction n as [|n IH]; intros d Hd; [constructor|].
  rewrite chunks_S. constructor.
  - rewrite length_take. lia.
  - apply IH. rewrite length_drop. lia.
Qed.

Lemma concat_chunks p n d : length d = n * p -> concat (chunks p n d) = d.
Proof.
  revert d. induction n as [|n IH]; intros d Hd.
  - destruct d; [done|]. simpl in Hd. lia.
  - rewrite chunks_S. cbn [concat]. rewrite IH; [apply take_drop|].
    rewrite length_drop. lia.
Qed.

Lemma zip_with_cons_seq (r : list T) (f : nat -> list T) k :
  zip_with cons r (List.map f (seq k (length r)))
  = List.map (fun j => from_option (fun x => x :: f j) (f j) (r !! (j - k)))
             (seq k (length r)).
Proof.
  revert k. induction r as [|x r IHr]; intros k; [done|].
  cbn [length seq List.map zip_with]. rewrite Nat.sub_diag. cbn. f_equal.
  rewrite IHr. apply map_ext_in. intros j Hj%in_seq.
  replace (j - k) with (S (j - S k)) by lia. done.
Qed.

(** Column [j] is entry [j] of every row. *)
Lemma columns_spec p rs :
  Forall (fun r => length r = p) rs ->
  columns p rs = List.map (fun j => omap (fun r => r !! j) rs) (seq 0 p).
Proof.
  induction 1 as [|r rs Hr Hrs IH]; cbn [columns].
  - induction p as [|p IHp]; [done|].
    rewrite seq_S, map_app, <- IHp. cbn [List.map omap list_omap].
    change [[]] with (replicate 1 (@nil T)). rewrite <- replicate_add.
    f_equal. lia.
  - rewrite IH. subst p. rewrite zip_with_cons_seq.
    apply map_ext_in. intros j Hj%in_seq. rewrite Nat.sub_0_r.
    cbn [omap list_omap]. 
    destruct (r !! j) eqn:E; [done|].
    apply lookup_ge_None in E. lia.
Qed.

Lemma length_columns p rs :
  Forall (fun r => length r = p) rs -> length (columns p rs) = p.
Proof. intros Hrs. by rewrite columns_spec, length_map, length_seq. Qed.

Lemma Forall_length_columns p rs :
  Forall (fun r => length r = p) rs ->
  Forall (fun c => length c = length rs) (columns p rs).
Proof.
  intros Hrs. rewrite columns_spec by done.
  apply List.Forall_forall. intros c [j [<- Hj%in_seq]]%in_map_iff.
  clear -Hrs Hj. induction Hrs as [|r rs Hr Hrs IH]; [done|].
  cbn. destruct (r !! j) eqn:E; cbn; [by rewrite IH|].
  apply lookup_ge_None in E. lia.
Qed.
End ListFacts.

(** ** Comprehensions that may raise *)

Section ResultFacts.
Context {A B : Type}.

Lemma mapM_ok (f : A -> B) (l : list A) :
  mapM (fun x => Ok (f x)) l = Ok (List.map f l).
Proof. induction l as [|x l IH]; [done|]. cbn. by rewrite IH. Qed.

Lemma mapM_ext_ok (f : A -> result B) (g : A -> B) (l : list A) :
  (forall x, In x l -> f x = Ok (g x)) -> mapM f l = Ok (List.map g l).
Proof.
  induction l as [|x l IH]; intros Hf; [done|].
  cbn. rewrite Hf by (by left). cbn. rewrite IH; [done|].
  intros y Hy. apply Hf. by right.
Qed.

Lemma mapM_length (f : A -> result B) (l : list A) (l' : list B) :
  mapM f l = Ok l' -> length l' = length l.
Proof.
  revert l'. induction l as [|x l IH]; intros l' Hl; cbn in Hl.
  - by inversion Hl.
  - destruct (f x); [|done]. cbn in Hl.
    destruct (mapM f l) eqn:E; [|done]. cbn in Hl. inversion Hl; subst.
    cbn. f_equal. by apply IH.
Qed.
End ResultFacts.

(** ** [localcorr] *)

Section LocalCorr.
Context {T : Type} `{Kernels T}.
Implicit Types (c : Images.t T) (a : ndarray T).

Lemma drop_1_tl {A} (l : list A) : drop 1 l = tl l.
Proof. by destruct l. Qed.

Lemma data_rows a :
  List.map data (rows a) = chunks (prod (tl (shape a))) (len a) (data a).
Proof. unfold rows. rewrite map_map. cbn. apply map_id. Qed.

Lemma length_rows a : length (rows a) = len a.
Proof. unfold rows. by rewrite length_map, length_chunks. Qed.

Lemma dims_tl c : Images.dims c = tl (shape (Images.values c)).
Proof. apply drop_1_tl. Qed.

Lemma wf_shape c :
  Images.wf c ->
  length (data (Images.values c)) = len (Images.values c) * prod (Images.dims c).
Proof.
  intros [Hwf Hne]. unfold Np.wf in Hwf. rewrite Hwf, dims_tl.
  unfold Images.shape, len in *.
  destruct (shape (Images.values c)); [done|]. done.
Qed.

(** The filter [localcorr] asks for never takes the slice-by-slice path:
    its window is odd. *)
Lemma uniform_filter_window c (w : Z) :
  w <> 0%Z ->
  Images.uniform_filter c (Scalar w)
  = Ok (Images.Make
          (NdArray (len (Images.values c) :: Images.dims c)
             (concat (List.map data
                (List.map (fun v => ndfilter uniform v
                                      (Spec.window (length (Images.dims c)) w))
                          (Images.tordd c)))))
          (Images.mode c)).
Proof.
  intros Hw. unfold Images.uniform_filter, Images._image_filter, Spec.window.
  destruct (length (Images.dims c) =? 3) eqn:E.
  - change (getitem [w; w; w] 2) with (@Ok Z w). cbn.
    destruct (Z.eqb_spec w 0); [done|].
    unfold Images.map, Images._map. by rewrite mapM_ok.
  - cbn. unfold Images.map, Images._map. by rewrite mapM_ok.
Qed.

(** Transposing a stack of rows and reading the result along its last
    axis gives the columns of the stack. *)
Lemma last_axis_transpose (dims : list nat) (rs : list (list T)) :
  Forall (fun r => length r = prod dims) rs ->
  last_axis (transpose_first_last (NdArray (length rs :: dims) (concat rs)))
  = columns (prod dims) rs.
Proof.
  intros Hrs. unfold last_axis, transpose_first_last.
  cbn [shape data len hd tl].
  rewrite data_rows. cbn [shape data len hd tl].
  rewrite chunks_concat by done.
  rewrite List.last_last, removelast_last.
  rewrite <- (length_columns (prod dims) rs) at 1 by done.
  apply chunks_concat. by apply Forall_length_columns.
Qed.

Lemma omap_map {A B C} (f : B -> option C) (g : A -> B) (l : list A) :
  omap f (List.map g l) = omap (fun x => f (g x)) l.
Proof. induction l as [|x l IH]; [done|]. cbn. by rewrite IH. Qed.

(** The array [localcorr] hands to [toseries], in either mode: the rows of
    the originals followed by the rows of the blurred copy. *)
Lemma combined_rows c (bs : list (ndarray T)) (m : Mode) :
  Images.wf c ->
  Forall (fun r => length r = prod (Images.dims c)) (List.map data bs) ->
  length bs = len (Images.values c) ->
  let blurred := Images.Make
      (NdArray (len (Images.values c) :: Images.dims c) (concat (List.map data bs))) m in
  let rs := List.map data (Images.tordd c) ++ List.map data bs in
  concatenate (Images.values c) (Images.values blurred)
    = NdArray (length rs :: Images.dims c) (concat rs) /\
  Forall (fun r => length r = prod (Images.dims c)) rs.
Proof.
  intros Hwf Hbs Hlen blurred rs.
  assert (Hrows : Forall (fun r => length r = prod (Images.dims c))
                    (List.map data (Images.tordd c))).
  { unfold Images.tordd. rewrite data_rows, <- dims_tl.
    apply Forall_length_chunks. apply wf_shape in Hwf. lia. }
  split; [|by apply Forall_app].
  unfold concatenate, rs, blurred. cbn [Images.values data shape len hd tl].
  rewrite length_app, !length_map, Hlen. unfold Images.tordd.
  rewrite length_rows, concat_app, <- dims_tl. do 2 f_equal.
  rewrite data_rows, <- dims_tl. symmetry. apply concat_chunks.
  by apply wf_shape.
Qed.

Lemma svalues_toseries c :
  Images.svalues (Images.toseries c) = transpose_first_last (Images.values c).
Proof. unfold Images.toseries. by destruct (Images.mode c). Qed.

(** C1.  For every collection (with an axis 0 and as many entries as its
    shape says) and every int [n], in either mode, [localcorr] returns a
    local array whose entries are those of the five steps: blur with a
    uniform filter of window [2 * n + 1]; put the N originals before the N
    blurred elements; take the series of every spatial position; correlate
    its first N entries with its last N; gather one coefficient per
    position.  A neighborhood that is not an int raises ValueError.  The
    filter is taken to return as many entries as it is given. *)
Theorem localcorr_sequence c (n : Z) :
  Images.wf c ->
  (forall x s, length (data (ndfilter uniform x s)) = length (data x)) ->
  (exists r, Images.localcorr c (PyInt n) = Ok r /\
             data r = Spec.localcorr (Images.tordd c) (Images.dims c) n) /\
  (forall o, (forall z, o <> PyInt z) ->
             Images.localcorr c o = Raise (ValueError MsgNeighborhood)).
Proof.
  intros Hwf Hkeep. split.
  2: { intros o Ho. destruct o as [z| |]; [by destruct (Ho z)|done..]. }
  unfold Images.localcorr.
  rewrite uniform_filter_window by lia. cbn [bind].
  set (w := (n * 2 + 1)%Z).
  set (bs := List.map (fun v => ndfilter uniform v _) (Images.tordd c)).
  assert (Hrows : Forall (fun r => length r = prod (Images.dims c))
                    (List.map data (Images.tordd c))).
  { unfold Images.tordd. rewrite data_rows, <- dims_tl.
    apply Forall_length_chunks. apply wf_shape in Hwf. lia. }
  assert (Hbs : Forall (fun r => length r = prod (Images.dims c)) (List.map data bs)).
  { unfold bs. rewrite map_map. rewrite List.Forall_map in *.
    eapply Forall_impl; [exact Hrows|]. intros x Hx. cbn in *. by rewrite Hkeep. }
  assert (Hlen : length bs = len (Images.values c)).
  { unfold bs, Images.tordd. by rewrite length_map, length_rows. }
  destruct (combined_rows c bs (Images.mode c) Hwf Hbs Hlen) as [Hcat Hrs].
  set (rs := List.map data (Images.tordd c) ++ List.map data bs) in *.
  set (blurred := Images.Make _ (Images.mode c)) in *.
  assert (Hcombined :
    Images.values
      match Images.mode c with
      | spark =>
          Images.fromrdd
            (Images.tordd (Images.Make (concatenate (Images.values c) (Images.values blurred)) spark))
            (Images.dims (Images.Make (concatenate (Images.values c) (Images.values blurred)) spark))
      | local => Images.fromarray (concatenate (Images.values c) (Images.values blurred))
      end = NdArray (length rs :: Images.dims c) (concat rs)).
  { destruct (Images.mode c); [done|].
    rewrite Hcat. unfold Images.fromrdd, Images.__init__, Images.tordd.
    cbn [Images.values]. rewrite length_rows, dims_tl. cbn [Images.values shape len hd tl].
    rewrite data_rows. cbn [shape data len hd tl].
    by rewrite chunks_concat. }
  eexists. split; [reflexivity|].
  unfold Images.toarray, Images.series_map.
  cbn [Images.svalues data].
  rewrite svalues_toseries, Hcombined, last_axis_transpose by done.
  rewrite columns_spec by done. rewrite map_map.
  unfold Spec.localcorr. apply map_ext. intros p.
  unfold Spec.series_at.
  replace (length (Images.tordd c)) with (len (Images.values c))
    by (unfold Images.tordd; by rewrite length_rows).
  assert (Hser : omap (fun r : list T => r !! p) rs
                 = omap (fun e : ndarray T => data e !! p)
                     (Images.tordd c ++
                      List.map (fun e => ndfilter uniform e
                                  (Spec.window (length (Images.dims c)) (2 * n + 1)))
                               (Images.tordd c))).
  { unfold rs, bs, w. rewrite <- map_app, omap_map.
    by replace (n * 2 + 1)%Z with (2 * n + 1)%Z by lia. }
  by rewrite Hser.
Qed.

End LocalCorr.

(** ** [squeeze] *)

Section Squeeze.
Context {T : Type} `{Kernels T}.
Implicit Types (c : Images.t T) (a : ndarray T).

Lemma prod_cons (n : nat) (l : list nat) : prod (n :: l) = n * prod l.
Proof. done. Qed.

Lemma prod_1_ones (l : list nat) : prod l = 1 -> Forall (fun n => n = 1) l.
Proof.
  induction l as [|n l IH]; intros Hp; [constructor|].
  rewrite prod_cons in Hp. apply Nat.eq_mul_1 in Hp as [-> Hl]. constructor; auto.
Qed.

Lemma prod_filter_ones (l : list nat) : prod (filter (fun n => n <> 1) l) = prod l.
Proof.
  induction l as [|n l IH]; [done|].
  rewrite filter_cons. destruct (decide (n <> 1)) as [Hn|Hn].
  - by rewrite !prod_cons, IH.
  - rewrite prod_cons, IH. assert (n = 1) as -> by lia. lia.
Qed.

Lemma filter_ones_idemp (l : list nat) :
  filter (fun n => n <> 1) (filter (fun n => n <> 1) l) = filter (fun n => n <> 1) l.
Proof.
  induction l as [|n l IH]; [done|].
  rewrite filter_cons. destruct (decide (n <> 1)) as [Hn|Hn]; [|done].
  rewrite filter_cons. destruct (decide (n <> 1)); [|done]. by rewrite IH.
Qed.

(** Listed unit axes all go. *)
Lemma squeeze_shape_all (i : nat) (ax l : list nat) :
  Forall (fun n => n = 1) l ->
  (forall j, i <= j < i + length l -> j ∈ ax) ->
  squeeze_shape i ax l = Some [].
Proof.
  intros Hl. revert i. induction Hl as [|n l -> Hl IH]; intros i Hax; [done|].
  cbn [squeeze_shape]. rewrite bool_decide_eq_true_2 by (apply Hax; cbn; lia).
  cbn. apply IH. intros j Hj. apply Hax. cbn. lia.
Qed.

(** On a shape of ones, squeezing the axes [1 .. k-1] leaves the first. *)
Lemma squeeze_ones (x : ndarray T) :
  prod (shape x) = 1 ->
  Np.squeeze (Some (seq 1 (length (shape x) - 1))) x
  = Ok (NdArray (take 1 (shape x)) (data x)).
Proof.
  intros Hp%prod_1_ones. unfold Np.squeeze.
  assert (Hin : forallb (fun i => i <? length (shape x))
                  (seq 1 (length (shape x) - 1)) = true).
  { apply forallb_forall. intros i Hi%in_seq. apply Nat.ltb_lt. lia. }
  rewrite Hin. destruct (shape x) as [|n l]; [done|].
  inversion Hp as [|? ? -> Hl]; subst.
  cbn [squeeze_shape length]. rewrite Nat.sub_succ, Nat.sub_0_r.
  rewrite bool_decide_eq_false_2.
  2: { intros Hi%list_elem_of_In%in_seq. lia. }
  rewrite squeeze_shape_all; [done|done|].
  intros j Hj. apply list_elem_of_In, in_seq. lia.
Qed.

Lemma rows_cons a :
  0 < len a ->
  exists d ds, rows a = NdArray (tl (shape a)) d :: List.map (NdArray (tl (shape a))) ds.
Proof.
  intros Hn. unfold rows. destruct (len a) as [|n]; [lia|].
  rewrite chunks_S. cbn. eauto.
Qed.

Lemma shape_rows a : Forall (fun x => shape x = tl (shape a)) (rows a).
Proof. unfold rows. apply List.Forall_map. by apply Forall_true. Qed.

Lemma map_None_ok c func c' :
  Images.map c func None = Ok c' -> 0 < len (Images.values c).
Proof.
  unfold Images.map, Images._map, Images.tordd.
  destruct (len (Images.values c)) as [|n] eqn:E; [|lia].
  unfold rows. rewrite E. cbn. done.
Qed.

(** What [squeeze] returns on a collection that has an image to probe. *)
Lemma squeeze_dims c :
  0 < len (Images.values c) ->
  exists c', Images.squeeze c = Ok c' /\
    len (Images.values c') = len (Images.values c) /\
    Images.mode c' = Images.mode c /\
    Images.dims c' = if prod (Images.dims c) =? 1 then take 1 (Images.dims c)
                     else filter (fun n => n <> 1) (Images.dims c).
Proof.
  intros Hn. unfold Images.squeeze, Images.map, Images._map, Images.tordd.
  assert (Hshape : shape (Images.values c) <> []).
  { unfold len in Hn. destruct (shape (Images.values c)); [cbn in Hn; lia|done]. }
  fold (Images.dims c). 
  pose proof (shape_rows (Images.values c)) as Hrows.
  destruct (rows_cons _ Hn) as (d & ds & Erows).
  destruct (prod (Images.dims c) =? 1) eqn:E.
  - apply Nat.eqb_eq in E.
    rewrite (mapM_ext_ok _ (fun x => NdArray (take 1 (shape x)) (data x))).
    2: { intros x Hx. rewrite List.Forall_forall in Hrows. specialize (Hrows x Hx).
         rewrite <- squeeze_ones by (by rewrite Hrows, <- dims_tl).
         do 3 f_equal. rewrite Hrows. unfold Images.shape.
         destruct (shape (Images.values c)); [done|]. cbn. lia. }
    cbn. rewrite Erows. cbn. eexists. split; [reflexivity|].
    cbn. by rewrite dims_tl.
  - rewrite (mapM_ext_ok _ squeeze_all) by done. cbn. rewrite Erows. cbn.
    eexists. split; [reflexivity|]. cbn. by rewrite dims_tl.
Qed.

Lemma filter_id_iff (l : list nat) :
  filter (fun n => n <> 1) l = l <-> Forall (fun n => n <> 1) l.
Proof.
  split.
  - intros <-. apply List.Forall_forall. intros x Hx%list_elem_of_In.
    by apply list_elem_of_filter in Hx as [? _].
  - induction 1 as [|n l Hn Hl IH]; [done|].
    rewrite filter_cons. destruct (decide (n <> 1)); [by rewrite IH|done].
Qed.

(** C3, as amended.  On a collection with an element to probe, [squeeze]
    succeeds; when the product of the dims is 1 it keeps the first dim only;
    when the product is not 1 it removes every dim of size 1 and keeps the
    others in order, so the dims are unchanged exactly when no dim has size
    1. *)
Theorem squeeze_removes_unit_dims c :
  0 < len (Images.values c) ->
  exists c', Images.squeeze c = Ok c' /\
    (prod (Images.dims c) = 1 -> Images.dims c' = take 1 (Images.dims c)) /\
    (prod (Images.dims c) <> 1 ->
       Images.dims c' = filter (fun n => n <> 1) (Images.dims c) /\
       (Images.dims c' = Images.dims c <-> Forall (fun n => n <> 1) (Images.dims c))).
Proof.
  intros Hn. destruct (squeeze_dims c Hn) as (c' & Hc' & _ & _ & Hdims).
  exists c'. split; [done|]. split.
  - intros Hp. by rewrite Hdims, Hp.
  - intros Hp. apply Nat.eqb_neq in Hp. rewrite Hp in Hdims.
    split; [done|]. rewrite Hdims. apply filter_id_iff.
Qed.

(** C9.  [squeeze] is idempotent on dims: whenever [C.squeeze()] returns a
    collection, squeezing that collection again succeeds and gives the same
    dims. *)
Theorem squeeze_idempotent c c' :
  Images.squeeze c = Ok c' ->
  exists c'', Images.squeeze c' = Ok c'' /\ Images.dims c'' = Images.dims c'.
Proof.
  intros Hc'. pose proof (map_None_ok _ _ _ Hc') as Hn.
  destruct (squeeze_dims c Hn) as (c0 & Hc0 & Hlen & _ & Hdims).
  rewrite Hc' in Hc0. inversion Hc0; subst c0; clear Hc0.
  destruct (squeeze_dims c') as (c'' & Hc'' & _ & _ & Hdims'); [lia|].
  exists c''. split; [done|]. rewrite Hdims'.
  destruct (prod (Images.dims c) =? 1) eqn:E.
  - apply Nat.eqb_eq in E. pose proof (prod_1_ones _ E) as Hones.
    rewrite Hdims. destruct (Images.dims c) as [|n l]; [done|].
    inversion Hones; subst. done.
  - rewrite Hdims, prod_filter_ones, E. apply filter_ones_idemp.
Qed.

End Squeeze.
(** ** [subsample] *)

Lemma roundup_ceil (a b : Z) : (0 < b)%Z -> Images.roundup a b = Spec.ceil_div a b.
Proof.
  intros Hb. unfold Images.roundup, Spec.ceil_div, Qceiling, Qfloor.
  destruct b as [|p|p]; [lia| |lia].
  cbn. rewrite Z.mul_1_r, Pos.mul_1_l.
  pose proof (Z.div_mod (- a) (Z.pos p) ltac:(lia)) as H3.
  pose proof (Z.mod_pos_bound (- a) (Z.pos p) ltac:(lia)) as H4.
  symmetry. apply (Z.div_unique _ _ _ (Z.pos p - 1 - (- a) mod Z.pos p)); lia.
Qed.

Lemma range_from_spec (fuel i stop step : nat) :
  1 <= step -> stop - i <= fuel ->
  range_from fuel i stop step
  = List.map (fun k => i + k * step) (seq 0 ((stop - i + step - 1) / step)).
Proof.
  intros Hs. revert i. induction fuel as [|fuel IH]; intros i Hf.
  - assert (stop - i = 0) as -> by lia. cbn [range_from].
    rewrite Nat.div_small by lia. done.
  - cbn [range_from]. destruct (Nat.ltb_spec i stop) as [Hlt|Hge].
    + rewrite IH by lia.
      replace ((stop - i + step - 1) / step)
        with (S ((stop - (i + step) + step - 1) / step)).
      * rewrite <- cons_seq, <- seq_shift. cbn [List.map]. f_equal; [lia|].
        rewrite map_map. apply map_ext. intros k. lia.
      * destruct (Nat.le_gt_cases step (stop - i)) as [Hle|Hgt].
        -- replace (stop - i + step - 1) with ((stop - (i + step) + step - 1) + 1 * step) by lia.
           rewrite Nat.div_add by lia. lia.
        -- replace (stop - (i + step)) with 0 by lia.
           rewrite (Nat.div_small (0 + step - 1)) by lia.
           replace (stop - i + step - 1) with ((stop - i - 1) + 1 * step) by lia.
           rewrite Nat.div_add by lia. rewrite Nat.div_small by lia. done.
    + assert (stop - i = 0) as -> by lia.
      rewrite Nat.div_small by lia. done.
Qed.

(** [range(0, d, s)] is [0, s, 2s, ...], as many as the rounded-up quotient. *)
Lemma range_step_spec (d s : nat) :
  1 <= s -> range_step d s = List.map (fun k => k * s) (seq 0 ((d + s - 1) / s)).
Proof.
  intros Hs. unfold range_step. rewrite range_from_spec by lia.
  rewrite Nat.sub_0_r. done.
Qed.

Lemma roundup_nat (d : nat) (f : Z) :
  (0 < f)%Z -> Z.to_nat (Images.roundup (Z.of_nat d) f) = (d + Z.to_nat f - 1) / Z.to_nat f.
Proof.
  intros Hf. unfold Images.roundup.
  rewrite <- (Z2Nat.id f) at 1 2 by lia.
  replace (Z.of_nat d + Z.of_nat (Z.to_nat f) - 1)%Z
    with (Z.of_nat (d + Z.to_nat f - 1)) by lia.
  rewrite <- Nat2Z.inj_div. apply Nat2Z.id.
Qed.

Lemma length_range_step (d : nat) (f : Z) :
  (0 < f)%Z -> length (range_step d (Z.to_nat f)) = Z.to_nat (Spec.ceil_div (Z.of_nat d) f).
Proof.
  intros Hf. rewrite range_step_spec by lia.
  rewrite length_map, length_seq, <- roundup_ceil, roundup_nat by done. done.
Qed.

Section Subsample.
Context {T : Type} `{Kernels T}.
Implicit Types (c : Images.t T).

Lemma mapM_map {A B C} (f : B -> result C) (g : A -> B) (l : list A) :
  mapM f (List.map g l) = mapM (fun x => f (g x)) l.
Proof. induction l as [|x l IH]; [done|]. cbn. by rewrite IH. Qed.

(** The comprehensions over [range(ndims)] pair [dims[i]] with
    [factor[i]]; they succeed when [factor] is long enough. *)
Lemma mapM_range {A B C} (h : A -> B -> C) (l1 : list A) (l2 : list B) :
  length l1 <= length l2 ->
  mapM (fun i => let* d := Images.at_ l1 i in
                 let* f := Images.at_ l2 i in Ok (h d f))
       (seq 0 (length l1))
  = Ok (zip_with h l1 l2).
Proof.
  revert l2. induction l1 as [|x l1 IH]; intros l2 Hlen; [done|].
  destruct l2 as [|y l2]; [cbn in Hlen; lia|].
  cbn [length]. rewrite <- cons_seq, <- seq_shift. cbn [mapM].
  rewrite mapM_map.
  change (mapM _ (seq 0 (length l1)))
    with (mapM (fun i => let* d := Images.at_ l1 i in
                         let* f := Images.at_ l2 i in Ok (h d f))
               (seq 0 (length l1))).
  rewrite IH by (cbn in Hlen; lia). done.
Qed.

Lemma existsb_nonpositive (fs : list Z) :
  Forall (fun f => 0 < f)%Z fs -> existsb (fun sf => (sf <=? 0)%Z) fs = false.
Proof.
  induction 1 as [|f fs Hf Hfs IH]; [done|].
  cbn. rewrite IH. destruct (Z.leb_spec f 0); [lia|done].
Qed.

(** The shape numpy gives the sliced image is the declared [newdims]. *)
Lemma sliced_shape (dims : list nat) (fs : list Z) :
  Forall (fun f => 0 < f)%Z fs ->
  zip_with (fun n s => length (range_step n s)) dims
           (zip_with (fun _ f => Z.to_nat f) dims fs)
  = zip_with (fun d f => Z.to_nat (Images.roundup (Z.of_nat d) f)) dims fs.
Proof.
  intros Hfs. revert dims. induction Hfs as [|f fs Hf Hfs IH]; intros dims.
  - by destruct dims.
  - destruct dims as [|d dims]; [done|]. cbn [zip_with]. rewrite IH. f_equal.
    by rewrite length_range_step, roundup_ceil.
Qed.

Lemma roundup_ones (dims : list nat) (fs : list Z) :
  Forall (fun f => f = 1%Z) fs -> length dims <= length fs ->
  zip_with (fun d f => Z.to_nat (Images.roundup (Z.of_nat d) f)) dims fs = dims.
Proof.
  intros Hfs. revert dims. induction Hfs as [|f fs -> Hfs IH]; intros dims Hlen.
  - destruct dims; [done|cbn in Hlen; lia].
  - destruct dims as [|d dims]; [done|]. cbn [zip_with].
    rewrite IH by (cbn in Hlen; lia). f_equal.
    unfold Images.roundup. rewrite Z.div_1_r. lia.
Qed.

(** What [subsample] returns for positive factors, one per axis. *)
Lemma subsample_ok c (factor : arg) :
  let dims := Images.dims c in
  let fs := match factor with
            | Scalar f => replicate (length dims) f
            | Seq fs => fs
            end in
  Forall (fun f => 0 < f)%Z fs ->
  length dims <= length fs ->
  Images.subsample c factor
  = Ok (Images.Make
          (NdArray (len (Images.values c)
                      :: zip_with (fun d f => Z.to_nat (Images.roundup (Z.of_nat d) f)) dims fs)
             (concat (List.map data
                (List.map (getitem_slices (zip_with (fun _ f => Z.to_nat f) dims fs))
                          (Images.tordd c)))))
          (Images.mode c)).
Proof.
  intros dims fs Hpos Hlen.
  unfold Images.subsample. fold dims. fold fs.
  rewrite existsb_nonpositive by done.
  rewrite (mapM_range (fun _ f => Z.to_nat f)) by done.
  rewrite (mapM_range (fun d f => Z.to_nat (Images.roundup (Z.of_nat d) f))) by done.
  cbn [bind]. unfold Images.map, Images._map. by rewrite mapM_ok.
Qed.

End Subsample.

(** ** The projections *)

Section Projections.
Context {T : Type} `{Kernels T}.
Implicit Types (c : Images.t T).

Lemma norm_index_nonneg (n : nat) (i : Z) :
  (0 <= i < Z.of_nat n)%Z -> norm_index n i = Some (Z.to_nat i).
Proof.
  intros Hi. unfold norm_index.
  destruct (Z.leb_spec 0 i); [|lia]. destruct (Z.ltb_spec i (Z.of_nat n)); [done|lia].
Qed.

Lemma norm_index_neg (n : nat) (i : Z) :
  (- Z.of_nat n <= i < 0)%Z -> norm_index n i = Some (Z.to_nat (Z.of_nat n + i)).
Proof.
  intros Hi. unfold norm_index.
  destruct (Z.leb_spec 0 i); [lia|]. destruct (Z.leb_spec (- Z.of_nat n) i); [done|lia].
Qed.

(** Past the range check both projections only need [del] to succeed. *)
Lemma projections_ok c (axis : Z) (k : nat) :
  (axis < Z.of_nat (length (Images.dims c)))%Z ->
  norm_index (length (Images.dims c)) axis = Some k ->
  Images.max_projection c axis
  = Ok (Images.Make
          (NdArray (len (Images.values c) :: delete k (Images.dims c))
             (concat (List.map data
                (List.map (fun x => amax x axis) (Images.tordd c)))))
          (Images.mode c)) /\
  Images.max_min_projection c axis
  = Ok (Images.Make
          (NdArray (len (Images.values c) :: delete k (Images.dims c))
             (concat (List.map data
                (List.map (fun x => Images.add_arrays (amax x axis) (amin x axis))
                          (Images.tordd c)))))
          (Images.mode c)).
Proof.
  intros Hlt Hk. unfold Images.max_projection, Images.max_min_projection, size.
  destruct (Z.leb_spec (Z.of_nat (length (Images.dims c))) axis); [lia|].
  unfold del. rewrite Hk. cbn [bind].
  unfold Images.map, Images._map. by rewrite !mapM_ok.
Qed.

(** C6.  With [d] spatial dims, [max_projection] and [max_min_projection]
    raise the range error for every [axis >= d], whatever the elements and
    the kernels are (the failure is decided from the dims and the axis
    alone); for [0 <= axis < d] both succeed, the result's dims are the
    input's with that axis removed, and its elements are [amax(x, axis)],
    respectively [amax(x, axis) + amin(x, axis)], of the input's elements. *)
Theorem projection_axis_range c (axis : Z) :
  let d := Z.of_nat (length (Images.dims c)) in
  ((d <= axis)%Z ->
     Images.max_projection c axis = Raise (Exception_ (MsgAxis axis 0 (d - 1))) /\
     Images.max_min_projection c axis = Raise (Exception_ (MsgAxis axis 0 (d - 1)))) /\
  ((0 <= axis < d)%Z ->
     exists r1 r2,
       Images.max_projection c axis = Ok r1 /\
       Images.max_min_projection c axis = Ok r2 /\
       Images.dims r1 = delete (Z.to_nat axis) (Images.dims c) /\
       Images.dims r2 = delete (Z.to_nat axis) (Images.dims c) /\
       data (Images.values r1)
         = concat (List.map (fun x => data (amax x axis)) (Images.tordd c)) /\
       data (Images.values r2)
         = concat (List.map (fun x => zip_with add (data (amax x axis)) (data (amin x axis)))
                            (Images.tordd c))).
Proof.
  intros d. split.
  - intros Hge. unfold Images.max_projection, Images.max_min_projection, size.
    fold d. by destruct (Z.leb_spec d axis); [|lia].
  - intros Hin.
    destruct (projections_ok c axis (Z.to_nat axis)) as [H1 H2];
      [fold d; lia|by apply norm_index_nonneg|].
    eexists _, _. split; [exact H1|]. split; [exact H2|].
    cbn. by rewrite !map_map.
Qed.


(** Below the last axis counted from the end, [del] fails instead. *)
Lemma projection_below_range c (axis : Z) :
  (axis < - Z.of_nat (length (Images.dims c)))%Z ->
  Images.max_projection c axis = Raise IndexError /\
  Images.max_min_projection c axis = Raise IndexError.
Proof.
  intros Hlt. unfold Images.max_projection, Images.max_min_projection, size.
  destruct (Z.leb_spec (Z.of_nat (length (Images.dims c))) axis); [lia|].
  unfold del, norm_index.
  destruct (Z.leb_spec 0 axis); [lia|].
  by destruct (Z.leb_spec (- Z.of_nat (length (Images.dims c))) axis); [lia|].
Qed.
End Projections.

(** ** Modes, and [sample] *)

Section Modes.
Context {T : Type} `{Kernels T} {G : Type} `{Random G}.
Implicit Types (c : Images.t T).

Lemma map_mode c func dims c' :
  Images.map c func dims = Ok c' -> Images.mode c' = Images.mode c.
Proof.
  unfold Images.map, Images._map.
  destruct (mapM func (Images.tordd c)) as [outs|]; [|done]. cbn [bind].
  destruct dims; [by intros [= <-]|].
  destruct outs; [done|]. by intros [= <-].
Qed.

(** Peel the checks in front of the final [map] of a method. *)
Ltac to_map :=
  repeat match goal with
         | |- Ok _ = Ok _ -> _ => intros [= <-]
         | |- Raise _ = Ok _ -> _ => discriminate
         | |- Images.map _ _ _ = Ok _ -> _ => apply map_mode
         | |- bind ?m _ = Ok _ -> _ => destruct m; cbn [bind]
         | |- (if ?b then _ else _) = Ok _ -> _ => destruct b
         | |- match ?x with _ => _ end = Ok _ -> _ => destruct x
         end.

(** C7, as amended.  [map] and the transformations built on it ([squeeze],
    the two projections, [subsample], the three filters, [subtract]) return
    a collection in the mode of their input; [sample] returns a local
    collection whatever the mode of its input. *)
Theorem transformations_keep_mode c :
  (forall func dims c', Images.map c func dims = Ok c' -> Images.mode c' = Images.mode c) /\
  (forall c', Images.squeeze c = Ok c' -> Images.mode c' = Images.mode c) /\
  (forall axis c', Images.max_projection c axis = Ok c' -> Images.mode c' = Images.mode c) /\
  (forall axis c', Images.max_min_projection c axis = Ok c' -> Images.mode c' = Images.mode c) /\
  (forall factor c', Images.subsample c factor = Ok c' -> Images.mode c' = Images.mode c) /\
  (forall sigma order c',
     Images.gaussian_filter c sigma order = Ok c' -> Images.mode c' = Images.mode c) /\
  (forall size c', Images.uniform_filter c size = Ok c' -> Images.mode c' = Images.mode c) /\
  (forall size c', Images.median_filter c size = Ok c' -> Images.mode c' = Images.mode c) /\
  (forall val c', Images.subtract c val = Ok c' -> Images.mode c' = Images.mode c) /\
  (forall nsamples seed (g : G) c',
     fst (Images.sample c nsamples seed g) = Ok c' -> Images.mode c' = local).
Proof.
  repeat split.
  - apply map_mode.
  - intros c'. unfold Images.squeeze. to_map.
  - intros axis c'. unfold Images.max_projection. to_map.
  - intros axis c'. unfold Images.max_min_projection. to_map.
  - intros factor c'. unfold Images.subsample. to_map.
  - intros sigma order c'. unfold Images.gaussian_filter. to_map.
  - intros size c'. unfold Images.uniform_filter, Images._image_filter. to_map.
  - intros size c'. unfold Images.median_filter, Images._image_filter. to_map.
  - intros val c'. unfold Images.subtract. to_map.
  - intros nsamples seed g c'. unfold Images.sample.
    destruct (nsamples <? 1)%Z; [done|].
    destruct (match seed with Some s => (s, g) | None => randint 0 (2 ^ 32) g end) as [s g'].
    destruct (Images.mode c).
    + destruct (rand (Z.to_nat nsamples) g') as [ks g'']. cbn [fst].
      destruct (mapM _ _); [|done]. by intros [= <-].
    + by intros [= <-].
Qed.

(** Locally the seed does not reach the generator: the sample is the same
    for every seed, and changes with the generator's state. *)
Lemma sample_local_ignores_seed c (nsamples s1 s2 : Z) (g : G) :
  Images.mode c = local ->
  Images.sample c nsamples (Some s1) g = Images.sample c nsamples (Some s2) g.
Proof. intros Hm. unfold Images.sample. by rewrite Hm. Qed.

(** On a distributed collection the seed decides the sample. *)
Lemma sample_spark_seeded c (nsamples s : Z) (g : G) :
  Images.mode c = spark -> (1 <= nsamples)%Z ->
  Images.sample c nsamples (Some s) g
  = (Ok (Images._constructor (stack (takeSample (Images.tordd c) false nsamples s))), g).
Proof.
  intros Hm Hn. unfold Images.sample. rewrite Hm.
  by destruct (Z.ltb_spec nsamples 1); [lia|].
Qed.
End Modes.

(** C7 fails as stated: a distributed collection comes back from [sample]
    as a local one. *)
Lemma sample_spark_returns_local :
  exists r,
    fst (Images.sample (Images.Make Demo.frames spark) 2 (Some 1%Z) ([] : list Q)) = Ok r /\
    Images.mode r <> Images.mode (Images.Make Demo.frames spark).
Proof. eexists. split; [vm_compute; reflexivity|]. cbn. discriminate. Qed.

(** Dims that are all 1 keep their first axis. *)
Lemma squeeze_points :
  exists c', Images.squeeze (Images.Make Demo.points spark) = Ok c' /\
             Images.dims c' = [1] /\ Images.mode c' = spark.
Proof. eexists. split; [reflexivity|]. by split. Qed.

(** C3 fails as stated: dims (4, 1, 3) have product 12, one dim of size 1,
    and [squeeze] turns them into (4, 3). *)
Lemma squeeze_drops_inner_unit_dim :
  let c := Images.Make Demo.volumes local in
  1 < prod (Images.dims c) /\
  In 1 (Images.dims c) /\
  exists c', Images.squeeze c = Ok c' /\
             Images.dims c' = [4; 3] /\
             Images.dims c' <> Images.dims c.
Proof.
  cbn zeta. split; [vm_compute; lia|]. split; [vm_compute; tauto|].
  eexists. split; [vm_compute; reflexivity|]. split; [reflexivity|].
  vm_compute. discriminate.
Qed.

(** C4, on the code: two calls with seed 7 on the same local collection, one
    after the other.  The seed never reaches the generator, the generator
    has moved on between the calls, and the second sample differs from the
    first. *)
Lemma sample_local_same_seed_differs :
  let c := Images.Make Demo.frames local in
  let g0 := [0; 7 # 8]%Q in
  let first := Images.sample c 1 (Some 7%Z) g0 in
  let second := Images.sample c 1 (Some 7%Z) (snd first) in
  fst first = Ok (Images.Make (NdArray [1; 2; 2] [0; 1; 2; 3]%Z) local) /\
  fst second = Ok (Images.Make (NdArray [1; 2; 2] [8; 9; 10; 11]%Z) local) /\
  fst first <> fst second.
Proof.
  cbn zeta. split; [vm_compute; reflexivity|]. split; [vm_compute; reflexivity|].
  vm_compute. discriminate.
Qed.

(** ** What the filters can write *)

Section Frame.
Context {T : Type} `{Kernels T}.
Implicit Types (h : Store.heap T) (r im : Store.ref) (self : Store.t).

Lemma untouched_refl h : Store.untouched h h.
Proof. by intros l b. Qed.

Lemma untouched_trans h1 h2 h3 :
  Store.untouched h1 h2 -> Store.untouched h2 h3 -> Store.untouched h1 h3.
Proof. intros H12 H23 l b Hl. by apply H23, H12. Qed.

Lemma untouched_but_refl l0 h : Store.untouched_but l0 h h.
Proof. split; [done|]. by intros l b. Qed.

Lemma untouched_but_trans l0 h1 h2 h3 :
  Store.untouched_but l0 h1 h2 -> Store.untouched_but l0 h2 h3 ->
  Store.untouched_but l0 h1 h3.
Proof.
  intros [L12 H12] [L23 H23]. split; [lia|].
  intros l b Hne Hl. by apply H23, H12.
Qed.

Lemma preserves_ret {A} (a : A) : Store.preserves (T := T) (Store.ret a).
Proof. intros h. apply untouched_refl. Qed.

Lemma preserves_lift {A} (a : result A) : Store.preserves (T := T) (Store.lift a).
Proof. intros h. apply untouched_refl. Qed.

Lemma preserves_read r : Store.preserves (T := T) (Store.read r).
Proof. intros h. unfold Store.read. destruct (h !! Store.buf r); apply untouched_refl. Qed.

Lemma preserves_new (x : ndarray T) (w : bool) : Store.preserves (T := T) (Store.new x w).
Proof. intros h l b Hl. cbn. by apply lookup_app_l_Some. Qed.

Lemma preserves_bind {A B} (m : Store.M A) (k : A -> Store.M B) :
  Store.preserves (T := T) m -> (forall a, Store.preserves (T := T) (k a)) -> Store.preserves (T := T) (Store.bindM m k).
Proof.
  intros Hm Hk h. unfold Store.bindM. specialize (Hm h).
  destruct (m h) as [[a|e] h1]; [|done].
  eapply untouched_trans; [exact Hm|]. apply Hk.
Qed.

(** [m] then [f] as one step, followed by more. *)
Lemma preserves_bind_step {A B C} (m : Store.M A) (f : A -> Store.M B)
    (k : B -> Store.M C) :
  Store.preserves (T := T) (Store.bindM m f) -> (forall b, Store.preserves (T := T) (k b)) ->
  Store.preserves (T := T) (Store.bindM m (fun a => Store.bindM (f a) k)).
Proof.
  intros Hmf Hk h. specialize (Hmf h). unfold Store.bindM in *.
  destruct (m h) as [[a|e] h1]; [|done].
  destruct (f a h1) as [[b|e] h2]; [|done].
  eapply untouched_trans; [exact Hmf|]. apply Hk.
Qed.

(** A write reaches the buffer of its window and no other. *)
Lemma write_untouched_but r (d : list T) h :
  Store.untouched_but (Store.buf r) h (snd (Store.write r d h)).
Proof.
  unfold Store.write. destruct (Store.writeable r); [|apply untouched_but_refl].
  destruct (h !! Store.buf r) as [b|] eqn:E; [|apply untouched_but_refl].
  cbn [snd]. split; [by rewrite length_insert|].
  intros l b' Hne Hl. by rewrite list_lookup_insert_ne.
Qed.

Lemma filter_loop_untouched_but func size2 zs im h :
  Store.untouched_but (Store.buf im) h (snd (Store.filter_loop func size2 zs im h)).
Proof.
  revert h. induction zs as [|z zs IH]; intros h; [apply untouched_but_refl|].
  cbn [Store.filter_loop]. unfold Store.bindM at 1.
  pose proof (preserves_read im h) as Hr.
  unfold Store.read in *. destruct (h !! Store.buf im) as [b|]; [|apply untouched_but_refl].
  cbn [snd] in *. unfold Store.bindM at 1, Store.lift.
  destruct (Images.assign_plane _ _ _) as [x'|e]; [|apply untouched_but_refl].
  unfold Store.bindM at 1.
  pose proof (write_untouched_but im (data x') h) as Hw.
  destruct (Store.write im (data x') h) as [[u|e] h1]; [|done].
  eapply untouched_but_trans; [exact Hw|]. apply IH.
Qed.

Lemma untouched_but_fresh h h1 h2 :
  Store.untouched h h1 -> length h <= length h1 ->
  Store.untouched_but (length h) h1 h2 ->
  Store.untouched h h2.
Proof.
  intros H1 Hlen [_ H2] l b Hl. apply H2; [|by apply H1].
  apply lookup_lt_Some in Hl. lia.
Qed.

(** One image of the slice-by-slice filter: the array it writes is the
    copy it made (locally) or the record it was handed (distributed). *)
Lemma slicewise_step_preserves self func size2 d2 (i : nat) :
  Store.preserves (T := T) (Store.bindM (Store.record self i)
               (Store.filter_slicewise (Store.mode self) func size2 d2)).
Proof.
  intros h. unfold Store.record, Store.filter_slicewise.
  destruct (Store.mode self).
  - (* local: [im.copy()] *)
    unfold Store.bindM at 1, Store.ret at 1. unfold Store.bindM at 1.
    unfold Store.copy, Store.bindM at 1, Store.read.
    destruct (h !! Store.buf (Store.row (Store.values self) i)) as [b|];
      [|apply untouched_refl].
    unfold Store.new. cbn [fst snd].
    set (im := Store.Ref (length h) 0 _ true).
    set (h1 := h ++ [_]).
    unfold Store.bindM at 1.
    pose proof (filter_loop_untouched_but func size2 (seq 0 d2) im h1) as Hloop.
    destruct (Store.filter_loop func size2 (seq 0 d2) im h1) as [[u|e] h2];
      cbn [snd Store.ret] in *.
    all: eapply untouched_but_fresh; [| |exact Hloop];
      [intros l b' Hl; by apply lookup_app_l_Some|unfold h1; rewrite length_app; lia].
  - (* distributed: the record is a buffer of its own *)
    unfold Store.bindM at 1. unfold Store.bindM at 1, Store.read.
    destruct (h !! Store.buf (Store.row (Store.values self) i)) as [b|];
      [|apply untouched_refl].
    unfold Store.new. cbn [fst snd].
    set (rec := Store.Ref (length h) 0 _ false).
    set (h1 := h ++ [_]).
    unfold Store.bindM at 1, Store.ret at 1. unfold Store.bindM at 1.
    pose proof (filter_loop_untouched_but func size2 (seq 0 d2)
                  (Store.setflags rec true) h1) as Hloop.
    destruct (Store.filter_loop func size2 (seq 0 d2) (Store.setflags rec true) h1)
      as [[u|e] h2]; cbn [snd Store.ret] in *.
    all: eapply untouched_but_fresh; [| |exact Hloop];
      [intros l b' Hl; by apply lookup_app_l_Some|unfold h1; rewrite length_app; lia].
Qed.

Lemma preserves_record self i : Store.preserves (T := T) (Store.record self i).
Proof.
  unfold Store.record. destruct (Store.mode self); [apply preserves_ret|].
  apply preserves_bind; [apply preserves_read|]. intros x. apply preserves_new.
Qed.

Lemma whole_step_preserves self func size (i : nat) :
  Store.preserves (T := T) (Store.bindM (Store.record self i) (Store.filter_whole func size)).
Proof.
  apply preserves_bind; [apply preserves_record|]. intros x.
  apply preserves_bind; [apply preserves_read|]. intros v. apply preserves_new.
Qed.

Lemma preserves_map_records self (func : Store.ref -> Store.M Store.ref) ids :
  (forall i, Store.preserves (T := T) (Store.bindM (Store.record self i) func)) ->
  Store.preserves (T := T) (Store.map_records self func ids).
Proof.
  intros Hstep. induction ids as [|i ids IH]; [apply preserves_ret|].
  cbn [Store.map_records]. apply preserves_bind_step; [apply Hstep|].
  intros y. apply preserves_bind; [apply preserves_read|]. intros v.
  apply preserves_bind; [exact IH|]. intros vs. apply preserves_ret.
Qed.

Lemma preserves_map self (func : Store.ref -> Store.M Store.ref) dims :
  (forall i, Store.preserves (T := T) (Store.bindM (Store.record self i) func)) ->
  Store.preserves (T := T) (Store.map self func dims).
Proof.
  intros Hstep. unfold Store.map, Store._map.
  apply preserves_bind; [by apply preserves_map_records|]. intros outs.
  apply preserves_bind; [apply preserves_new|]. intros a. apply preserves_ret.
Qed.

Lemma preserves_image_filter self (filter : filter_name) (size : arg) :
  Store.preserves (T := T) (Store._image_filter self filter size).
Proof.
  unfold Store._image_filter.
  apply preserves_bind; [apply preserves_lift|]. intros [|].
  - apply preserves_bind; [apply preserves_lift|]. intros d2.
    apply preserves_map. intros i. apply slicewise_step_preserves.
  - apply preserves_map. intros i. apply whole_step_preserves.
Qed.

Lemma read_untouched r h h' (x : ndarray T) :
  Store.untouched h h' ->
  fst (Store.read r h) = Ok x -> fst (Store.read r h') = Ok x.
Proof.
  intros Hu. unfold Store.read.
  destruct (h !! Store.buf r) as [b|] eqn:E; [|done].
  by rewrite (Hu _ _ E).
Qed.

(** C8.  For [uniform_filter] and [median_filter], any size (the
    slice-by-slice case included) and either mode: every element of the
    input collection reads the same after the call as before it, and so does
    every buffer the store held before the call. *)
Theorem filters_leave_input_untouched self (size : arg) h (i : nat) (x : ndarray T) :
  fst (Store.read (Store.row (Store.values self) i) h) = Ok x ->
  let h1 := snd (Store.uniform_filter self size h) in
  let h2 := snd (Store.median_filter self size h) in
  fst (Store.read (Store.row (Store.values self) i) h1) = Ok x /\
  fst (Store.read (Store.row (Store.values self) i) h2) = Ok x /\
  Store.untouched h h1 /\ Store.untouched h h2.
Proof.
  intros Hx h1 h2.
  assert (Store.untouched h h1) as Hu1 by apply preserves_image_filter.
  assert (Store.untouched h h2) as Hu2 by apply preserves_image_filter.
  repeat split; [by apply (read_untouched _ h)..|done|done].
Qed.
End Frame.

(** ** Slicing keeps arrays well formed *)

Section Slicing.
Context {T : Type} `{Kernels T}.
Implicit Types (c : Images.t T) (d : list T).

Lemma length_concat_uniform {A} (m : nat) (l : list (list A)) :
  Forall (fun r => length r = m) l -> length (concat l) = length l * m.
Proof.
  induction 1 as [|r l Hr Hl IH]; [done|].
  cbn [concat length]. rewrite length_app, IH, Hr. lia.
Qed.

Lemma range_step_bound (n s i : nat) :
  1 <= s -> In i (range_step n s) -> i < n.
Proof.
  intros Hs. rewrite range_step_spec by done.
  intros [k [<- Hk%in_seq]]%in_map_iff.
  pose proof (Nat.Div0.mul_div_le (n + s - 1) s). nia.
Qed.

Lemma lookup_chunks (p n i : nat) d :
  i < n -> chunks p n d !! i = Some (take p (drop (i * p) d)).
Proof.
  intros Hi. unfold chunks.
  change (List.map ?f ?l) with (f <$> l).
  rewrite list_lookup_fmap, lookup_seq_lt by done. done.
Qed.

(** The blocks kept along one axis: one per index of the range. *)
Lemma kept_blocks (p n s : nat) d :
  1 <= s ->
  omap (fun i => chunks p n d !! i) (range_step n s)
  = List.map (fun i => take p (drop (i * p) d)) (range_step n s).
Proof.
  intros Hs. pose proof (range_step_bound n s) as Hb.
  induction (range_step n s) as [|i l IH]; [done|].
  cbn [omap list_omap List.map]. rewrite lookup_chunks by (apply Hb; [done|by left]).
  rewrite IH; [done|]. intros j Hs' Hj. apply Hb; [done|by right].
Qed.

(** Slicing gives as many entries as the sliced shape says. *)
Lemma length_take_strided (shp steps : list nat) d :
  Forall (fun s => 1 <= s) steps ->
  length d = prod shp ->
  length (take_strided shp steps d)
  = prod (zip_with (fun n s => length (range_step n s)) shp steps
            ++ drop (length steps) shp).
Proof.
  intros Hsteps. revert shp d.
  induction Hsteps as [|s steps Hs Hsteps IH]; intros shp d Hd.
  - destruct shp; cbn; by rewrite ?Hd.
  - destruct shp as [|n shp]; [by cbn; rewrite Hd|].
    cbn [take_strided zip_with length drop app]. rewrite prod_cons.
    rewrite kept_blocks by done.
    rewrite (length_concat_uniform
               (prod (zip_with (fun n s => length (range_step n s)) shp steps
                        ++ drop (length steps) shp))).
    + by rewrite !length_map.
    + rewrite List.Forall_map, List.Forall_map. apply List.Forall_forall.
      intros i Hi. apply IH. rewrite length_take, length_drop.
      rewrite prod_cons in Hd. pose proof (range_step_bound n s i Hs Hi). nia.
Qed.

(** On a 1-d array, [v[0:n:s]] is [v[0], v[s], v[2s], ...]. *)
Lemma take_strided_1d (n s : nat) d :
  1 <= s -> length d = n ->
  take_strided [n] [s] d = omap (fun i => d !! i) (range_step n s).
Proof.
  intros Hs Hd. cbn [take_strided]. rewrite kept_blocks by done.
  assert (Hb : forall i, In i (range_step n s) -> i < n)
    by (intros i; by apply range_step_bound).
  induction (range_step n s) as [|i l IH]; [done|].
  cbn [List.map concat omap list_omap].
  rewrite IH by (intros j Hj; apply Hb; by right).
  assert (i < length d) as Hi by (rewrite Hd; apply Hb; by left).
  destruct (lookup_lt_is_Some_2 d i Hi) as [x Hx]. rewrite Hx. cbn.
  change (prod []) with 1. rewrite Nat.mul_1_r.
  by rewrite (drop_S _ _ _ Hx).
Qed.

Lemma Forall_rows_wf c :
  Images.wf c ->
  Forall (fun v => shape v = Images.dims c /\ length (data v) = prod (Images.dims c))
         (Images.tordd c).
Proof.
  intros Hwf. unfold Images.tordd, rows. rewrite <- dims_tl.
  apply List.Forall_map.
  pose proof (Forall_length_chunks (prod (Images.dims c)) (len (Images.values c))
                (data (Images.values c))) as Hch.
  eapply Forall_impl; [apply Hch; apply wf_shape in Hwf; lia|].
  intros r Hr. by cbn.
Qed.

Lemma steps_positive (ns : list nat) (fs : list Z) :
  Forall (fun f => 0 < f)%Z fs ->
  Forall (fun s => 1 <= s) (zip_with (fun _ f => Z.to_nat f) ns fs).
Proof.
  intros Hpos. revert ns. induction Hpos as [|f fs Hf Hfs IH]; intros ns.
  - destruct ns; constructor.
  - destruct ns as [|n ns]; [constructor|].
    cbn [zip_with]. constructor; [lia|apply IH].
Qed.

(** X1.  For positive factors, one per axis, [subsample] of a well-formed
    collection returns a well-formed collection: it has an axis 0 and as many
    entries as its shape says. *)
Lemma subsample_wf c (factor : arg) c' :
  let fs := match factor with
            | Scalar f => replicate (length (Images.dims c)) f
            | Seq fs => fs
            end in
  Forall (fun f => 0 < f)%Z fs ->
  length (Images.dims c) <= length fs ->
  Images.wf c ->
  Images.subsample c factor = Ok c' ->
  Images.wf c'.
Proof.
  intros fs Hpos Hlen Hwf. rewrite subsample_ok by done. fold fs.
  intros [= <-]. split; [|done].
  unfold Np.wf. cbn [Images.values data shape]. rewrite prod_cons.
  set (steps := zip_with (fun _ f => Z.to_nat f) (Images.dims c) fs).
  rewrite (length_concat_uniform
             (prod (zip_with (fun (n : nat) f => Z.to_nat (Images.roundup (Z.of_nat n) f))
                             (Images.dims c) fs))).
  - rewrite !length_map. unfold Images.tordd. by rewrite length_rows.
  - rewrite !List.Forall_map.
    eapply Forall_impl; [apply (Forall_rows_wf c Hwf)|].
    intros v [Hshape Hlenv]. unfold getitem_slices. cbn [data].
    rewrite length_take_strided.
    + rewrite Hshape, drop_ge by (unfold steps; rewrite length_zip_with; lia).
      rewrite app_nil_r. unfold steps. by rewrite sliced_shape.
    + by apply steps_positive.
    + by rewrite Hshape.
Qed.

End Slicing.

Section ShortFactor.
Context {T : Type} `{Kernels T}.

Lemma mapM_first_failure {A B} (f : A -> result B) (g : A -> B) (l1 l2 : list A)
    (x : A) (e : exn) :
  (forall a, In a l1 -> f a = Ok (g a)) -> f x = Raise e ->
  mapM f (l1 ++ x :: l2) = Raise e.
Proof.
  intros Hl1 Hx. induction l1 as [|a l1 IH]; cbn [app mapM].
  - by rewrite Hx.
  - rewrite Hl1 by (by left). cbn [bind]. rewrite IH; [done|].
    intros b Hb. apply Hl1. by right.
Qed.

(** A factor sequence with fewer entries than the images have axes is not
    accepted: [factor[i]] raises. *)
Lemma subsample_short_factor (c : Images.t T) (fs : list Z) :
  Forall (fun f => 0 < f)%Z fs ->
  length fs < length (Images.dims c) ->
  Images.subsample c (Seq fs) = Raise IndexError.
Proof.
  intros Hpos Hlen. unfold Images.subsample.
  rewrite existsb_nonpositive by done.
  replace (length (Images.dims c))
    with (length fs + S (length (Images.dims c) - S (length fs))) at 1 by lia.
  rewrite seq_app, <- cons_seq.
  rewrite (mapM_first_failure _ (fun i => Z.to_nat (nth i fs 0%Z)) _ _ _ IndexError);
    [done| |].
  - intros i Hi%in_seq. unfold Images.at_.
    destruct (lookup_lt_is_Some_2 (Images.dims c) i) as [d ->]; [lia|].
    destruct (lookup_lt_is_Some_2 fs i) as [f Hf]; [lia|]. rewrite Hf. cbn.
    do 2 f_equal. symmetry. by apply nth_lookup_Some.
  - unfold Images.at_. cbn [Nat.add].
    destruct (lookup_lt_is_Some_2 (Images.dims c) (length fs)) as [d ->]; [lia|].
    cbn. by rewrite lookup_ge_None_2.
Qed.
End ShortFactor.

(** ** The series of a spatial position *)

Section Series.
Context {T : Type} `{Kernels T}.

Lemma omap_app {A B} (f : A -> option B) (l1 l2 : list A) :
  omap f (l1 ++ l2) = omap f l1 ++ omap f l2.
Proof.
  induction l1 as [|x l1 IH]; [done|].
  cbn. destruct (f x); cbn; by rewrite IH.
Qed.

Lemma length_series_at (p : nat) (elements : list (ndarray T)) :
  Forall (fun e => p < length (data e)) elements ->
  length (Spec.series_at p elements) = length elements.
Proof.
  induction 1 as [|e l He Hl IH]; [done|].
  unfold Spec.series_at in *. cbn.
  destruct (lookup_lt_is_Some_2 (data e) p He) as [x ->]. cbn. by rewrite IH.
Qed.

(** In the series of the 2N combined elements, the first N entries are the
    series of the originals and the last N the series of the blurred
    elements. *)
Lemma series_at_combined (p : nat) (elements blurred : list (ndarray T)) :
  Forall (fun e => p < length (data e)) elements ->
  let s := Spec.series_at p (elements ++ blurred) in
  take (length elements) s = Spec.series_at p elements /\
  drop (length elements) s = Spec.series_at p blurred.
Proof.
  intros Hel s. unfold s, Spec.series_at. rewrite omap_app.
  pose proof (length_series_at p elements Hel) as Hlen.
  unfold Spec.series_at in Hlen. rewrite <- Hlen.
  by rewrite take_app_length, drop_app_length.
Qed.

(** Per position, [localcorr] in the specification's wording correlates the
    series of the originals with the series of the blurred elements. *)
Lemma localcorr_pointwise (elements : list (ndarray T)) (dims : list nat) (n : Z) :
  Forall (fun e => length (data e) = prod dims) elements ->
  Spec.localcorr elements dims n
  = List.map (fun p =>
      m01 (corrcoef
             (Spec.series_at p elements)
             (Spec.series_at p
                (List.map (fun e => ndfilter uniform e
                             (Spec.window (length dims) (2 * n + 1)))
                          elements))))
      (seq 0 (prod dims)).
Proof.
  intros Hel. unfold Spec.localcorr. apply map_ext_in. intros p Hp%in_seq.
  destruct (series_at_combined p elements
              (List.map (fun e => ndfilter uniform e
                           (Spec.window (length dims) (2 * n + 1))) elements))
    as [-> ->]; [|done].
  eapply Forall_impl; [exact Hel|]. intros e He. cbn in He. lia.
Qed.

End Series.

(** ** The store model at work *)

(** Without the copy the write would land in the collection: the loop of
    the slice-by-slice filter, run on the row [a[0]] itself, changes the
    buffer of [a]. *)
Lemma write_through_row_reaches_collection :
  let a := Store.values (Demo.cubes_ref local) in
  let h' := snd (Store.filter_loop (ndfilter uniform) (Seq [1; 1]%Z) (seq 0 3)
                   (Store.row a 0) Demo.cubes_heap) in
  fst (Store.read (Store.row a 0) Demo.cubes_heap)
    = Ok (NdArray [2; 2; 3] (List.map Z.of_nat (seq 0 12))) /\
  fst (Store.read (Store.row a 0) h')
    = Ok (NdArray [2; 2; 3] (List.map (fun n => (2 * Z.of_nat n)%Z) (seq 0 12))).
Proof. split; reflexivity. Qed.

(** The store model and the value model agree on the slice-by-slice filter
    of the sample volumes, in both modes. *)
Lemma store_filter_agrees_at_cubes :
  Forall (fun m =>
    let out := Store.uniform_filter (Demo.cubes_ref m) (Seq [1; 1; 0]%Z) Demo.cubes_heap in
    (let* r := fst out in Store.load r (snd out))
    = Images.uniform_filter (Images.Make Demo.cubes m) (Seq [1; 1; 0]%Z))
    [local; spark].
Proof. repeat constructor. Qed.

(** ** The filter on the store is the filter on values *)

Section Refinement.
Context {T : Type} `{Kernels T}.
Implicit Types (h : Store.heap T) (x y p : ndarray T) (self : Store.t).

Lemma ndarray_eta x : NdArray (shape x) (data x) = x.
Proof. by destruct x. Qed.

(** A window that covers its whole buffer reads the buffer. *)
Lemma read_whole (l : nat) (w : bool) x h :
  Np.wf x -> h !! l = Some (data x) ->
  Store.read (Store.Ref l 0 (shape x) w) h = (Ok x, h).
Proof.
  intros Hwf Hl. unfold Store.read. cbn [Store.buf Store.off Store.rshape].
  rewrite Hl, drop_0, take_ge by (unfold Np.wf in Hwf; lia).
  by rewrite ndarray_eta.
Qed.

Lemma write_whole (l : nat) x (d : list T) h :
  h !! l = Some (data x) -> length d = length (data x) ->
  Store.write (Store.Ref l 0 (shape x) true) d h = (Ok (), <[l := d]> h).
Proof.
  intros Hl Hd. unfold Store.write. cbn [Store.buf Store.off Store.writeable].
  rewrite Hl, take_0, drop_ge by lia. by rewrite app_nil_r.
Qed.

Lemma length_omap_lookup {A} (z : nat) (l : list (list A)) :
  Forall (fun r => z < length r) l -> length (omap (fun r => r !! z) l) = length l.
Proof.
  induction 1 as [|r l Hr Hl IH]; [done|].
  cbn [omap list_omap]. destruct (lookup_lt_is_Some_2 r z Hr) as [v ->].
  cbn. by rewrite IH.
Qed.

Lemma length_get_plane (z d0 d1 d2 : nat) x :
  shape x = [d0; d1; d2] -> Np.wf x -> z < d2 ->
  Np.wf (get_plane z x) /\ shape (get_plane z x) = [d0; d1].
Proof.
  intros Hs Hwf Hz. unfold get_plane. rewrite Hs. split; [|done].
  unfold Np.wf in *. cbn [data shape]. rewrite Hs in Hwf.
  change (prod [d0; d1]) with (d0 * (d1 * 1)).
  change (prod [d0; d1; d2]) with (d0 * (d1 * (d2 * 1))) in Hwf.
  rewrite length_omap_lookup, length_chunks; [lia|].
  eapply Forall_impl; [apply (Forall_length_chunks d2); lia|].
  intros r Hr. cbn in Hr. lia.
Qed.

Lemma wf_set_plane (z d0 d1 d2 : nat) p x :
  shape x = [d0; d1; d2] -> Np.wf x ->
  length (data p) = d0 * d1 ->
  Np.wf (set_plane z p x) /\ shape (set_plane z p x) = shape x.
Proof.
  intros Hs Hwf Hp. unfold set_plane. rewrite Hs. split; [|done].
  unfold Np.wf in *. cbn [data shape]. rewrite Hs in Hwf.
  change (prod [d0; d1; d2]) with (d0 * (d1 * (d2 * 1))) in *.
  rewrite (length_concat_uniform d2).
  - rewrite length_zip_with, length_chunks. lia.
  - assert (Hch : Forall (fun r => length r = d2) (chunks d2 (d0 * d1) (data x)))
      by (apply Forall_length_chunks; lia).
    revert Hch. generalize (chunks d2 (d0 * d1) (data x)). generalize (data p).
    intros vs l Hl. revert vs. induction Hl as [|r l Hr Hl IH]; intros vs; [constructor|].
    destruct vs as [|v vs]; [constructor|]. cbn [zip_with].
    constructor; [by rewrite length_insert|apply IH].
Qed.
(** The loop on an array that owns its buffer computes [filter_planes]. *)
Lemma filter_loop_refines (func : ndarray T -> arg -> ndarray T) (size2 : arg)
    (zs : list nat) (l0 d0 d1 d2 : nat) x h :
  (forall a s, Np.wf a -> Np.wf (func a s)) ->
  shape x = [d0; d1; d2] -> Np.wf x -> Forall (fun z => z < d2) zs ->
  h !! l0 = Some (data x) ->
  match Store.filter_loop func size2 zs (Store.Ref l0 0 (shape x) true) h with
  | (Ok _, h') =>
      exists y, Images.filter_planes func size2 zs x = Ok y /\
                h' !! l0 = Some (data y) /\ Np.wf y /\ shape y = shape x
  | (Raise e, _) => Images.filter_planes func size2 zs x = Raise e
  end.
Proof.
  intros Hk Hs Hwf Hzs. revert x h Hs Hwf.
  induction Hzs as [|z zs Hz Hzs IH]; intros x h Hs Hwf Hl.
  - cbn. exists x. by rewrite Hl.
  - cbn [Store.filter_loop Images.filter_planes].
    unfold Store.bindM at 1. rewrite read_whole by done.
    unfold Store.bindM at 1, Store.lift.
    destruct (length_get_plane z d0 d1 d2 x Hs Hwf Hz) as [Hpwf Hps].
    set (p := func (get_plane z x) size2) in *.
    unfold Images.assign_plane. destruct (bool_decide_reflect (shape p = take 2 (shape x))) as [Hp|Hp]; [|done].
    cbn [bind].
    assert (Hlp : length (data p) = d0 * d1).
    { pose proof (Hk _ size2 Hpwf) as Hpw. fold p in Hpw. unfold Np.wf in Hpw.
      rewrite Hpw, Hp, Hs. cbn. lia. }
    destruct (wf_set_plane z d0 d1 d2 p x Hs Hwf Hlp) as [Hwf' Hs'].
    unfold Store.bindM at 1.
    rewrite write_whole by (done || (unfold Np.wf in *; by rewrite Hwf', Hwf, Hs')).
    rewrite <- Hs'. apply IH; [by rewrite Hs'|done|].
    apply list_lookup_insert_eq. by eapply lookup_lt_Some.
Qed.

Lemma lookup_rows (a : ndarray T) (i : nat) :
  i < len a ->
  rows a !! i
  = Some (NdArray (tl (shape a))
            (take (prod (tl (shape a))) (drop (i * prod (tl (shape a))) (data a)))).
Proof.
  intros Hi. unfold rows.
  change (List.map ?f ?l) with (f <$> l).
  by rewrite list_lookup_fmap, lookup_chunks.
Qed.

Lemma lookup_rows_lt (a : ndarray T) (i : nat) x : rows a !! i = Some x -> i < len a.
Proof. intros Hx%lookup_lt_Some. by rewrite length_rows in Hx. Qed.

(** Reading row [i] through the collection's array gives image [i], on
    every store that still holds the collection. *)
Lemma read_row self h0 h (c : Images.t T) (i : nat) x :
  Store.load self h0 = Ok c -> Store.untouched h0 h ->
  Images.tordd c !! i = Some x ->
  Store.read (Store.row (Store.values self) i) h = (Ok x, h).
Proof.
  unfold Store.load, Store.read, Images.tordd. intros Hload Hu Hx.
  pose proof (lookup_rows_lt _ _ _ Hx) as Hi.
  rewrite lookup_rows in Hx by done. injection Hx as <-.
  destruct (h0 !! Store.buf (Store.values self)) as [b|] eqn:Hb; [|done].
  cbn in Hload. injection Hload as <-.
  cbn [Store.row Store.buf Store.off Store.rshape].
  rewrite (Hu _ _ Hb). cbn [Images.values shape data].
  do 3 f_equal.
  set (P := prod (tl (Store.rshape (Store.values self)))).
  unfold len in Hi. cbn [Images.values shape] in Hi.
  assert (HP : prod (Store.rshape (Store.values self))
               = hd 0 (Store.rshape (Store.values self)) * P).
  { unfold P. destruct (Store.rshape (Store.values self)); [cbn in Hi; lia|done]. }
  rewrite HP. symmetry.
  rewrite (take_drop_commute (take _ _)), take_take, Nat.min_l by nia.
  by rewrite <- take_drop_commute, drop_drop.
Qed.

Lemma rows_lookup_wf (c : Images.t T) (i : nat) x :
  Images.wf c -> Images.tordd c !! i = Some x ->
  Np.wf x /\ shape x = Images.dims c.
Proof.
  intros Hwf Hx. pose proof (Forall_rows_wf c Hwf) as Hrows.
  destruct (Forall_lookup_1 _ _ _ _ Hrows Hx) as [Hs Hl].
  split; [|done]. unfold Np.wf. by rewrite Hl, Hs.
Qed.

(** One image of the slice-by-slice filter, then reading the result: the
    value is the one [filter_planes] computes from the image. *)
Lemma slicewise_step_refines self h0 h (c : Images.t T)
    (func : ndarray T -> arg -> ndarray T) (size2 : arg) (d0 d1 d2 i : nat) x :
  (forall a s, Np.wf a -> Np.wf (func a s)) ->
  Store.load self h0 = Ok c -> Images.wf c -> Images.dims c = [d0; d1; d2] ->
  Store.untouched h0 h -> Images.tordd c !! i = Some x ->
  match Store.bindM (Store.record self i)
          (fun r => Store.bindM (Store.filter_slicewise (Store.mode self) func size2 d2 r)
                                Store.read) h with
  | (Ok v, _) => Images.filter_planes func size2 (seq 0 d2) x = Ok v
  | (Raise e, _) => Images.filter_planes func size2 (seq 0 d2) x = Raise e
  end.
Proof.
  intros Hk Hload Hwf Hdims Hu Hx.
  destruct (rows_lookup_wf c i x Hwf Hx) as [Hxwf Hxs].
  assert (Hloop :
    match Store.filter_loop func size2 (seq 0 d2)
            (Store.Ref (length h) 0 (shape x) true) (h ++ [data x]) with
    | (Ok _, h2) =>
        match Store.read (Store.Ref (length h) 0 (shape x) true) h2 with
        | (Ok v, _) => Images.filter_planes func size2 (seq 0 d2) x = Ok v
        | (Raise e, _) => Images.filter_planes func size2 (seq 0 d2) x = Raise e
        end
    | (Raise e, _) => Images.filter_planes func size2 (seq 0 d2) x = Raise e
    end).
  { pose proof (filter_loop_refines func size2 (seq 0 d2) (length h) d0 d1 d2 x
                  (h ++ [data x]) Hk) as Hl.
    destruct (Store.filter_loop _ _ _ _ _) as [[u|e] h2].
    - destruct Hl as (y & Hy & Hh2 & Hywf & Hys).
      + by rewrite Hxs.
      + done.
      + apply List.Forall_forall. intros z Hz%in_seq. lia.
      + by rewrite list_lookup_middle.
      + rewrite <- Hys, read_whole by done. done.
    - apply Hl; [by rewrite Hxs|done| |by rewrite list_lookup_middle].
      apply List.Forall_forall. intros z Hz%in_seq. lia. }
  unfold Store.record, Store.filter_slicewise. destruct (Store.mode self).
  - unfold Store.bindM, Store.ret, Store.copy, Store.bindM, Store.new.
    rewrite (read_row self h0 h c i x) by done.
    by destruct (Store.filter_loop _ _ _ _ _) as [[u|e] h2].
  - unfold Store.bindM, Store.ret, Store.new, Store.setflags.
    rewrite (read_row self h0 h c i x) by done.
    cbn [Store.buf Store.off Store.rshape].
    by destruct (Store.filter_loop _ _ _ _ _) as [[u|e] h2].
Qed.

(** One image of the plain filter, then reading the result. *)
Lemma whole_step_refines self h0 h (c : Images.t T)
    (func : ndarray T -> arg -> ndarray T) (size : arg) (i : nat) x :
  (forall a s, Np.wf a -> Np.wf (func a s)) ->
  Store.load self h0 = Ok c -> Images.wf c ->
  Store.untouched h0 h -> Images.tordd c !! i = Some x ->
  fst (Store.bindM (Store.record self i)
         (fun r => Store.bindM (Store.filter_whole func size r) Store.read) h)
  = Ok (func x size).
Proof.
  intros Hk Hload Hwf Hu Hx.
  destruct (rows_lookup_wf c i x Hwf Hx) as [Hxwf Hxs].
  unfold Store.record, Store.filter_whole. destruct (Store.mode self).
  - unfold Store.bindM, Store.ret, Store.new.
    rewrite (read_row self h0 h c i x) by done.
    rewrite read_whole; [done|by apply Hk|by rewrite list_lookup_middle].
  - unfold Store.bindM, Store.ret, Store.new.
    rewrite (read_row self h0 h c i x) by done.
    rewrite read_whole; [|done|by rewrite list_lookup_middle].
    rewrite read_whole; [done|by apply Hk|].
    by rewrite list_lookup_middle by (rewrite length_app; cbn; lia).
Qed.

(** If every step computes [func'] of its image, the loop over the images
    computes [func'] of all of them, first failure first. *)
Lemma map_records_refines self h0 (c : Images.t T)
    (func : Store.ref -> Store.M Store.ref) (func' : ndarray T -> result (ndarray T)) :
  (forall i, Store.preserves (T := T) (Store.bindM (Store.record self i) func)) ->
  (forall i x h, Store.untouched h0 h -> Images.tordd c !! i = Some x ->
     match Store.bindM (Store.record self i)
             (fun r => Store.bindM (func r) Store.read) h with
     | (Ok v, _) => func' x = Ok v
     | (Raise e, _) => func' x = Raise e
     end) ->
  forall ids xs h,
    Store.untouched h0 h ->
    Forall2 (fun i x => Images.tordd c !! i = Some x) ids xs ->
    fst (Store.map_records self func ids h) = mapM func' xs.
Proof.
  intros Hpres Hstep ids xs h Hu Hids. revert h Hu.
  induction Hids as [|i x ids xs Hx Hids IH]; intros h Hu; [done|].
  cbn [Store.map_records mapM].
  specialize (Hstep i x h Hu Hx). specialize (Hpres i h).
  unfold Store.bindM in *.
  destruct (Store.record self i h) as [[r|e] h1]; [|by rewrite Hstep].
  destruct (func r h1) as [[y|e] h2]; [|by rewrite Hstep].
  assert (Hu2 : Store.untouched h0 h2) by (eapply untouched_trans; eauto).
  pose proof (preserves_read (T := T) y h2) as Hr.
  destruct (Store.read y h2) as [[v|e] h3] eqn:Hread; [|by rewrite Hstep].
  rewrite Hstep. cbn [bind].
  assert (Hu3 : Store.untouched h0 h3) by (eapply untouched_trans; eauto).
  specialize (IH h3 Hu3).
  destruct (Store.map_records self func ids h3) as [[vs|e] h4]; cbn [fst] in IH;
    by rewrite <- IH.
Qed.

Lemma filter_planes_wf (func : ndarray T -> arg -> ndarray T) (size2 : arg)
    (zs : list nat) (d0 d1 d2 : nat) x y :
  (forall a s, Np.wf a -> Np.wf (func a s)) ->
  shape x = [d0; d1; d2] -> Np.wf x -> Forall (fun z => z < d2) zs ->
  Images.filter_planes func size2 zs x = Ok y ->
  Np.wf y /\ shape y = shape x.
Proof.
  intros Hk Hs Hwf Hzs. revert x Hs Hwf.
  induction Hzs as [|z zs Hz Hzs IH]; intros x Hs Hwf; cbn [Images.filter_planes].
  - by intros [= <-].
  - destruct (length_get_plane z d0 d1 d2 x Hs Hwf Hz) as [Hpwf Hps].
    set (p := func (get_plane z x) size2) in *.
    unfold Images.assign_plane.
    destruct (bool_decide_reflect (shape p = take 2 (shape x))) as [Hp|Hp]; [|done].
    cbn [bind].
    assert (Hlp : length (data p) = d0 * d1).
    { pose proof (Hk _ size2 Hpwf) as Hpw. fold p in Hpw. unfold Np.wf in Hpw.
      rewrite Hpw, Hp, Hs. cbn. lia. }
    destruct (wf_set_plane z d0 d1 d2 p x Hs Hwf Hlp) as [Hwf' Hs'].
    intros Hy. destruct (IH _ ltac:(by rewrite Hs') Hwf' Hy) as [Hywf Hys].
    split; [done|]. by rewrite Hys.
Qed.

Lemma Forall2_seq_lookup {A} (l : list A) :
  Forall2 (fun i e => l !! i = Some e) (seq 0 (length l)) l.
Proof.
  apply Forall2_same_length_lookup_2; [by rewrite length_seq|].
  intros i j e Hj Hx. apply lookup_seq in Hj as [-> _]. done.
Qed.

(** [map] on the store against [map] on the value, for a step that
    computes [func'] and returns arrays of the declared shape. *)
Lemma map_refines self h (c : Images.t T)
    (func : Store.ref -> Store.M Store.ref) (func' : ndarray T -> result (ndarray T))
    (dims : list nat) :
  Store.load self h = Ok c ->
  (forall i, Store.preserves (T := T) (Store.bindM (Store.record self i) func)) ->
  (forall i x h', Store.untouched h h' -> Images.tordd c !! i = Some x ->
     match Store.bindM (Store.record self i)
             (fun r => Store.bindM (func r) Store.read) h' with
     | (Ok v, _) => func' x = Ok v
     | (Raise e, _) => func' x = Raise e
     end) ->
  (forall x v, In x (Images.tordd c) -> func' x = Ok v -> length (data v) = prod dims) ->
  let out := Store.map self func dims h in
  (let* r := fst out in Store.load r (snd out)) = Images.map c func' (Some dims).
Proof.
  intros Hload Hpres Hstep Hlen out. unfold out, Store.map, Store._map, Images.map, Images._map.
  assert (Hn : hd 0 (Store.rshape (Store.values self)) = len (Images.values c)
               /\ Store.mode self = Images.mode c).
  { unfold Store.load, Store.read in Hload.
    destruct (h !! Store.buf (Store.values self)); [|done].
    cbn in Hload. by injection Hload as <-. }
  destruct Hn as [Hn Hm]. rewrite Hn, Hm.
  pose proof (map_records_refines self h c func func' Hpres Hstep
                (seq 0 (len (Images.values c))) (Images.tordd c) h
                (untouched_refl h)) as Hrec.
  assert (Hids : Forall2 (fun i e => Images.tordd c !! i = Some e)
                   (seq 0 (len (Images.values c))) (Images.tordd c)).
  { unfold Images.tordd at 2. rewrite <- (length_rows (Images.values c)).
    apply Forall2_seq_lookup. }
  specialize (Hrec Hids).
  unfold Store.bindM.
  destruct (Store.map_records self func (seq 0 (len (Images.values c))) h)
    as [[outs|e] h1]; cbn [fst] in Hrec.
  2: { by rewrite <- Hrec. }
  rewrite <- Hrec.
  cbn [bind]. unfold Store.new, Store.ret, Store.load. cbn [fst snd Store.values Store.mode].
  set (a := NdArray (len (Images.values c) :: dims) (concat (List.map data outs))).
  change (Store.Ref (length h1) 0 (len (Images.values c) :: dims) true)
    with (Store.Ref (length h1) 0 (shape a) true).
  cbn [bind Store.values Store.mode].
  rewrite read_whole; [done| |by rewrite list_lookup_middle].
  unfold Np.wf, a. cbn [data shape]. rewrite prod_cons.
  rewrite (length_concat_uniform (prod dims)).
  - rewrite length_map. symmetry in Hrec. apply mapM_length in Hrec.
    unfold Images.tordd in Hrec. rewrite length_rows in Hrec. lia.
  - rewrite List.Forall_map. symmetry in Hrec.
    clear -Hrec Hlen. revert outs Hrec.
    induction (Images.tordd c) as [|x xs IH]; intros outs Hrec.
    + injection Hrec as <-. constructor.
    + cbn in Hrec. destruct (func' x) as [v|] eqn:Hv; [|done]. cbn in Hrec.
      destruct (mapM func' xs) as [vs|] eqn:Hvs; [|done]. cbn in Hrec.
      injection Hrec as <-. constructor.
      * eapply Hlen; [by left|done].
      * apply IH; [|done]. intros y w Hy. apply Hlen. by right.
Qed.

Lemma load_dims self h (c : Images.t T) :
  Store.load self h = Ok c ->
  Store.dims self = Images.dims c /\ Store.mode self = Images.mode c.
Proof.
  unfold Store.load, Store.read. intros Hload.
  destruct (h !! Store.buf (Store.values self)); [|done].
  cbn in Hload. by injection Hload as <-.
Qed.

(** X2.  The filter on the store (which copies a local image before it
    writes the planes, and writes into the record of a distributed one)
    computes the collection the filter on values computes, and fails when it
    fails: the two models are one function, for kernels that return
    well-formed arrays of the shape they are given. *)
Theorem image_filter_refines self (filter : filter_name) (size : arg) h (c : Images.t T) :
  (forall name a s, Np.wf a ->
     Np.wf (ndfilter name a s) /\ shape (ndfilter name a s) = shape a) ->
  Store.load self h = Ok c -> Images.wf c ->
  let out := Store._image_filter self filter size h in
  (let* r := fst out in Store.load r (snd out)) = Images._image_filter c filter size.
Proof.
  intros Hk Hload Hwf out. unfold out, Store._image_filter, Images._image_filter.
  destruct (load_dims self h c Hload) as [Hd Hm]. rewrite Hd.
  set (size' := match size with
                | Scalar s => if length (Images.dims c) =? 3 then Seq [s; s; s] else size
                | Seq _ => size
                end).
  unfold Store.bindM at 1, Store.lift at 1.
  destruct (length (Images.dims c) =? 3) eqn:E3.
  2: { cbn [bind]. apply map_refines; [done| | |].
       - intros i. apply whole_step_preserves.
       - intros i x h' Hu Hx.
         pose proof (whole_step_refines self h h' c (ndfilter filter) size' i x
                       (fun a s Ha => proj1 (Hk filter a s Ha)) Hload Hwf Hu Hx) as Hw.
         destruct (Store.bindM _ _ h') as [[v|e] h2]; cbn [fst] in Hw; [by rewrite Hw|done].
       - intros x v Hx [= <-].
         apply list_elem_of_In, list_elem_of_lookup in Hx as [i Hi].
         destruct (rows_lookup_wf c i x Hwf Hi) as [Hxwf Hxs].
         destruct (Hk filter x size' Hxwf) as [Hvwf Hvs].
         unfold Np.wf in Hvwf. by rewrite Hvwf, Hvs, Hxs. }
  destruct (match size' with
            | Scalar _ => Raise TypeError
            | Seq l => let* s2 := getitem l 2 in Ok (s2 =? 0)%Z
            end) as [[|]|e]; cbn [bind fst]; [| |done].
  - (* slice by slice *)
    apply Nat.eqb_eq in E3.
    destruct (Images.dims c) as [|d0 [|d1 [|d2 [|? ?]]]] eqn:Edims; try done.
    cbn [Images.at_ lookup list_lookup]. unfold Store.bindM at 1, Store.lift at 1.
    cbn [bind]. rewrite <- Edims.
    set (size2 := match size' with Seq l => Seq (take 2 l) | Scalar _ => size' end).
    apply map_refines; [done| | |].
    + intros i. apply slicewise_step_preserves.
    + intros i x h' Hu Hx.
      apply (slicewise_step_refines self h h' c (ndfilter filter) size2 d0 d1 d2 i x);
        [|done..]. intros a s Ha. apply (Hk filter a s Ha).
    + intros x v Hx Hv.
      apply list_elem_of_In, list_elem_of_lookup in Hx as [i Hi].
      destruct (rows_lookup_wf c i x Hwf Hi) as [Hxwf Hxs].
      destruct (filter_planes_wf (ndfilter filter) size2 (seq 0 d2) d0 d1 d2 x v) as [Hvwf Hvs];
        [intros a s Ha; apply (Hk filter a s Ha)|by rewrite Hxs, Edims|done| |done|].
      * apply List.Forall_forall. intros z Hz%in_seq. lia.
      * unfold Np.wf in Hvwf. by rewrite Hvwf, Hvs, Hxs.
  - (* the plain filter *)
    apply map_refines; [done| | |].
    + intros i. apply whole_step_preserves.
    + intros i x h' Hu Hx.
      pose proof (whole_step_refines self h h' c (ndfilter filter) size' i x
                    (fun a s Ha => proj1 (Hk filter a s Ha)) Hload Hwf Hu Hx) as Hw.
      destruct (Store.bindM _ _ h') as [[v|e] h2]; cbn [fst] in Hw; [by rewrite Hw|done].
    + intros x v Hx [= <-].
      apply list_elem_of_In, list_elem_of_lookup in Hx as [i Hi].
      destruct (rows_lookup_wf c i x Hwf Hi) as [Hxwf Hxs].
      destruct (Hk filter x size' Hxwf) as [Hvwf Hvs].
      unfold Np.wf in Hvwf. by rewrite Hvwf, Hvs, Hxs.
Qed.

End Refinement.

(** ** [sample] on a local collection *)

(** *** float64 products stay in range *)

Lemma float64_ext (x y : Q) : (x == y)%Q -> float64 x = float64 y.
Proof. intros Hxy. unfold float64. by rewrite (Qred_complete _ _ Hxy). Qed.

Lemma two_pow_pos (e : Z) : (0 < 2 ^ e)%Q.
Proof. by apply Qpower_0_lt. Qed.

Lemma Qabs_nonneg_eq (x : Q) : (0 <= x)%Q -> Qabs x = x.
Proof.
  destruct x as [n d]. unfold Qle, Qabs. cbn. intros Hn.
  f_equal. apply Z.abs_eq. lia.
Qed.

(** Rounding moves a number up by at most one half. *)
Lemma round_half_even_near (q : Q) :
  (inject_Z (round_half_even q) - q <= 1 # 2)%Q /\
  ((0 <= q)%Q -> (0 <= round_half_even q)%Z).
Proof.
  unfold round_half_even.
  pose proof (Qfloor_le q) as Hlo. pose proof (Qlt_floor q) as Hhi.
  rewrite inject_Z_plus in Hhi. change (inject_Z 1) with 1%Q in Hhi.
  assert (Hf0 : (0 <= q)%Q -> (0 <= Qfloor q)%Z).
  { intros Hq. change 0%Z with (Qfloor 0). by apply Qfloor_resp_le. }
  destruct (q - inject_Z (Qfloor q) ?= 1 # 2)%Q eqn:E.
  - apply Qeq_alt in E. destruct (Z.even (Qfloor q)).
    + split; [lra|]. intros Hq. by apply Hf0.
    + rewrite inject_Z_plus. change (inject_Z 1) with 1%Q. split; [lra|].
      intros Hq. apply Hf0 in Hq. lia.
  - split; [lra|]. intros Hq. by apply Hf0.
  - apply Qgt_alt in E. rewrite inject_Z_plus. change (inject_Z 1) with 1%Q.
    split; [lra|]. intros Hq. apply Hf0 in Hq. lia.
Qed.

Lemma round_half_even_int (q : Q) (z : Z) :
  (q == inject_Z z)%Q -> round_half_even q = z.
Proof.
  intros Hq. unfold round_half_even.
  rewrite (Qfloor_comp _ _ Hq), Qfloor_Z.
  assert (E : (q - inject_Z z ?= 1 # 2)%Q = Lt).
  { apply (proj1 (Qlt_alt _ _)). lra. }
  by rewrite E.
Qed.

Lemma inject_Z_pow2 (n : Z) : (0 <= n)%Z -> (inject_Z (2 ^ n) == 2 ^ n)%Q.
Proof. intros Hn. by rewrite Zpower_Qpower. Qed.

(** [2 ^ floor_log2 x] does not exceed [x]. *)
Lemma floor_log2_le (x : Q) : (0 < x)%Q -> (2 ^ floor_log2 x <= x)%Q.
Proof.
  intros Hx. unfold floor_log2.
  set (la := Z.log2 (Qnum x)). set (lb := Z.log2 (Z.pos (Qden x))).
  destruct (Qle_bool (2 ^ (la - lb)) x) eqn:E.
  - by apply Qle_bool_iff.
  - assert (Hn : (0 < Qnum x)%Z).
    { destruct x as [n d]. unfold Qlt in Hx. cbn in *. lia. }
    destruct (Z.log2_spec (Qnum x) Hn) as [Ha _].
    destruct (Z.log2_spec (Z.pos (Qden x)) eq_refl) as [_ Hb].
    fold la in Ha. fold lb in Hb.
    assert (Hla : (0 <= la)%Z) by apply Z.log2_nonneg.
    assert (Hlb : (0 <= lb)%Z) by apply Z.log2_nonneg.
    replace (la - lb - 1)%Z with (la - Z.succ lb)%Z by lia.
    rewrite Qpower_minus by discriminate.
    rewrite <- !inject_Z_pow2 by lia.
    apply Qle_shift_div_r.
    + change 0%Q with (inject_Z 0). rewrite <- Zlt_Qlt. lia.
    + assert (Hx' : (x == inject_Z (Qnum x) / inject_Z (Z.pos (Qden x)))%Q)
        by (destruct x; apply Qmake_Qdiv).
      rewrite Hx'.
      rewrite Zle_Qle in Ha. rewrite Zlt_Qlt in Hb.
      assert (Hd : (0 < inject_Z (Z.pos (Qden x)))%Q).
      { change 0%Q with (inject_Z 0). by rewrite <- Zlt_Qlt. }
      set (A := inject_Z (Qnum x)) in *. set (B := inject_Z (Z.pos (Qden x))) in *.
      set (PA := inject_Z (2 ^ la)) in *. set (PB := inject_Z (2 ^ Z.succ lb)) in *.
      assert (H1 : (A / B * PB == A * (PB / B))%Q) by (field; lra).
      rewrite H1.
      assert (H2 : (1 <= PB / B)%Q) by (apply Qle_shift_div_l; lra).
      assert (H0 : (0 <= PA)%Q).
      { unfold PA. change 0%Q with (inject_Z 0). rewrite <- Zle_Qle. lia. }
      nra.
Qed.

Lemma floor_log2_int_bounds (n : Z) :
  (0 < n)%Z ->
  (Z.log2 n - 1 <= floor_log2 (inject_Z n) <= Z.log2 n)%Z.
Proof.
  intros Hn. unfold floor_log2. cbn [Qnum Qden inject_Z].
  change (Z.log2 1) with 0%Z. rewrite Z.sub_0_r.
  destruct (Qle_bool _ _); lia.
Qed.

(** [int] of a number of [[0, n)] is an index of [range(n)]. *)
Lemma int_bound (y : Q) (n : Z) :
  (0 <= y)%Q -> (y < inject_Z n)%Q -> (0 <= int y < n)%Z.
Proof.
  destruct y as [a d]. unfold Qle, Qlt, int. cbn. intros Ha Hlt.
  rewrite Z.mul_1_r in *. split.
  - apply Z.quot_pos; lia.
  - apply Z.quot_lt_upper_bound; lia.
Qed.

(** A number of [[0, n (1 - 2^-53)]] is rounded to a float64 below [n]:
    were it rounded up to [n], [n] would be within half a unit in the last
    place of it, and so no larger than the power of two below it. *)
Lemma float64_below (x : Q) (n : Z) :
  (1 <= n)%Z ->
  (0 <= x)%Q -> (x <= inject_Z n * (1 - 2 ^ (-53)))%Q ->
  (0 <= float64 x)%Q /\ (float64 x < inject_Z n)%Q.
Proof.
  intros Hn Hx0 Hxn.
  assert (HN : (1 <= inject_Z n)%Q).
  { change 1%Q with (inject_Z 1). by rewrite <- Zle_Qle. }
  assert (Heps : (0 < 2 ^ (-53))%Q) by apply two_pow_pos.
  unfold float64.
  pose proof (Qred_correct x) as Hred.
  set (x' := Qred x) in *.
  destruct (Qeq_bool x' 0) eqn:E0; [split; lra|].
  apply Qeq_bool_neq in E0.
  assert (Hpos : (0 < x')%Q) by lra.
  rewrite (Qabs_nonneg_eq x') by lra.
  pose proof (floor_log2_le x' Hpos) as HE.
  set (E := floor_log2 x') in *.
  set (e := Z.max (E - 52) (-1074)).
  pose proof (two_pow_pos e) as Hp.
  destruct (round_half_even_near (x' / 2 ^ e)) as [Hnear Hm0].
  set (m := round_half_even (x' / 2 ^ e)) in *.
  rewrite Qred_correct.
  assert (Hq : (0 <= x' / 2 ^ e)%Q) by (apply Qle_shift_div_l; lra).
  apply Hm0 in Hq. rewrite Zle_Qle in Hq. change (inject_Z 0) with 0%Q in Hq.
  split; [nra|].
  assert (Hmp : (inject_Z m * 2 ^ e - x' <= (1 # 2) * 2 ^ e)%Q).
  { assert (Hdiv : (x' / 2 ^ e * 2 ^ e == x')%Q) by (field; lra).
    set (p := (2 ^ e)%Q) in *. set (q := (x' / p)%Q) in *. nra. }
  apply Qnot_le_lt. intros Hge.
  assert (Hcap : (inject_Z n <= 2 ^ e * 2 ^ 52)%Q).
  { assert (H53 : ((2 ^ (-53)) * 2 ^ 53 == 1)%Q) by reflexivity.
    assert (H5253 : (2 ^ 53 == 2 * 2 ^ 52)%Q) by reflexivity.
    set (p := (2 ^ e)%Q) in *. set (u := (2 ^ (-53))%Q) in *.
    set (a := (2 ^ 53)%Q) in *. set (b := (2 ^ 52)%Q) in *.
    assert (Hnu : (inject_Z n * u <= (1 # 2) * p)%Q) by lra.
    assert (Hnu' : (inject_Z n * u * a <= (1 # 2) * p * a)%Q).
    { apply Qmult_le_compat_r; [exact Hnu|]. unfold a. discriminate. }
    assert (Hl : (inject_Z n * u * a == inject_Z n)%Q).
    { rewrite <- Qmult_assoc, H53. ring. }
    rewrite Hl in Hnu'. rewrite H5253 in Hnu'.
    assert (Hr : ((1 # 2) * p * (2 * b) == p * b)%Q) by ring.
    rewrite Hr in Hnu'. exact Hnu'. }
  destruct (Z.max_spec (E - 52) (-1074)) as [[Hlt He]|[Hle He]]; fold e in He.
  - rewrite He in Hcap.
    assert (Hsmall : (2 ^ (-1074) * 2 ^ 52 < 1)%Q) by reflexivity.
    lra.
  - assert (HEp : (2 ^ e * 2 ^ 52 == 2 ^ E)%Q).
    { rewrite He, <- Qpower_plus by discriminate.
      by replace (E - 52 + 52)%Z with E by lia. }
    rewrite HEp in Hcap.
    assert (Hxlt : (x' < inject_Z n)%Q) by nra.
    lra.
Qed.

(** An int below [2 ^ 53] is a float64. *)
Lemma float64_exact_int (n : Z) :
  (0 <= n < 2 ^ 53)%Z -> (float64 (inject_Z n) == inject_Z n)%Q.
Proof.
  intros [Hn0 Hn]. unfold float64.
  assert (Hred : Qred (inject_Z n) = inject_Z n).
  { unfold Qred, inject_Z.
    pose proof (Z.ggcd_gcd n 1) as Hg. pose proof (Z.ggcd_correct_divisors n 1) as Hd.
    destruct (Z.ggcd n 1) as [g [a b]]. cbn in Hg, Hd.
    rewrite Z.gcd_1_r in Hg. subst g. destruct Hd as [Ha Hb].
    rewrite Z.mul_1_l in Ha, Hb. by subst a b. }
  rewrite Hred.
  destruct (Qeq_bool (inject_Z n) 0) eqn:E0.
  { apply Qeq_bool_eq in E0. by rewrite E0. }
  apply Qeq_bool_neq in E0.
  assert (Hpos : (0 < n)%Z).
  { destruct (Z.eq_dec n 0%Z) as [->|]; [by destruct E0|lia]. }
  rewrite Qabs_nonneg_eq by (change 0%Q with (inject_Z 0); rewrite <- Zle_Qle; lia).
  pose proof (floor_log2_int_bounds n Hpos) as [HElo HEhi].
  set (E := floor_log2 (inject_Z n)) in *.
  assert (Hlog : (Z.log2 n < 53)%Z) by (apply Z.log2_lt_pow2; lia).
  pose proof (Z.log2_nonneg n) as Hl0.
  rewrite Z.max_l by lia.
  set (e := (E - 52)%Z).
  assert (Hinv : (2 ^ e == / inject_Z (2 ^ (- e)))%Q).
  { rewrite inject_Z_pow2 by (unfold e; lia).
    rewrite <- Qpower_opp. by rewrite Z.opp_involutive. }
  assert (Hpe : (0 < inject_Z (2 ^ (- e)))%Q).
  { change 0%Q with (inject_Z 0). rewrite <- Zlt_Qlt.
    apply Z.pow_pos_nonneg; unfold e; lia. }
  assert (Hq : (inject_Z n / 2 ^ e == inject_Z (n * 2 ^ (- e)))%Q).
  { rewrite inject_Z_mult, Hinv. field. lra. }
  rewrite (round_half_even_int _ _ Hq), Qred_correct.
  rewrite inject_Z_mult, Hinv. field. lra.
Qed.

(** [int(k * n)], computed as the code computes it, is an index of
    [range(n)] for every float64 [k] of [[0, 1)]: such a [k] is at most
    [1 - 2^-53]. *)
Lemma float_index_bound (k : Q) (n : nat) :
  (0 <= k)%Q -> (k <= 1 - 2 ^ (-53))%Q ->
  0 < n -> (Z.of_nat n < 2 ^ 53)%Z ->
  (0 <= int (mul64 k (float64 (inject_Z (Z.of_nat n)))) < Z.of_nat n)%Z.
Proof.
  intros Hk0 Hk1 Hn Hn53. unfold mul64.
  assert (Heq : (k * float64 (inject_Z (Z.of_nat n)) == k * inject_Z (Z.of_nat n))%Q).
  { rewrite float64_exact_int; [reflexivity|lia]. }
  rewrite (float64_ext _ _ Heq).
  assert (HN : (1 <= inject_Z (Z.of_nat n))%Q).
  { change 1%Q with (inject_Z 1). rewrite <- Zle_Qle. lia. }
  destruct (float64_below (k * inject_Z (Z.of_nat n)) (Z.of_nat n)) as [H0 H1].
  - lia.
  - nra.
  - set (u := (2 ^ (-53))%Q) in *. nra.
  - by apply int_bound.
Qed.

Section SampleLocal.
Context {T : Type} `{Kernels T} {G : Type} `{Random G}.
Implicit Types (c : Images.t T).

Lemma getitem_nonneg {A} (l : list A) (i : Z) :
  (0 <= i < Z.of_nat (length l))%Z ->
  exists x, getitem l i = Ok x /\ l !! Z.to_nat i = Some x.
Proof.
  intros Hi. unfold getitem. rewrite norm_index_nonneg by done.
  destruct (lookup_lt_is_Some_2 l (Z.to_nat i)) as [x Hx]; [lia|].
  exists x. by rewrite Hx.
Qed.

Lemma getitem_raises {A} (l : list A) (i : Z) (e : exn) :
  getitem l i = Raise e -> e = IndexError.
Proof.
  unfold getitem. destruct (norm_index _ _) as [k|]; [|by intros [= <-]].
  destruct (l !! k); [done|by intros [= <-]].
Qed.

Lemma mapM_getitem_raises {A} (l : list A) (inds : list Z) (e : exn) :
  mapM (getitem l) inds = Raise e -> e = IndexError.
Proof.
  induction inds as [|i inds IH]; [done|]. cbn.
  destruct (getitem l i) eqn:E; cbn.
  - destruct (mapM (getitem l) inds); cbn; [done|]. intros [= <-]. by apply IH.
  - intros [= <-]. by eapply getitem_raises.
Qed.

(** The images [values[int(k * n)]] for float64 deviates [k] of [[0, 1)]. *)
Lemma pick_rows (a : ndarray T) (ks : list Q) :
  0 < len a -> (Z.of_nat (len a) < 2 ^ 53)%Z ->
  Forall (fun k => (0 <= k)%Q /\ (k <= 1 - 2 ^ (-53))%Q) ks ->
  exists picked,
    mapM (fun i => getitem (rows a) i)
         (List.map (fun k => int (mul64 k (float64 (inject_Z (Z.of_nat (len a)))))) ks)
      = Ok picked /\
    Forall2 (fun k x =>
               rows a !! Z.to_nat (int (mul64 k (float64 (inject_Z (Z.of_nat (len a))))))
               = Some x)
            ks picked.
Proof.
  intros Hn Hn53 Hks. induction Hks as [|k ks [Hk0 Hk1] Hks IH].
  - exists []. by split.
  - destruct IH as (picked & Hp & Hall).
    destruct (getitem_nonneg (rows a)
                (int (mul64 k (float64 (inject_Z (Z.of_nat (len a)))))))
      as (x & Hx & Hlx).
    { rewrite length_rows. by apply float_index_bound. }
    exists (x :: picked). cbn. rewrite Hx. cbn. rewrite Hp. cbn.
    split; [done|]. by constructor.
Qed.
Lemma shape_stack_rows (a : ndarray T) (picked : list (ndarray T)) (ks : list Q)
    (f : Q -> nat) :
  Forall2 (fun k x => rows a !! f k = Some x) ks picked ->
  picked <> [] ->
  shape (stack picked) = length picked :: tl (shape a).
Proof.
  intros Hall Hne. destruct Hall as [|k x ks picked Hx Hall]; [done|].
  unfold stack. f_equal.
  pose proof (shape_rows a) as Hrows.
  by destruct (Forall_lookup_1 _ _ _ _ Hrows Hx).
Qed.

(** X3.  On a non-empty local collection of [N < 2^53] images, when the
    generator hands out [nsamples >= 1] float64 deviates of [[0, 1)] (so
    none above [1 - 2^-53]), [sample] succeeds and returns a local
    collection of exactly [nsamples] elements with the dims of the input;
    element [j] is the input's element [int(k_j * N)], the product being the
    float64 product, so every element returned is one of the input's (drawn
    with replacement).  When no seed is given, the generator is first
    advanced by [randint]. *)
Theorem sample_local_draws_images c (nsamples : Z) (seed : option Z) (g g2 : G)
    (ks : list Q) :
  Images.mode c = local ->
  (1 <= nsamples)%Z ->
  0 < len (Images.values c) ->
  (Z.of_nat (len (Images.values c)) < 2 ^ 53)%Z ->
  rand (Z.to_nat nsamples)
       match seed with None => snd (randint 0 (2 ^ 32) g) | Some _ => g end
    = (ks, g2) ->
  length ks = Z.to_nat nsamples ->
  Forall (fun k => (0 <= k)%Q /\ (k <= 1 - 2 ^ (-53))%Q) ks ->
  exists picked,
    Images.sample c nsamples seed g
      = (Ok (Images.Make (stack picked) local), g2) /\
    Forall2 (fun k x =>
               Images.tordd c
                 !! Z.to_nat (int (mul64 k (float64 (inject_Z
                                       (Z.of_nat (len (Images.values c)))))))
               = Some x)
            ks picked /\
    Images.count (Images.Make (stack picked) local) = Z.to_nat nsamples /\
    Images.dims (Images.Make (stack picked) local) = Images.dims c.
Proof.
  intros Hm Hn Hlen Hlen53 Hrand Hks Hin.
  destruct (pick_rows (Images.values c) ks Hlen Hlen53 Hin) as (picked & Hp & Hall).
  exists picked. unfold Images.sample. rewrite Hm.
  destruct (Z.ltb_spec nsamples 1); [lia|].
  assert (Hrun : (let '(_, g1) := match seed with
                                   | Some s => (s, g)
                                   | None => randint 0 (2 ^ 32) g
                                   end in
                  rand (Z.to_nat nsamples) g1) = (ks, g2)).
  { destruct seed; [done|]. by destruct (randint 0 (2 ^ 32) g). }
  assert (Hpicked : length picked = Z.to_nat nsamples).
  { rewrite <- Hks. symmetry. by eapply Forall2_length. }
  split; [|split; [done|split]].
  - destruct (match seed with Some s => (s, g) | None => randint 0 (2 ^ 32) g end)
      as [s g1].
    rewrite Hrun. cbv zeta. rewrite Hp. done.
  - unfold Images.count. cbn [Images.mode Images.values]. unfold len, stack. cbn. done.
  - rewrite !dims_tl. cbn [Images.values].
    rewrite (shape_stack_rows _ _ _ _ Hall); [done|].
    intros ->. cbn in Hpicked. lia.
Qed.

(** X4.  [sample] raises ValueError exactly when [nsamples < 1]; it does so
    before it draws anything, so the generator is left as it was, also when
    no seed is given.  Any other failure of [sample] is an IndexError of the
    local branch; [takeSample] is total here, so the distributed branch has
    no failure of its own. *)
Theorem sample_value_error_iff c (nsamples : Z) (seed : option Z) (g : G) :
  ((nsamples < 1)%Z ->
     Images.sample c nsamples seed g = (Raise (ValueError (MsgNsamples nsamples)), g)) /\
  (forall e, fst (Images.sample c nsamples seed g) = Raise e ->
     (e = ValueError (MsgNsamples nsamples) /\ (nsamples < 1)%Z) \/
     (e = IndexError /\ (1 <= nsamples)%Z /\ Images.mode c = local)).
Proof.
  unfold Images.sample. split.
  - intros Hn. by destruct (Z.ltb_spec nsamples 1); [|lia].
  - intros e. destruct (Z.ltb_spec nsamples 1) as [Hn|Hn].
    + intros [= <-]. by left.
    + destruct (match seed with Some s => (s, g) | None => randint 0 (2 ^ 32) g end)
        as [s g1].
      destruct (Images.mode c) eqn:Hm; [|done].
      destruct (rand (Z.to_nat nsamples) g1) as [ks g2]. cbn [fst].
      destruct (mapM _ _) as [picked|e'] eqn:Hp; [done|].
      cbn. intros [= <-]. right.
      apply mapM_getitem_raises in Hp. by subst.
Qed.

End SampleLocal.

(** ** More on [subsample] *)

Section SubsampleMore.
Context {T : Type} `{Kernels T}.
Implicit Types (c : Images.t T).

Lemma existsb_nonpositive_true (fs : list Z) :
  Exists (fun f => f <= 0)%Z fs -> existsb (fun sf => (sf <=? 0)%Z) fs = true.
Proof.
  intros Hex. apply existsb_exists. apply List.Exists_exists in Hex as (f & Hin & Hf).
  exists f. split; [done|]. by apply Z.leb_le.
Qed.

Lemma positive_or_not (fs : list Z) :
  Forall (fun f => 0 < f)%Z fs \/ Exists (fun f => f <= 0)%Z fs.
Proof.
  induction fs as [|f fs [IH|IH]].
  - left. constructor.
  - destruct (Z_lt_le_dec 0 f); [left|right]; by constructor.
  - right. by constructor.
Qed.

(** X5.  How [subsample] ends, by the factor list [fs] (a single int stands
    for one copy per axis): it raises ValueError exactly when some entry is
    not positive, entries past the last axis included; otherwise IndexError
    exactly when the list is shorter than the dims; otherwise it succeeds. *)
Theorem subsample_outcomes c (factor : arg) :
  let dims := Images.dims c in
  let fs := match factor with
            | Scalar f => replicate (length dims) f
            | Seq fs => fs
            end in
  (Images.subsample c factor = Raise (ValueError (MsgFactors fs))
     <-> Exists (fun f => f <= 0)%Z fs) /\
  (Images.subsample c factor = Raise IndexError
     <-> Forall (fun f => 0 < f)%Z fs /\ length fs < length dims) /\
  ((exists c', Images.subsample c factor = Ok c')
     <-> Forall (fun f => 0 < f)%Z fs /\ length dims <= length fs).
Proof.
  intros dims fs.
  destruct (positive_or_not fs) as [Hpos|Hex].
  - assert (Hno : ~ Exists (fun f => f <= 0)%Z fs).
    { intros (f & Hin & Hf)%List.Exists_exists.
      rewrite List.Forall_forall in Hpos. specialize (Hpos f Hin). lia. }
    destruct (Nat.le_gt_cases (length dims) (length fs)) as [Hlen|Hlen].
    + pose proof (subsample_ok c factor Hpos Hlen) as Hok. fold dims fs in Hok.
      rewrite Hok. split; [|split].
      * split; [done|]. intros Hex. by destruct Hno.
      * split; [done|]. intros [_ Hlt]. lia.
      * split; [done|]. eauto.
    + assert (Hseq : factor = Seq fs).
      { destruct factor as [f|l]; [|done]. unfold fs in Hlen.
        rewrite length_replicate in Hlen. lia. }
      rewrite Hseq, (subsample_short_factor c fs Hpos Hlen). split; [|split].
      * split; [done|]. intros Hex. by destruct Hno.
      * done.
      * split; [by intros [c' Hc']|]. intros [_ Hle]. unfold dims in *. lia.
  - assert (Hraise : Images.subsample c factor = Raise (ValueError (MsgFactors fs))).
    { unfold Images.subsample. fold dims fs. by rewrite existsb_nonpositive_true. }
    assert (Hno : ~ Forall (fun f => 0 < f)%Z fs).
    { intros Hpos. apply List.Exists_exists in Hex as (f & Hin & Hf).
      rewrite List.Forall_forall in Hpos. specialize (Hpos f Hin). lia. }
    rewrite Hraise. split; [|split].
    + done.
    + split; [done|]. intros [Hpos _]. by destruct Hno.
    + split; [by intros [c' Hc']|]. intros [Hpos _]. by destruct Hno.
Qed.

Lemma range_step_one (n : nat) : range_step n 1 = seq 0 n.
Proof.
  rewrite range_step_spec by lia.
  replace ((n + 1 - 1) / 1) with n by (rewrite Nat.div_1_r; lia).
  rewrite <- (map_id (seq 0 n)) at 2. apply map_ext. intros k. lia.
Qed.

Lemma take_strided_ones (shp steps : list nat) (d : list T) :
  Forall (fun s => s = 1) steps -> length d = prod shp ->
  take_strided shp steps d = d.
Proof.
  intros Hsteps. revert shp d.
  induction Hsteps as [|s steps -> Hsteps IH]; intros shp d Hd.
  - by destruct shp.
  - destruct shp as [|n shp]; [done|]. cbn [take_strided].
    rewrite kept_blocks, range_step_one by lia.
    change (List.map (fun i => take (prod shp) (drop (i * prod shp) d)) (seq 0 n))
      with (chunks (prod shp) n d).
    rewrite prod_cons in Hd.
    rewrite (map_ext_in _ id), map_id; [by apply concat_chunks|].
    intros r Hr. apply IH.
    pose proof (Forall_length_chunks (prod shp) n d ltac:(lia)) as Hch.
    rewrite List.Forall_forall in Hch. by apply Hch.
Qed.

Lemma steps_ones (ns : list nat) (fs : list Z) :
  Forall (fun f => f = 1%Z) fs ->
  Forall (fun s => s = 1) (zip_with (fun _ f => Z.to_nat f) ns fs).
Proof.
  intros Hfs. revert ns. induction Hfs as [|f fs -> Hfs IH]; intros ns.
  - destruct ns; constructor.
  - destruct ns as [|n ns]; [constructor|]. cbn [zip_with]. by constructor.
Qed.

Lemma images_eta c : Images.Make (Images.values c) (Images.mode c) = c.
Proof. by destruct c. Qed.

Lemma wf_values c :
  Images.wf c ->
  Images.values c
  = NdArray (len (Images.values c) :: Images.dims c) (data (Images.values c)).
Proof.
  intros [_ Hne]. rewrite dims_tl. unfold Images.shape, len in *.
  destruct (Images.values c) as [shp d]. cbn in *. by destruct shp.
Qed.

(** X6.  With factors that are all 1 (one per axis, or the single int 1),
    [subsample] returns the collection itself: the same entries, shape and
    mode, not only the same dims. *)
Theorem subsample_ones_identity c (factor : arg) :
  let fs := match factor with
            | Scalar f => replicate (length (Images.dims c)) f
            | Seq fs => fs
            end in
  Images.wf c ->
  Forall (fun f => f = 1%Z) fs ->
  length (Images.dims c) <= length fs ->
  Images.subsample c factor = Ok c.
Proof.
  intros fs Hwf Hones Hlen.
  assert (Hpos : Forall (fun f => 0 < f)%Z fs).
  { eapply Forall_impl; [exact Hones|]. intros f ->. lia. }
  rewrite subsample_ok by done. fold fs.
  rewrite roundup_ones by done.
  assert (Hdata : concat (List.map data
                    (List.map (getitem_slices
                                 (zip_with (fun _ f => Z.to_nat f) (Images.dims c) fs))
                              (Images.tordd c)))
                  = data (Images.values c)).
  { rewrite map_map, (map_ext_in _ data).
    - unfold Images.tordd. rewrite data_rows, <- dims_tl.
      apply concat_chunks. by apply wf_shape.
    - intros v Hv%list_elem_of_In%list_elem_of_lookup. destruct Hv as [i Hi].
      destruct (rows_lookup_wf c i v Hwf Hi) as [Hvwf Hvs].
      unfold getitem_slices. cbn [data].
      apply take_strided_ones; [by apply steps_ones|done]. }
  by rewrite Hdata, <- wf_values, images_eta.
Qed.

Lemma cdiv_cdiv (n s1 s2 : nat) :
  1 <= s1 -> 1 <= s2 ->
  ((n + s1 - 1) / s1 + s2 - 1) / s2 = (n + s1 * s2 - 1) / (s1 * s2).
Proof.
  intros H1 H2. destruct n as [|n].
  - rewrite !Nat.add_0_l. rewrite (Nat.div_small (s1 - 1)) by lia.
    rewrite Nat.add_0_l, !Nat.div_small by nia. done.
  - replace (S n + s1 - 1) with (n + 1 * s1) by lia.
    rewrite Nat.div_add by lia.
    replace (n / s1 + 1 + s2 - 1) with (n / s1 + 1 * s2) by lia.
    rewrite Nat.div_add by lia.
    replace (S n + s1 * s2 - 1) with (n + 1 * (s1 * s2)) by lia.
    rewrite Nat.div_add by nia. by rewrite Nat.Div0.div_div.
Qed.

Lemma lookup_map_seq {A} (g : nat -> A) (m j : nat) :
  j < m -> List.map g (seq 0 m) !! j = Some (g j).
Proof.
  intros Hj. change (List.map g (seq 0 m)) with (g <$> seq 0 m).
  by rewrite list_lookup_fmap, lookup_seq_lt.
Qed.

(** Every [s2]-th of every [s1]-th block is every [(s1 * s2)]-th block. *)
Lemma kept_of_kept {A} (g : nat -> A) (n s1 s2 : nat) :
  1 <= s1 -> 1 <= s2 ->
  omap (fun i => List.map g (range_step n s1) !! i)
       (range_step (length (range_step n s1)) s2)
  = List.map g (range_step n (s1 * s2)).
Proof.
  intros H1 H2.
  rewrite (range_step_spec n s1), (range_step_spec n (s1 * s2)) by nia.
  rewrite length_map, length_seq.
  rewrite (range_step_spec _ s2), cdiv_cdiv by done.
  rewrite !map_map.
  assert (Hb : forall k, In k (seq 0 ((n + s1 * s2 - 1) / (s1 * s2))) ->
                         k * s2 < (n + s1 - 1) / s1).
  { intros k Hk%in_seq. rewrite <- cdiv_cdiv in Hk by done.
    pose proof (Nat.Div0.mul_div_le ((n + s1 - 1) / s1 + s2 - 1) s2). nia. }
  induction (seq 0 ((n + s1 * s2 - 1) / (s1 * s2))) as [|k l IH]; [done|].
  cbn [List.map omap list_omap].
  rewrite lookup_map_seq by (apply Hb; by left). cbn.
  rewrite IH by (intros j Hj; apply Hb; by right).
  do 2 f_equal. lia.
Qed.

Lemma take_strided_compose (shp st1 st2 : list nat) (d : list T) :
  Forall (fun s => 1 <= s) st1 -> Forall (fun s => 1 <= s) st2 ->
  length st1 = length shp -> length st2 = length shp ->
  length d = prod shp ->
  take_strided (zip_with (fun n s => length (range_step n s)) shp st1) st2
               (take_strided shp st1 d)
  = take_strided shp (zip_with Nat.mul st1 st2) d.
Proof.
  revert st1 st2 d. induction shp as [|n shp IH]; intros st1 st2 d H1 H2 L1 L2 Hd.
  - destruct st1, st2; done.
  - destruct st1 as [|s1 st1]; [done|]. destruct st2 as [|s2 st2]; [done|].
    inversion H1 as [|? ? Hs1 H1']; subst. inversion H2 as [|? ? Hs2 H2']; subst.
    cbn in L1, L2. rewrite prod_cons in Hd.
    cbn [zip_with take_strided].
    rewrite (kept_blocks (prod shp) n s1) by done.
    rewrite (kept_blocks (prod shp) n (s1 * s2)) by nia.
    set (B := fun i => take (prod shp) (drop (i * prod shp) d)).
    set (shp1 := zip_with (fun n s => length (range_step n s)) shp st1).
    assert (HB : forall i, In i (range_step n s1) \/ In i (range_step n (s1 * s2)) ->
                           length (B i) = prod shp).
    { intros i Hi. unfold B. rewrite length_take, length_drop.
      assert (i < n) by (destruct Hi as [Hi|Hi]; eapply range_step_bound in Hi; nia).
      nia. }
    assert (Hlen1 : Forall (fun r => length r = prod shp1)
                      (List.map (take_strided shp st1) (List.map B (range_step n s1)))).
    { rewrite !List.Forall_map. apply List.Forall_forall. intros i Hi.
      rewrite length_take_strided by (done || (apply HB; by left)).
      by rewrite drop_ge, app_nil_r by lia. }
    assert (Hch : chunks (prod shp1) (length (range_step n s1))
                    (concat (List.map (take_strided shp st1) (List.map B (range_step n s1))))
                  = List.map (take_strided shp st1) (List.map B (range_step n s1))).
    { rewrite <- (chunks_concat _ _ Hlen1) at 2. by rewrite !length_map. }
    rewrite Hch.
    rewrite map_map, (kept_of_kept _ n s1 s2) by done.
    rewrite !map_map. f_equal. apply map_ext_in. intros i Hi.
    apply IH; [done|done|lia|lia|]. apply HB. by right.
Qed.

Lemma composed_factors (dims : list nat) (fs gs : list Z) :
  Forall (fun f => 0 < f)%Z fs -> Forall (fun g => 0 < g)%Z gs ->
  let dims1 := zip_with (fun d f => Z.to_nat (Images.roundup (Z.of_nat d) f)) dims fs in
  zip_with (fun _ f => Z.to_nat f) dims (zip_with Z.mul fs gs)
  = zip_with Nat.mul (zip_with (fun _ f => Z.to_nat f) dims fs)
                     (zip_with (fun _ g => Z.to_nat g) dims1 gs) /\
  zip_with (fun d f => Z.to_nat (Images.roundup (Z.of_nat d) f)) dims (zip_with Z.mul fs gs)
  = zip_with (fun d g => Z.to_nat (Images.roundup (Z.of_nat d) g)) dims1 gs.
Proof.
  intros Hfs. revert dims gs.
  induction Hfs as [|f fs Hf Hfs IH]; intros dims gs Hgs dims1.
  - destruct dims; done.
  - destruct dims as [|d dims]; [done|].
    destruct Hgs as [|g gs Hg Hgs]; [done|].
    destruct (IH dims gs Hgs) as [IH1 IH2].
    unfold dims1. cbn [zip_with]. rewrite IH1, IH2. split; f_equal.
    + lia.
    + rewrite !roundup_nat by lia. rewrite cdiv_cdiv by lia.
      rewrite Z2Nat.inj_mul by lia. done.
Qed.

(** The images of a subsampled collection are the sliced images. *)
Lemma tordd_subsampled c (fs : list Z) :
  Images.wf c ->
  Forall (fun f => 0 < f)%Z fs ->
  length (Images.dims c) <= length fs ->
  let steps := zip_with (fun _ f => Z.to_nat f) (Images.dims c) fs in
  let dims1 := zip_with (fun d f => Z.to_nat (Images.roundup (Z.of_nat d) f))
                        (Images.dims c) fs in
  rows (NdArray (len (Images.values c) :: dims1)
          (concat (List.map data (List.map (getitem_slices steps) (Images.tordd c)))))
  = List.map (getitem_slices steps) (Images.tordd c).
Proof.
  intros Hwf Hpos Hlen steps dims1. unfold rows. cbn [shape data len hd tl].
  assert (Hsl : Forall (fun v => shape v = dims1 /\ length (data v) = prod dims1)
                  (List.map (getitem_slices steps) (Images.tordd c))).
  { rewrite List.Forall_map.
    eapply Forall_impl; [apply (Forall_rows_wf c Hwf)|].
    intros v [Hvs Hvl]. unfold getitem_slices. cbn [shape data].
    rewrite length_take_strided by (by apply steps_positive || by rewrite Hvs).
    rewrite Hvs, drop_ge by (unfold steps; rewrite length_zip_with; lia).
    rewrite app_nil_r. unfold steps, dims1. by rewrite sliced_shape. }
  replace (len (Images.values c))
    with (length (List.map data (List.map (getitem_slices steps) (Images.tordd c)))).
  2: { rewrite !length_map. unfold Images.tordd. apply length_rows. }
  rewrite chunks_concat.
  - rewrite map_map. rewrite (map_ext_in _ id); [apply map_id|].
    intros v Hv. rewrite List.Forall_forall in Hsl.
    destruct (Hsl v Hv) as [<- _]. apply ndarray_eta.
  - rewrite List.Forall_map. eapply Forall_impl; [exact Hsl|]. by intros v [_ Hl].
Qed.

Lemma subsample_compose_seq c (fs gs : list Z) :
  Images.wf c ->
  Forall (fun f => 0 < f)%Z fs -> Forall (fun g => 0 < g)%Z gs ->
  length (Images.dims c) <= length fs -> length (Images.dims c) <= length gs ->
  exists c1 c2,
    Images.subsample c (Seq fs) = Ok c1 /\
    Images.subsample c1 (Seq gs) = Ok c2 /\
    Images.subsample c (Seq (zip_with Z.mul fs gs)) = Ok c2.
Proof.
  intros Hwf Hfs Hgs Lf Lg.
  set (dims := Images.dims c) in *.
  set (steps1 := zip_with (fun _ f => Z.to_nat f) dims fs).
  set (dims1 := zip_with (fun d f => Z.to_nat (Images.roundup (Z.of_nat d) f)) dims fs).
  set (steps2 := zip_with (fun _ g => Z.to_nat g) dims1 gs).
  assert (Ld1 : length dims1 = length dims)
    by (unfold dims1; rewrite length_zip_with; lia).
  pose proof (subsample_ok c (Seq fs) Hfs Lf) as H1. cbv beta iota zeta in H1.
  fold dims in H1. fold steps1 dims1 in H1.
  eexists _, _. split; [exact H1|].
  match type of H1 with _ = Ok ?r => set (c1 := r) in * end.
  assert (Hd1 : Images.dims c1 = dims1) by done.
  assert (Lg1 : length (Images.dims c1) <= length gs) by (rewrite Hd1; lia).
  pose proof (subsample_ok c1 (Seq gs) Hgs Lg1) as H2. cbv beta iota zeta in H2.
  rewrite Hd1 in H2. fold steps2 in H2.
  assert (Hfg : Forall (fun f => 0 < f)%Z (zip_with Z.mul fs gs)).
  { clear -Hfs Hgs. revert gs Hgs. induction Hfs as [|f fs Hf Hfs IH]; intros gs Hgs.
    - constructor.
    - destruct Hgs as [|g gs Hg Hgs]; [constructor|]. cbn [zip_with].
      constructor; [lia|by apply IH]. }
  assert (Lfg : length (Images.dims c) <= length (zip_with Z.mul fs gs))
    by (rewrite length_zip_with; fold dims; lia).
  pose proof (subsample_ok c (Seq (zip_with Z.mul fs gs)) Hfg Lfg) as H12.
  cbv beta iota zeta in H12. fold dims in H12.
  destruct (composed_factors dims fs gs Hfs Hgs) as [Hsteps Hdims].
  fold dims1 steps1 steps2 in Hsteps, Hdims.
  rewrite Hsteps, Hdims in H12.
  split; [exact H2|]. rewrite H12. do 3 f_equal.
  - (* the entries *)
    unfold Images.tordd at 2, c1. cbn [Images.values].
    pose proof (tordd_subsampled c fs Hwf Hfs Lf) as Ht. cbv zeta in Ht.
    fold dims in Ht. fold steps1 dims1 in Ht. rewrite Ht.
    rewrite !map_map. f_equal. apply map_ext_in.
    intros v Hv%list_elem_of_In%list_elem_of_lookup. destruct Hv as [i Hi].
    destruct (rows_lookup_wf c i v Hwf Hi) as [Hvwf Hvs]. fold dims in Hvs.
    unfold getitem_slices. cbn [data shape]. rewrite Hvs.
    rewrite (drop_ge dims) by (unfold steps1; rewrite length_zip_with; lia).
    rewrite app_nil_r. symmetry. apply take_strided_compose.
    + by apply steps_positive.
    + by apply steps_positive.
    + unfold steps1. rewrite length_zip_with. lia.
    + unfold steps2. rewrite length_zip_with. lia.
    + by rewrite <- Hvs.
Qed.

Lemma subsample_scalar c (f : Z) :
  Images.subsample c (Scalar f)
  = Images.subsample c (Seq (replicate (length (Images.dims c)) f)).
Proof. done. Qed.

Lemma zip_with_replicate {A B C} (h : A -> B -> C) (n : nat) (a : A) (b : B) :
  zip_with h (replicate n a) (replicate n b) = replicate n (h a b).
Proof. induction n as [|n IH]; [done|]. cbn. by rewrite IH. Qed.

(** X7.  Subsampling by [fs] and then by [gs] is subsampling once by the
    products [fs[i] * gs[i]]: the three calls succeed and the two results are
    the same collection, entries included.  The same holds for single ints:
    [subsample(f).subsample(g)] is [subsample(f * g)]. *)
Theorem subsample_compose c :
  Images.wf c ->
  (forall fs gs,
     Forall (fun f => 0 < f)%Z fs -> Forall (fun g => 0 < g)%Z gs ->
     length (Images.dims c) <= length fs -> length (Images.dims c) <= length gs ->
     exists c1 c2,
       Images.subsample c (Seq fs) = Ok c1 /\
       Images.subsample c1 (Seq gs) = Ok c2 /\
       Images.subsample c (Seq (zip_with Z.mul fs gs)) = Ok c2) /\
  (forall f g, (0 < f)%Z -> (0 < g)%Z ->
     exists c1 c2,
       Images.subsample c (Scalar f) = Ok c1 /\
       Images.subsample c1 (Scalar g) = Ok c2 /\
       Images.subsample c (Scalar (f * g)) = Ok c2).
Proof.
  intros Hwf. split; [intros fs gs; by apply subsample_compose_seq|].
  intros f g Hf Hg.
  set (n := length (Images.dims c)).
  destruct (subsample_compose_seq c (replicate n f) (replicate n g) Hwf)
    as (c1 & c2 & H1 & H2 & H12).
  - by apply Forall_replicate.
  - by apply Forall_replicate.
  - by rewrite length_replicate.
  - by rewrite length_replicate.
  - exists c1, c2. rewrite !subsample_scalar. fold n.
    rewrite zip_with_replicate in H12. split; [done|]. split; [|done].
    replace (length (Images.dims c1)) with n; [done|].
    pose proof (subsample_ok c (Seq (replicate n f))) as Hok. cbv beta iota zeta in Hok.
    rewrite Hok in H1; [|by apply Forall_replicate|by rewrite length_replicate].
    injection H1 as <-. rewrite dims_tl. cbn [Images.values shape tl].
    rewrite length_zip_with, length_replicate. unfold n. lia.
Qed.

End SubsampleMore.

(** ** The images of a result *)

Section PerImage.
Context {T : Type} `{Kernels T}.
Implicit Types (c : Images.t T).

(** Stacking [n] arrays of one shape and iterating over the stack gives the
    arrays back. *)
Lemma rows_of_outs (n : nat) (d : list nat) (outs : list (ndarray T)) :
  length outs = n ->
  Forall (fun o => shape o = d /\ length (data o) = prod d) outs ->
  rows (NdArray (n :: d) (concat (List.map data outs))) = outs.
Proof.
  intros <- Houts. unfold rows. cbn [shape data len hd tl].
  rewrite <- (length_map data outs), chunks_concat.
  - rewrite map_map. rewrite (map_ext_in _ id); [apply map_id|].
    intros o Ho. rewrite List.Forall_forall in Houts.
    destruct (Houts o Ho) as [<- _]. apply ndarray_eta.
  - rewrite List.Forall_map. eapply Forall_impl; [exact Houts|]. by intros o [_ Hl].
Qed.

(** [map] with declared dims, for a function that does not raise on the
    images and returns arrays of the declared shape: the images of the
    result are the function's values, in order. *)
Lemma map_images c (func : ndarray T -> result (ndarray T)) (g : ndarray T -> ndarray T)
    (d : list nat) :
  (forall x, In x (Images.tordd c) ->
     func x = Ok (g x) /\ shape (g x) = d /\ Np.wf (g x)) ->
  exists c', Images.map c func (Some d) = Ok c' /\
    Images.tordd c' = List.map g (Images.tordd c) /\
    Images.dims c' = d /\
    Images.count c' = Images.count c /\
    Images.mode c' = Images.mode c /\
    Images.wf c'.
Proof.
  intros Hf. unfold Images.map, Images._map.
  rewrite (mapM_ext_ok _ g) by (intros x Hx; by apply Hf). cbn [bind].
  eexists. split; [reflexivity|].
  assert (Hrows : Images.tordd
            (Images.Make (NdArray (len (Images.values c) :: d)
               (concat (List.map data (List.map g (Images.tordd c))))) (Images.mode c))
          = List.map g (Images.tordd c)).
  { unfold Images.tordd at 1. cbn [Images.values]. apply rows_of_outs.
    - unfold Images.tordd. by rewrite length_map, length_rows.
    - rewrite List.Forall_map. apply List.Forall_forall. intros x Hx.
      destruct (Hf x Hx) as (_ & Hs & Hw). split; [done|].
      unfold Np.wf in Hw. by rewrite Hw, Hs. }
  split; [exact Hrows|]. split; [done|]. split.
  - unfold Images.count. cbn [Images.mode]. rewrite Hrows.
    cbn [Images.values len shape hd]. unfold Images.tordd.
    by rewrite length_map, length_rows.
  - split; [done|]. split; [|done].
    unfold Np.wf. cbn [Images.values data shape]. rewrite prod_cons.
    rewrite (length_concat_uniform (prod d)).
    + unfold Images.tordd. by rewrite !length_map, length_rows.
    + rewrite !List.Forall_map. apply List.Forall_forall. intros x Hx.
      destruct (Hf x Hx) as (_ & Hs & Hw). unfold Np.wf in Hw. by rewrite Hw, Hs.
Qed.

(** ** [squeeze] only relabels the shape *)

Lemma prod_take_1_ones (l : list nat) : prod l = 1 -> prod (take 1 l) = 1.
Proof.
  intros Hp%prod_1_ones. destruct l as [|n l]; [done|].
  inversion Hp; subst. done.
Qed.

Lemma squeezed_rows c (k : ndarray T -> ndarray T) :
  Images.wf c ->
  (forall x, data (k x) = data x) ->
  concat (List.map data (List.map k (Images.tordd c))) = data (Images.values c).
Proof.
  intros Hwf Hk. rewrite map_map.
  rewrite (map_ext _ data) by done.
  unfold Images.tordd. rewrite data_rows, <- dims_tl.
  apply concat_chunks. by apply wf_shape.
Qed.

(** X8.  On a well-formed collection with an image to probe, [squeeze]
    returns the same entries in the same order under a shorter shape, in the
    mode of the input: the array is relabelled, nothing is moved, dropped or
    recomputed, and the count stays. *)
Theorem squeeze_keeps_entries c :
  Images.wf c -> 0 < len (Images.values c) ->
  let newdims := if prod (Images.dims c) =? 1 then take 1 (Images.dims c)
                 else filter (fun n => n <> 1) (Images.dims c) in
  Images.squeeze c
  = Ok (Images.Make (NdArray (len (Images.values c) :: newdims) (data (Images.values c)))
                    (Images.mode c)) /\
  prod newdims = prod (Images.dims c) /\
  Images.count (Images.Make (NdArray (len (Images.values c) :: newdims)
                               (data (Images.values c))) (Images.mode c))
  = Images.count c.
Proof.
  intros Hwf Hn newdims. split; [|split].
  - unfold Images.squeeze, Images.map, Images._map.
    fold (Images.dims c).
    pose proof (shape_rows (Images.values c)) as Hrows.
    destruct (rows_cons _ Hn) as (d & ds & Erows).
    assert (Hshape : shape (Images.values c) <> []) by apply Hwf.
    destruct (prod (Images.dims c) =? 1) eqn:E.
    + apply Nat.eqb_eq in E.
      rewrite (mapM_ext_ok _ (fun x => NdArray (take 1 (shape x)) (data x))).
      2: { intros x Hx. rewrite List.Forall_forall in Hrows. specialize (Hrows x Hx).
           rewrite <- squeeze_ones by (by rewrite Hrows, <- dims_tl).
           do 3 f_equal. rewrite Hrows. unfold Images.shape.
           destruct (shape (Images.values c)); [done|]. cbn. lia. }
      cbn [bind]. rewrite squeezed_rows by done.
      unfold Images.tordd. rewrite Erows. cbn [List.map shape].
      unfold newdims. by rewrite dims_tl.
    + rewrite (mapM_ext_ok _ squeeze_all) by done.
      cbn [bind]. rewrite squeezed_rows by done.
      unfold Images.tordd. rewrite Erows. cbn [List.map shape squeeze_all].
      unfold newdims. by rewrite dims_tl.
  - unfold newdims. destruct (prod (Images.dims c) =? 1) eqn:E.
    + apply Nat.eqb_eq in E. by rewrite E, prod_take_1_ones.
    + apply prod_filter_ones.
  - unfold Images.count, Images.tordd. cbn [Images.mode Images.values].
    rewrite !length_rows. cbn [len shape hd]. by destruct (Images.mode c).
Qed.

(** ** The filters, image by image *)

Lemma getitem_2 (l : list Z) (s2 : Z) : l !! 2 = Some s2 -> getitem l 2 = Ok s2.
Proof.
  intros Hl. unfold getitem, norm_index.
  pose proof (lookup_lt_Some _ _ _ Hl) as Hlt.
  destruct (Z.leb_spec 0 2); [|lia].
  destruct (Z.ltb_spec 2 (Z.of_nat (length l))); [|lia].
  change (Z.to_nat 2) with 2. by rewrite Hl.
Qed.

Lemma getitem_2_short (l : list Z) : length l < 3 -> getitem l 2 = Raise IndexError.
Proof.
  intros Hl. unfold getitem, norm_index.
  destruct (Z.leb_spec 0 2); [|lia].
  by destruct (Z.ltb_spec 2 (Z.of_nat (length l))); [lia|].
Qed.

(** X9.  What [_image_filter] does with [size], the kernel apart.  On
    volumes an int [s] is the sequence [[s, s, s]]; a sequence with fewer
    than three entries raises IndexError at [size[2]], whatever its entries;
    and a third entry other than 0 hands the whole volume and the whole
    sequence to the kernel.  On images that are not volumes [size] is not
    looked at: it goes to the kernel as given. *)
Theorem image_filter_size c (name : filter_name) :
  let whole size :=
    Ok (Images.Make
          (NdArray (len (Images.values c) :: Images.dims c)
             (concat (List.map data
                (List.map (fun v => ndfilter name v size) (Images.tordd c)))))
          (Images.mode c)) in
  (length (Images.dims c) = 3 ->
     (forall s, Images._image_filter c name (Scalar s)
                = Images._image_filter c name (Seq [s; s; s])) /\
     (forall l, length l < 3 -> Images._image_filter c name (Seq l) = Raise IndexError) /\
     (forall l s2, l !! 2 = Some s2 -> s2 <> 0%Z ->
        Images._image_filter c name (Seq l) = whole (Seq l))) /\
  (length (Images.dims c) <> 3 ->
     forall size, Images._image_filter c name size = whole size).
Proof.
  intros whole. split.
  - intros H3. split; [|split].
    + intros s. unfold Images._image_filter. by rewrite H3.
    + intros l Hl. unfold Images._image_filter. rewrite H3. cbn [Nat.eqb].
      by rewrite getitem_2_short.
    + intros l s2 Hl Hs2. unfold Images._image_filter. rewrite H3. cbn [Nat.eqb].
      rewrite (getitem_2 l s2 Hl). cbn [bind].
      destruct (Z.eqb_spec s2 0); [done|].
      unfold Images.map, Images._map. by rewrite mapM_ok.
  - intros H3 size. unfold Images._image_filter.
    apply Nat.eqb_neq in H3. rewrite H3. cbn [bind].
    destruct size; unfold Images.map, Images._map; by rewrite mapM_ok.
Qed.

(** *** Planes of a volume *)

Lemma omap_lookup_insert_same {A} (z d2 : nat) (cs : list (list A)) (vs : list A) :
  Forall (fun r => length r = d2) cs -> z < d2 -> length vs = length cs ->
  omap (fun r => r !! z) (zip_with (fun r v => <[z := v]> r) cs vs) = vs.
Proof.
  intros Hcs Hz. revert vs. induction Hcs as [|r cs Hr Hcs IH]; intros vs Hl.
  - by destruct vs.
  - destruct vs as [|v vs]; [done|]. cbn [zip_with omap list_omap].
    rewrite list_lookup_insert_eq by lia. cbn. f_equal. apply IH. by injection Hl.
Qed.

Lemma omap_lookup_insert_other {A} (z z' : nat) (cs : list (list A)) (vs : list A) :
  z <> z' -> length vs = length cs ->
  omap (fun r => r !! z') (zip_with (fun r v => <[z := v]> r) cs vs)
  = omap (fun r => r !! z') cs.
Proof.
  intros Hz. revert vs. induction cs as [|r cs IH]; intros vs Hl.
  - by destruct vs.
  - destruct vs as [|v vs]; [done|]. cbn [zip_with omap list_omap].
    rewrite list_lookup_insert_ne by done. rewrite IH by (by injection Hl). done.
Qed.

Lemma chunks_set_plane (z d0 d1 d2 : nat) (p x : ndarray T) :
  shape x = [d0; d1; d2] -> Np.wf x -> length (data p) = d0 * d1 ->
  chunks d2 (d0 * d1) (data (set_plane z p x))
  = zip_with (fun r v => <[z := v]> r) (chunks d2 (d0 * d1) (data x)) (data p).
Proof.
  intros Hs Hwf Hp. unfold set_plane. rewrite Hs. cbn [data].
  set (cs := zip_with _ _ _).
  assert (Hlen : length cs = d0 * d1).
  { unfold cs. rewrite length_zip_with, length_chunks. lia. }
  rewrite <- Hlen. apply chunks_concat.
  unfold Np.wf in Hwf. rewrite Hs in Hwf.
  change (prod [d0; d1; d2]) with (d0 * (d1 * (d2 * 1))) in Hwf.
  assert (Hch : Forall (fun r => length r = d2) (chunks d2 (d0 * d1) (data x)))
    by (apply Forall_length_chunks; lia).
  unfold cs. revert Hch. generalize (chunks d2 (d0 * d1) (data x)). generalize (data p).
  intros vs l Hl. revert vs. induction Hl as [|r l Hr Hl IH]; intros vs; [constructor|].
  destruct vs as [|v vs]; [constructor|]. cbn [zip_with].
  constructor; [by rewrite length_insert|apply IH].
Qed.

(** Reading back the plane that was written. *)
Lemma get_set_plane (z d0 d1 d2 : nat) (p x : ndarray T) :
  shape x = [d0; d1; d2] -> Np.wf x -> z < d2 ->
  shape p = [d0; d1] -> Np.wf p ->
  get_plane z (set_plane z p x) = p.
Proof.
  intros Hs Hwf Hz Hps Hpw.
  assert (Hp : length (data p) = d0 * d1).
  { unfold Np.wf in Hpw. rewrite Hpw, Hps. cbn. lia. }
  destruct (wf_set_plane z d0 d1 d2 p x Hs Hwf Hp) as [_ Hs'].
  unfold get_plane. rewrite Hs', Hs.
  rewrite chunks_set_plane by done.
  rewrite (omap_lookup_insert_same z d2).
  - rewrite <- Hps. apply ndarray_eta.
  - unfold Np.wf in Hwf. rewrite Hs in Hwf.
    change (prod [d0; d1; d2]) with (d0 * (d1 * (d2 * 1))) in Hwf.
    apply Forall_length_chunks. lia.
  - done.
  - by rewrite length_chunks.
Qed.

(** The other planes are not touched by the write. *)
Lemma get_set_plane_other (z z' d0 d1 d2 : nat) (p x : ndarray T) :
  shape x = [d0; d1; d2] -> Np.wf x -> z <> z' ->
  length (data p) = d0 * d1 ->
  get_plane z' (set_plane z p x) = get_plane z' x.
Proof.
  intros Hs Hwf Hz Hp.
  destruct (wf_set_plane z d0 d1 d2 p x Hs Hwf Hp) as [_ Hs'].
  unfold get_plane. rewrite Hs', Hs.
  rewrite chunks_set_plane by done.
  rewrite omap_lookup_insert_other; [done|done|by rewrite length_chunks].
Qed.

(** The loop over the planes of one volume: it ends, every plane it visits
    becomes the kernel's value on that plane of the input, and the others
    stay. *)
Lemma filter_planes_planes (func : ndarray T -> arg -> ndarray T) (size2 : arg)
    (zs : list nat) (d0 d1 d2 : nat) x :
  (forall a s, Np.wf a -> Np.wf (func a s) /\ shape (func a s) = shape a) ->
  shape x = [d0; d1; d2] -> Np.wf x ->
  Forall (fun z => z < d2) zs -> NoDup zs ->
  exists y, Images.filter_planes func size2 zs x = Ok y /\
    Np.wf y /\ shape y = shape x /\
    forall z, z < d2 ->
      get_plane z y = if bool_decide (z ∈ zs) then func (get_plane z x) size2
                      else get_plane z x.
Proof.
  intros Hk Hs Hwf Hzs Hnd. revert x Hs Hwf Hnd.
  induction Hzs as [|z0 zs Hz0 Hzs IH]; intros x Hs Hwf Hnd; cbn [Images.filter_planes].
  - exists x. split; [done|]. split; [done|]. split; [done|].
    intros z _. rewrite bool_decide_eq_false_2; [done|]. by intros ?%elem_of_nil.
  - apply NoDup_cons in Hnd as [Hnin Hnd].
    destruct (length_get_plane z0 d0 d1 d2 x Hs Hwf Hz0) as [Hpwf Hps].
    destruct (Hk (get_plane z0 x) size2 Hpwf) as [Hqwf Hqs].
    set (p := func (get_plane z0 x) size2) in *.
    rewrite Hps in Hqs.
    unfold Images.assign_plane.
    rewrite bool_decide_eq_true_2 by (by rewrite Hqs, Hs).
    cbn [bind].
    assert (Hlp : length (data p) = d0 * d1).
    { unfold Np.wf in Hqwf. rewrite Hqwf, Hqs. cbn. lia. }
    destruct (wf_set_plane z0 d0 d1 d2 p x Hs Hwf Hlp) as [Hwf' Hs'].
    destruct (IH (set_plane z0 p x) ltac:(by rewrite Hs') Hwf' Hnd)
      as (y & Hy & Hywf & Hys & Hplanes).
    exists y. split; [done|]. split; [done|]. split; [by rewrite Hys|].
    intros z Hz. rewrite (Hplanes z Hz).
    destruct (decide (z = z0)) as [->|Hne].
    + rewrite bool_decide_eq_false_2 by done.
      rewrite bool_decide_eq_true_2 by (by left).
      by apply (get_set_plane z0 d0 d1 d2).
    + destruct (bool_decide_reflect (z ∈ zs)) as [Hin|Hin].
      * rewrite bool_decide_eq_true_2 by (by right).
        by rewrite (get_set_plane_other z0 z d0 d1 d2) by done.
      * rewrite bool_decide_eq_false_2.
        2: { intros [?|?]%elem_of_cons; done. }
        by apply (get_set_plane_other z0 z d0 d1 d2).
Qed.

(** X10.  The slice-by-slice case.  On well-formed volumes of dims
    [(d0, d1, d2)], with a size sequence whose third entry is 0 and kernels
    that return a well-formed array of the shape they are given,
    [_image_filter] succeeds, keeps count, dims and mode, and plane [z] of
    image [i] of the result is the kernel's value on plane [z] of image [i]
    of the input, with the first two entries of [size]. *)
Theorem image_filter_slicewise c (name : filter_name) (l : list Z) (d0 d1 d2 : nat) :
  (forall nm a s, Np.wf a ->
     Np.wf (ndfilter nm a s) /\ shape (ndfilter nm a s) = shape a) ->
  Images.wf c -> Images.dims c = [d0; d1; d2] -> l !! 2 = Some 0%Z ->
  exists c', Images._image_filter c name (Seq l) = Ok c' /\
    Images.count c' = Images.count c /\
    Images.dims c' = Images.dims c /\
    Images.mode c' = Images.mode c /\
    Forall2 (fun x y =>
               shape y = shape x /\
               forall z, z < d2 ->
                 get_plane z y = ndfilter name (get_plane z x) (Seq (take 2 l)))
            (Images.tordd c) (Images.tordd c').
Proof.
  intros Hk Hwf Hd Hl.
  set (g := fun v : ndarray T =>
              match Images.filter_planes (ndfilter name) (Seq (take 2 l)) (seq 0 d2) v with
              | Ok y => y
              | Raise _ => v
              end).
  assert (Hg : forall x, In x (Images.tordd c) ->
            Images.filter_planes (ndfilter name) (Seq (take 2 l)) (seq 0 d2) x = Ok (g x) /\
            Np.wf (g x) /\ shape (g x) = shape x /\
            forall z, z < d2 ->
              get_plane z (g x) = ndfilter name (get_plane z x) (Seq (take 2 l))).
  { intros x Hx. apply list_elem_of_In, list_elem_of_lookup in Hx as [i Hi].
    destruct (rows_lookup_wf c i x Hwf Hi) as [Hxw Hxs]. rewrite Hd in Hxs.
    destruct (filter_planes_planes (ndfilter name) (Seq (take 2 l)) (seq 0 d2)
                d0 d1 d2 x (Hk name) Hxs Hxw) as (y & Hy & Hyw & Hys & Hpl).
    - apply List.Forall_forall. intros z Hz%in_seq. lia.
    - apply NoDup_seq.
    - unfold g. rewrite Hy. split; [done|]. split; [done|]. split; [done|].
      intros z Hz. rewrite (Hpl z Hz), bool_decide_eq_true_2; [done|].
      apply list_elem_of_In, in_seq. lia. }
  destruct (map_images c
              (fun v => Images.filter_planes (ndfilter name) (Seq (take 2 l)) (seq 0 d2) v)
              g (Images.dims c)) as (c' & Hc' & Hrows & Hdims & Hcount & Hmode & _).
  { intros x Hx. destruct (Hg x Hx) as (Hy & Hyw & Hys & _).
    split; [done|]. split; [|done]. rewrite Hys.
    apply list_elem_of_In, list_elem_of_lookup in Hx as [i Hi].
    by destruct (rows_lookup_wf c i x Hwf Hi). }
  exists c'. split.
  - unfold Images._image_filter. rewrite Hd. cbn [length Nat.eqb].
    rewrite (getitem_2 l 0 Hl). cbn [bind Z.eqb].
    unfold Images.at_. cbn [lookup list_lookup bind]. rewrite <- Hd. exact Hc'.
  - split; [done|]. split; [done|]. split; [done|].
    rewrite Hrows. apply Forall2_fmap_r, Forall_Forall2_diag.
    apply List.Forall_forall. intros x Hx.
    destruct (Hg x Hx) as (_ & _ & Hys & Hpl). done.
Qed.

(** X11.  [gaussian_filter] image by image: for a kernel that returns a
    well-formed array of the shape it is given, the call succeeds, image [i]
    of the result is the kernel's value on image [i] of the input, and count,
    dims and mode are those of the input. *)
Theorem gaussian_filter_images c (sigma : farg) (order : arg) :
  (forall a, Np.wf a ->
     Np.wf (gaussian a sigma order) /\ shape (gaussian a sigma order) = shape a) ->
  Images.wf c ->
  exists c', Images.gaussian_filter c sigma order = Ok c' /\
    Images.tordd c' = List.map (fun v => gaussian v sigma order) (Images.tordd c) /\
    Images.count c' = Images.count c /\
    Images.dims c' = Images.dims c /\
    Images.mode c' = Images.mode c /\
    Images.wf c'.
Proof.
  intros Hk Hwf.
  destruct (map_images c (fun v => Ok (gaussian v sigma order))
              (fun v => gaussian v sigma order) (Images.dims c))
    as (c' & Hc' & Hrows & Hdims & Hcount & Hmode & Hwf').
  { intros x Hx. apply list_elem_of_In, list_elem_of_lookup in Hx as [i Hi].
    destruct (rows_lookup_wf c i x Hwf Hi) as [Hxw Hxs].
    destruct (Hk x Hxw) as [Hyw Hys]. split; [done|]. split; [|done].
    by rewrite Hys. }
  exists c'. exact (conj Hc' (conj Hrows (conj Hcount (conj Hdims (conj Hmode Hwf'))))).
Qed.

End PerImage.

(** ** [subtract], [toseries] and the aggregates *)

Section Entries.
Context {T : Type} `{Kernels T}.
Implicit Types (c : Images.t T).

Lemma concat_rows c :
  Images.wf c -> concat (List.map data (Images.tordd c)) = data (Images.values c).
Proof.
  intros Hwf. unfold Images.tordd. rewrite data_rows, <- dims_tl.
  apply concat_chunks. by apply wf_shape.
Qed.

Lemma wf_shape_cons c :
  Images.wf c -> shape (Images.values c) = len (Images.values c) :: Images.dims c.
Proof. intros Hwf. rewrite (wf_values c Hwf) at 1. done. Qed.

(** X12.  [subtract] on a well-formed collection.  A number is subtracted
    from every entry of the array, whose shape stays; an array of the dims of
    the images is subtracted entry by entry from every image; an array of any
    other shape is refused with the Exception that names both shapes, and
    nothing else is refused. *)
Theorem subtract_entries c :
  Images.wf c ->
  (forall v,
     Images.subtract c (Images.Number v)
     = Ok (Images.Make
             (NdArray (shape (Images.values c))
                      (List.map (fun e => sub e v) (data (Images.values c))))
             (Images.mode c))) /\
  (forall a, shape a = Images.dims c ->
     Images.subtract c (Images.Array a)
     = Ok (Images.Make
             (NdArray (shape (Images.values c))
                (concat (List.map (fun x => zip_with sub (data x) (data a))
                                  (Images.tordd c))))
             (Images.mode c))) /\
  (forall a, shape a <> Images.dims c ->
     Images.subtract c (Images.Array a)
     = Raise (Exception_ (MsgSubtract (shape a) (Images.dims c)))).
Proof.
  intros Hwf. split; [|split].
  - intros v. unfold Images.subtract, Images.map, Images._map.
    rewrite mapM_ok. cbn [bind]. rewrite <- wf_shape_cons by done.
    do 3 f_equal. rewrite map_map. cbn [data].
    rewrite <- (concat_rows c Hwf), concat_map. by rewrite map_map.
  - intros a Ha. unfold Images.subtract.
    rewrite bool_decide_eq_true_2 by done.
    unfold Images.map, Images._map.
    rewrite mapM_ok. cbn [bind]. rewrite <- wf_shape_cons by done.
    do 3 f_equal. by rewrite map_map.
  - intros a Ha. unfold Images.subtract.
    by rewrite bool_decide_eq_false_2.
Qed.

(** X13.  [toseries] on a well-formed collection of [n] images: the array
    of the series has the dims of the images followed by [n]; the index is
    [0, ..., n - 1], one label per image, where [n] is also what [count]
    returns in either mode; and the series of spatial position [p] (row-major)
    holds entry [p] of image 0, of image 1, ... in that order. *)
Theorem toseries_positions c :
  Images.wf c ->
  let s := Images.toseries c in
  shape (Images.svalues s) = Images.dims c ++ [Images.count c] /\
  Images.index s = seq 0 (Images.count c) /\
  Images.count c = length (Images.tordd c) /\
  last_axis (Images.svalues s)
  = List.map (fun p => omap (fun x => data x !! p) (Images.tordd c))
             (seq 0 (prod (Images.dims c))).
Proof.
  intros Hwf s.
  assert (Hcount : Images.count c = len (Images.values c)).
  { unfold Images.count, Images.tordd. rewrite length_rows. by destruct (Images.mode c). }
  assert (Hrs : Forall (fun r => length r = prod (Images.dims c))
                  (List.map data (Images.tordd c))).
  { unfold Images.tordd. rewrite data_rows, <- dims_tl.
    apply Forall_length_chunks. apply wf_shape in Hwf. lia. }
  split; [|split; [|split]].
  - unfold s. rewrite svalues_toseries, Hcount. unfold transpose_first_last.
    cbn [shape]. by rewrite dims_tl.
  - unfold s, Images.toseries, Images.arange. rewrite Hcount.
    by destruct (Images.mode c).
  - unfold Images.tordd. by rewrite Hcount, length_rows.
  - unfold s. rewrite svalues_toseries.
    rewrite (wf_values c Hwf), <- (concat_rows c Hwf).
    replace (len (Images.values c)) with (length (List.map data (Images.tordd c)))
      by (unfold Images.tordd; by rewrite length_map, length_rows).
    rewrite last_axis_transpose by done.
    rewrite columns_spec by done.
    apply map_ext. intros p. by rewrite omap_map.
Qed.

(** X14.  Each aggregate returns a local collection whatever the mode of
    its input, with one image of the dims of the input, and on a well-formed
    input every entry of that image is the reduction of the series [toseries]
    gives for its position. *)
Theorem aggregates_reduce_series c :
  Images.wf c ->
  Forall (fun ka : aggregate * (Images.t T -> result (Images.t T)) =>
            forall r, snd ka c = Ok r ->
              Images.mode r = local /\
              shape (Images.values r) = 1 :: Images.dims c /\
              data (Images.values r)
              = List.map (reduce0 (fst ka))
                         (last_axis (Images.svalues (Images.toseries c))))
         [(Mean, Images.mean); (Var, Images.var); (Std, Images.std);
          (Sum, Images.sum); (Max, Images.max); (Min, Images.min)].
Proof.
  intros Hwf.
  assert (Hrs : Forall (fun r => length r = prod (Images.dims c))
                  (List.map data (Images.tordd c))).
  { unfold Images.tordd. rewrite data_rows, <- dims_tl.
    apply Forall_length_chunks. apply wf_shape in Hwf. lia. }
  assert (Hser : last_axis (Images.svalues (Images.toseries c))
                 = columns (prod (tl (shape (Images.values c))))
                           (List.map data (rows (Images.values c)))).
  { rewrite svalues_toseries.
    rewrite (wf_values c Hwf) at 1. rewrite <- (concat_rows c Hwf).
    replace (len (Images.values c)) with (length (List.map data (Images.tordd c)))
      by (unfold Images.tordd; by rewrite length_map, length_rows).
    rewrite last_axis_transpose by done. by rewrite dims_tl. }
  repeat (apply List.Forall_cons; [intros r; cbn [fst snd]|]); [..|apply List.Forall_nil].
  all: unfold Images.mean, Images.var, Images.std, Images.sum, Images.max, Images.min.
  all: unfold Images.reduce_axis0.
  all: match goal with |- context [if ?b then _ else _] => destruct b end; [done|].
  all: cbn [bind]; intros [= <-].
  all: cbn [Images._constructor Images.__init__ Images.mode Images.values shape data].
  all: rewrite Hser, dims_tl; done.
Qed.

End Entries.

(** ** The image an aggregate returns *)

Section AggregateImage.
Context {T : Type} `{Kernels T}.
Implicit Types (c : Images.t T).

Lemma reduce_axis0_value (k : aggregate) (a : ndarray T) :
  0 < len a ->
  Images.reduce_axis0 k a
  = Ok (NdArray (1 :: tl (shape a))
          (List.map (reduce0 k)
             (columns (prod (tl (shape a))) (List.map data (rows a))))).
Proof.
  intros Hn. unfold Images.reduce_axis0.
  replace (len a =? 0) with false by (symmetry; apply Nat.eqb_neq; lia).
  by rewrite andb_false_r.
Qed.

(** The images of a well-formed collection, read position by position. *)
Lemma columns_rows c :
  Images.wf c ->
  columns (prod (Images.dims c)) (List.map data (Images.tordd c))
  = List.map (fun p => omap (fun x => data x !! p) (Images.tordd c))
             (seq 0 (prod (Images.dims c))).
Proof.
  intros Hwf.
  assert (Hrs : Forall (fun r => length r = prod (Images.dims c))
                  (List.map data (Images.tordd c))).
  { unfold Images.tordd. rewrite data_rows, <- dims_tl.
    apply Forall_length_chunks. apply wf_shape in Hwf. lia. }
  rewrite columns_spec by done.
  apply map_ext. intros p. by rewrite omap_map.
Qed.

(** What an aggregate wraps is one well-formed image of the dims of the
    input, holding at every position the reduction of the entries the images
    have there. *)
Lemma aggregate_image (k : aggregate) c :
  Images.wf c ->
  let r := Images._constructor
             (NdArray (1 :: tl (shape (Images.values c)))
                (List.map (reduce0 k)
                   (columns (prod (tl (shape (Images.values c))))
                            (List.map data (rows (Images.values c)))))) in
  Images.wf r /\
  Images.tordd r
  = [NdArray (Images.dims c)
       (List.map (fun p => reduce0 k (omap (fun x => data x !! p) (Images.tordd c)))
                 (seq 0 (prod (Images.dims c))))].
Proof.
  intros Hwf r. unfold r, Images._constructor, Images.__init__.
  rewrite <- dims_tl. fold (Images.tordd c). rewrite (columns_rows c Hwf), map_map.
  set (image := List.map _ (seq 0 (prod (Images.dims c)))).
  assert (Hlen : length image = prod (Images.dims c))
    by (unfold image; by rewrite length_map, length_seq).
  split.
  - split; [|done]. unfold Np.wf. cbn [Images.values data shape].
    rewrite prod_cons, Hlen. lia.
  - unfold Images.tordd. cbn [Images.values].
    pose proof (rows_of_outs 1 (Images.dims c) [NdArray (Images.dims c) image] eq_refl)
      as Hrows.
    cbn [List.map data concat] in Hrows. rewrite app_nil_r in Hrows.
    apply Hrows. by repeat constructor.
Qed.

(** C2.  On a collection with at least one element, each of [mean], [var],
    [std], [sum], [max] and [min] returns a collection (not a number) that
    counts exactly one element and has the dims of the input; on a
    well-formed input the result is well formed and its one element is the
    image of those dims that holds, at every position, the reduction of the
    entries the input's elements have at that position. *)
Theorem aggregates_single_element c :
  0 < len (Images.values c) ->
  Forall (fun ka : aggregate * (Images.t T -> result (Images.t T)) =>
            exists r, snd ka c = Ok r /\
              Images.count r = 1 /\
              Images.dims r = Images.dims c /\
              (Images.wf c ->
                 Images.wf r /\
                 Images.tordd r
                 = [NdArray (Images.dims c)
                      (List.map (fun p => reduce0 (fst ka)
                                   (omap (fun x => data x !! p) (Images.tordd c)))
                                (seq 0 (prod (Images.dims c))))]))
         [(Mean, Images.mean); (Var, Images.var); (Std, Images.std);
          (Sum, Images.sum); (Max, Images.max); (Min, Images.min)].
Proof.
  intros Hn.
  repeat (apply List.Forall_cons; [cbn [fst snd]|]); [..|apply List.Forall_nil].
  all: unfold Images.mean, Images.var, Images.std, Images.sum, Images.max, Images.min.
  all: rewrite reduce_axis0_value by done; cbn [bind].
  all: eexists; split; [reflexivity|]; split; [reflexivity|].
  all: split; [by rewrite !dims_tl|].
  all: intros Hwf; exact (aggregate_image _ c Hwf).
Qed.

End AggregateImage.

(** ** Which entries [subsample] keeps *)

Section Entry.
Context {T : Type} `{Kernels T}.
Implicit Types (c : Images.t T) (d : list T).

Lemma ravel_bound (shp idx : list nat) :
  Forall2 (fun i n => i < n) idx shp -> ravel shp idx < prod shp.
Proof.
  induction 1 as [|i n idx shp Hi Hrest IH]; [cbn; lia|].
  cbn [ravel]. rewrite prod_cons. nia.
Qed.

Lemma lookup_concat_uniform {A} (m : nat) (l : list (list A)) (i j : nat) :
  Forall (fun r => length r = m) l -> j < m ->
  concat l !! (i * m + j) = l !! i ≫= (fun r => r !! j).
Proof.
  intros Hl Hj. revert i. induction Hl as [|r l Hr Hl IH]; intros i; [done|].
  cbn [concat]. destruct i as [|i].
  - cbn. by rewrite lookup_app_l by lia.
  - replace (S i * m + j) with (length r + (i * m + j)) by lia.
    rewrite lookup_app_r by lia.
    replace (length r + (i * m + j) - length r) with (i * m + j) by lia.
    by rewrite IH.
Qed.

Lemma range_step_lookup (n s i : nat) :
  1 <= s -> i < length (range_step n s) ->
  range_step n s !! i = Some (i * s) /\ i * s < n.
Proof.
  intros Hs Hi. rewrite range_step_spec in * by done.
  rewrite length_map, length_seq in Hi.
  change (List.map ?f ?l) with (f <$> l).
  rewrite list_lookup_fmap, lookup_seq_lt by done. split; [done|].
  pose proof (Nat.Div0.mul_div_le (n + s - 1) s). nia.
Qed.

(** Entry [idx] of the sliced array is entry [idx[j] * steps[j]] of the
    array. *)
Lemma take_strided_entry (shp steps idx : list nat) d :
  Forall (fun s => 1 <= s) steps ->
  length steps = length shp ->
  length d = prod shp ->
  Forall2 (fun i n => i < n) idx
          (zip_with (fun n s => length (range_step n s)) shp steps) ->
  take_strided shp steps d
    !! ravel (zip_with (fun n s => length (range_step n s)) shp steps) idx
  = d !! ravel shp (zip_with Nat.mul idx steps) /\
  Forall2 (fun i n => i < n) (zip_with Nat.mul idx steps) shp.
Proof.
  intros Hsteps. revert shp idx d.
  induction Hsteps as [|s steps Hs Hsteps IH]; intros shp idx d Hlen Hd Hidx.
  - destruct shp; [|done]. cbn in Hidx. inversion Hidx; subst. cbn. by split.
  - destruct shp as [|n shp]; [done|]. cbn [zip_with] in Hidx.
    inversion Hidx as [|i n' idx' shp' Hi Hidx']; subst.
    injection Hlen as Hlen. rewrite prod_cons in Hd.
    destruct (range_step_lookup n s i Hs Hi) as [Hri Hin].
    set (p := prod shp) in *.
    set (blk := take p (drop (i * s * p) d)).
    assert (Hblk : length blk = prod shp).
    { unfold blk. rewrite length_take, length_drop. fold p. nia. }
    destruct (IH shp idx' blk Hlen Hblk Hidx') as [Hent Hbnd].
    pose proof (ravel_bound _ _ Hidx') as Hr1.
    pose proof (ravel_bound _ _ Hbnd) as Hr2. fold p in Hr2.
    split.
    + cbn [take_strided zip_with ravel]. fold p.
      rewrite kept_blocks by done.
      rewrite (lookup_concat_uniform
                 (prod (zip_with (fun n s => length (range_step n s)) shp steps))).
      * change (List.map ?f ?l) with (f <$> l).
        rewrite !list_lookup_fmap, Hri. cbn [fmap option_fmap option_map mbind option_bind].
        fold blk. rewrite Hent. unfold blk.
        rewrite lookup_take_lt by done. rewrite lookup_drop. f_equal; lia.
      * rewrite !List.Forall_map. apply List.Forall_forall. intros k Hk.
        rewrite length_take_strided; [|done|].
        -- by rewrite drop_ge, app_nil_r by lia.
        -- rewrite length_take, length_drop. fold p.
           pose proof (range_step_bound n s k Hs Hk). nia.
      * done.
    + cbn [zip_with]. by constructor.
Qed.

Lemma zip_with_mul_steps (ns idx : list nat) (fs : list Z) :
  length idx = length ns -> length ns <= length fs ->
  zip_with Nat.mul idx (zip_with (fun _ f => Z.to_nat f) ns fs)
  = zip_with (fun i f => i * Z.to_nat f) idx fs.
Proof.
  revert idx fs. induction ns as [|n ns IH]; intros idx fs Hidx Hfs.
  - by destruct idx.
  - destruct idx as [|i idx]; [done|]. destruct fs as [|f fs]; [done|].
    cbn [zip_with]. f_equal. apply IH; cbn in *; lia.
Qed.

(** The images of the subsampled collection, entry by entry. *)
Lemma sliced_rows c (fs : list Z) :
  Images.wf c ->
  Forall (fun f => 0 < f)%Z fs ->
  length (Images.dims c) <= length fs ->
  let steps := zip_with (fun _ f => Z.to_nat f) (Images.dims c) fs in
  let dims1 := zip_with (fun n f => Z.to_nat (Images.roundup (Z.of_nat n) f))
                        (Images.dims c) fs in
  Forall (fun x =>
            shape (getitem_slices steps x) = dims1 /\
            length (data (getitem_slices steps x)) = prod dims1 /\
            forall idx, Forall2 (fun i n => i < n) idx dims1 ->
              data (getitem_slices steps x) !! ravel dims1 idx
              = data x !! ravel (Images.dims c)
                                (zip_with (fun i f => i * Z.to_nat f) idx fs))
         (Images.tordd c).
Proof.
  intros Hwf Hpos Hlen steps dims1.
  eapply Forall_impl; [apply (Forall_rows_wf c Hwf)|].
  intros x [Hxs Hxl].
  assert (Hst : Forall (fun s => 1 <= s) steps) by (by apply steps_positive).
  assert (Hls : length steps = length (Images.dims c))
    by (unfold steps; rewrite length_zip_with; lia).
  assert (Hsh : zip_with (fun n s => length (range_step n s)) (Images.dims c) steps = dims1)
    by (by apply sliced_shape).
  unfold getitem_slices. cbn [shape data]. rewrite Hxs.
  split; [|split].
  - by rewrite drop_ge, app_nil_r by lia.
  - rewrite length_take_strided by done.
    by rewrite drop_ge, app_nil_r, Hsh by lia.
  - intros idx Hidx. rewrite <- Hsh in Hidx |- *.
    destruct (take_strided_entry (Images.dims c) steps idx (data x) Hst Hls Hxl Hidx)
      as [-> _].
    do 2 f_equal. unfold steps.
    apply Forall2_length in Hidx. rewrite length_zip_with in Hidx.
    apply zip_with_mul_steps; lia.
Qed.

(** C5.  For factors that are all positive ints, one per spatial axis (a
    single int stands for one copy per axis), [subsample] succeeds; axis [i]
    of the result has length [ceil(dims[i] / factor[i])]; the indices kept
    along an axis are [0, f, 2f, ...]; the shape of every sliced element is
    the declared one; and factors that are all 1 leave the dims unchanged.
    On a well-formed collection every element of the result has exactly the
    entries its dims call for, and its entry at a multi-index [idx] is the
    entry of the same element of the input at [idx[j] * factor[j]] along
    every axis [j]: index 0 and every factor-th index after it are kept,
    and nothing else. *)
Theorem subsample_dims c (factor : arg) :
  let dims := Images.dims c in
  let fs := match factor with
            | Scalar f => replicate (length dims) f
            | Seq fs => fs
            end in
  let steps := zip_with (fun _ f => Z.to_nat f) dims fs in
  Forall (fun f => 0 < f)%Z fs ->
  length dims <= length fs ->
  exists c',
    Images.subsample c factor = Ok c' /\
    length (Images.dims c') = length dims /\
    (forall i n f, dims !! i = Some n -> fs !! i = Some f ->
       Images.dims c' !! i = Some (Z.to_nat (Spec.ceil_div (Z.of_nat n) f)) /\
       range_step n (Z.to_nat f)
       = List.map (fun k => k * Z.to_nat f)
                  (seq 0 (Z.to_nat (Spec.ceil_div (Z.of_nat n) f)))) /\
    Forall (fun v => shape (getitem_slices steps v) = Images.dims c') (Images.tordd c) /\
    data (Images.values c')
      = concat (List.map (fun v => take_strided dims steps (data v)) (Images.tordd c)) /\
    (Forall (fun f => f = 1%Z) fs -> Images.dims c' = dims) /\
    (Images.wf c ->
       Forall2 (fun x y =>
                  shape y = Images.dims c' /\
                  length (data y) = prod (Images.dims c') /\
                  forall idx, Forall2 (fun i n => i < n) idx (Images.dims c') ->
                    data y !! ravel (Images.dims c') idx
                    = data x !! ravel dims
                                      (zip_with (fun i f => i * Z.to_nat f) idx fs))
               (Images.tordd c) (Images.tordd c')).
Proof.
  intros dims fs steps Hpos Hlen.
  rewrite subsample_ok by done. fold dims fs steps.
  eexists. split; [reflexivity|].
  match goal with |- context [Images.dims ?r] => set (c' := r) end.
  assert (Images.dims c'
          = zip_with (fun n f => Z.to_nat (Images.roundup (Z.of_nat n) f)) dims fs)
    as -> by done.
  split; [|split; [|split; [|split; [|split]]]].
  - rewrite length_zip_with. lia.
  - intros i n f Hd Hf. split.
    + rewrite lookup_zip_with, Hd, Hf. cbn.
      by rewrite roundup_ceil by (eapply Forall_lookup_1 in Hpos; eauto).
    + assert (0 < f)%Z as Hf0 by (eapply Forall_lookup_1 in Hpos; eauto).
      rewrite range_step_spec by lia.
      by rewrite <- roundup_ceil, roundup_nat.
  - apply List.Forall_forall. intros v Hv.
    pose proof (shape_rows (Images.values c)) as Hrows.
    rewrite List.Forall_forall in Hrows. specialize (Hrows v Hv).
    unfold getitem_slices. cbn [shape]. rewrite Hrows, <- dims_tl. fold dims.
    rewrite drop_ge by (unfold steps; rewrite length_zip_with; lia).
    rewrite app_nil_r. by apply sliced_shape.
  - cbn [c' Images.values data].
    rewrite map_map. f_equal. apply map_ext_in. intros v Hv.
    pose proof (shape_rows (Images.values c)) as Hrows.
    rewrite List.Forall_forall in Hrows. specialize (Hrows v Hv).
    unfold getitem_slices. cbn [data]. by rewrite Hrows, <- dims_tl.
  - intros Hones. by apply roundup_ones.
  - intros Hwf. unfold Images.tordd at 2. cbn [c' Images.values].
    pose proof (tordd_subsampled c fs Hwf Hpos Hlen) as Ht. cbv zeta in Ht.
    fold dims steps in Ht. rewrite Ht.
    apply Forall2_fmap_r, Forall_Forall2_diag.
    exact (sliced_rows c fs Hwf Hpos Hlen).
Qed.

(** X15.  Which entries [subsample] keeps.  For positive factors, one per
    axis, on a well-formed collection: image [i] of the result has the
    rounded-up dims, and its entry at a multi-index [idx] within them is the
    entry of image [i] of the input at [idx[j] * factor[j]] along every axis
    [j]; positions are row-major. *)
Theorem subsample_entries c (fs : list Z) :
  Images.wf c ->
  Forall (fun f => 0 < f)%Z fs ->
  length fs = length (Images.dims c) ->
  exists c', Images.subsample c (Seq fs) = Ok c' /\
    Forall2 (fun x y =>
               shape y = Images.dims c' /\
               forall idx, Forall2 (fun i n => i < n) idx (Images.dims c') ->
                 data y !! ravel (Images.dims c') idx
                 = data x !! ravel (Images.dims c)
                                   (zip_with (fun i f => i * Z.to_nat f) idx fs))
            (Images.tordd c) (Images.tordd c').
Proof.
  intros Hwf Hpos Hlen.
  pose proof (subsample_ok c (Seq fs)) as Hok. cbv beta iota zeta in Hok.
  rewrite Hok by (done || lia). eexists. split; [reflexivity|].
  set (steps := zip_with (fun _ f => Z.to_nat f) (Images.dims c) fs).
  set (dims1 := zip_with (fun n f => Z.to_nat (Images.roundup (Z.of_nat n) f))
                         (Images.dims c) fs).
  assert (Hd1 : Images.dims (Images.Make
                   (NdArray (len (Images.values c) :: dims1)
                      (concat (List.map data
                         (List.map (getitem_slices steps) (Images.tordd c)))))
                   (Images.mode c)) = dims1) by done.
  rewrite Hd1. unfold Images.tordd at 2. cbn [Images.values].
  pose proof (tordd_subsampled c fs Hwf Hpos ltac:(lia)) as Ht. cbv zeta in Ht.
  fold steps dims1 in Ht. rewrite Ht.
  apply Forall2_fmap_r, Forall_Forall2_diag.
  eapply Forall_impl; [apply (Forall_rows_wf c Hwf)|].
  intros x [Hxs Hxl].
  assert (Hst : Forall (fun s => 1 <= s) steps) by (by apply steps_positive).
  assert (Hls : length steps = length (Images.dims c))
    by (unfold steps; rewrite length_zip_with; lia).
  assert (Hsh : zip_with (fun n s => length (range_step n s)) (Images.dims c) steps = dims1)
    by (by apply sliced_shape).
  split.
  - unfold getitem_slices. cbn [shape]. rewrite Hxs.
    by rewrite drop_ge, app_nil_r by lia.
  - intros idx Hidx. unfold getitem_slices. cbn [data]. rewrite Hxs.
    rewrite <- Hsh in Hidx |- *.
    destruct (take_strided_entry (Images.dims c) steps idx (data x) Hst Hls Hxl Hidx)
      as [-> _].
    do 2 f_equal. unfold steps.
    apply Forall2_length in Hidx. rewrite length_zip_with in Hidx.
    apply zip_with_mul_steps; lia.
Qed.

End Entry.

(** ** The outcomes of the projections *)

Section Outcomes.
Context {T : Type} `{Kernels T}.
Implicit Types (c : Images.t T).

(** X16.  The outcome of the two projections is decided by the axis and
    the number [d] of dims alone: the range Exception exactly for
    [axis >= d], IndexError (from [del]) exactly for [axis < -d], and a
    collection exactly for [-d <= axis < d]. *)
Theorem projection_outcomes c (axis : Z) :
  let d := Z.of_nat (length (Images.dims c)) in
  Forall (fun proj : Images.t T -> Z -> result (Images.t T) =>
            (proj c axis = Raise (Exception_ (MsgAxis axis 0 (d - 1))) <-> (d <= axis)%Z) /\
            (proj c axis = Raise IndexError <-> (axis < - d)%Z) /\
            ((exists r, proj c axis = Ok r) <-> (- d <= axis < d)%Z))
         [Images.max_projection; Images.max_min_projection].
Proof.
  intros d.
  destruct (Z_lt_le_dec axis d) as [Hlt|Hge].
  - destruct (Z_lt_le_dec axis (- d)) as [Hlow|Hin].
    + destruct (projection_below_range c axis Hlow) as [H1 H2].
      repeat (apply List.Forall_cons; [|]); [| |apply List.Forall_nil].
      all: rewrite ?H1, ?H2.
      all: split; [split; [done|lia]|split; [done|split; [by intros [r ?]|lia]]].
    + assert (exists k, norm_index (length (Images.dims c)) axis = Some k) as [k Hk].
      { destruct (Z_lt_le_dec axis 0).
        - eexists. apply norm_index_neg. fold d. lia.
        - eexists. apply norm_index_nonneg. fold d. lia. }
      destruct (projections_ok c axis k Hlt Hk) as [H1 H2].
      repeat (apply List.Forall_cons; [|]); [| |apply List.Forall_nil].
      all: rewrite ?H1, ?H2.
      all: split; [split; [done|lia]|split; [split; [done|lia]|split; [lia|eauto]]].
  - assert (H1 : Images.max_projection c axis = Raise (Exception_ (MsgAxis axis 0 (d - 1)))).
    { unfold Images.max_projection, size. fold d.
      by destruct (Z.leb_spec d axis); [|lia]. }
    assert (H2 : Images.max_min_projection c axis
                 = Raise (Exception_ (MsgAxis axis 0 (d - 1)))).
    { unfold Images.max_min_projection, size. fold d.
      by destruct (Z.leb_spec d axis); [|lia]. }
    repeat (apply List.Forall_cons; [|]); [| |apply List.Forall_nil].
    all: rewrite ?H1, ?H2.
    all: split; [done|split; [split; [done|lia]|split; [by intros [r ?]|lia]]].
Qed.

End Outcomes.


(** ** The theorems at concrete inputs *)

Lemma sample_filter_keeps_length (x : ndarray Z) (s : arg) :
  length (data (ndfilter uniform x s)) = length (data x).
Proof. cbn. apply length_map. Qed.

(** C1 on three 2x2 frames, neighborhood 1. *)
Lemma localcorr_sequence_at_frames :
  let c := Images.Make Demo.frames local in
  Images.wf c /\
  (exists r, Images.localcorr c (PyInt 1) = Ok r /\
             data r = Spec.localcorr (Images.tordd c) (Images.dims c) 1) /\
  (forall o, (forall z, o <> PyInt z) ->
             Images.localcorr c o = Raise (ValueError MsgNeighborhood)).
Proof.
  cbn zeta.
  assert (Hwf : Images.wf (Images.Make Demo.frames local)).
  { split; [reflexivity|discriminate]. }
  split; [exact Hwf|].
  exact (localcorr_sequence (Images.Make Demo.frames local) 1 Hwf
           sample_filter_keeps_length).
Defined.

(** C2 on three 2x2 frames, distributed: the maximum and the sum. *)
Lemma aggregates_single_element_at_frames :
  let c := Images.Make Demo.frames spark in
  0 < len (Images.values c) /\
  Images.wf c /\
  (exists r, Images.max c = Ok r /\
     Images.count r = 1 /\ Images.dims r = [2; 2] /\ Images.wf r /\
     Images.tordd r = [NdArray [2; 2] [8; 9; 10; 11]%Z]) /\
  (exists r, Images.sum c = Ok r /\
     Images.count r = 1 /\ Images.dims r = [2; 2] /\ Images.wf r /\
     Images.tordd r = [NdArray [2; 2] [12; 15; 18; 21]%Z]).
Proof.
  cbn zeta.
  assert (Hn : 0 < len (Images.values (Images.Make Demo.frames spark))).
  { cbn. lia. }
  assert (Hwf : Images.wf (Images.Make Demo.frames spark)).
  { split; [reflexivity|discriminate]. }
  split; [exact Hn|]. split; [exact Hwf|].
  pose proof (aggregates_single_element (Images.Make Demo.frames spark) Hn) as Hall.
  split.
  - destruct (Forall_lookup_1 _ _ 4 (Max, Images.max) Hall eq_refl)
      as (r & Hr & Hc & Hd & Hi).
    destruct (Hi Hwf) as [Hrw Hrt].
    exists r. split; [exact Hr|]. split; [exact Hc|]. split; [exact Hd|].
    split; [exact Hrw|exact Hrt].
  - destruct (Forall_lookup_1 _ _ 3 (Sum, Images.sum) Hall eq_refl)
      as (r & Hr & Hc & Hd & Hi).
    destruct (Hi Hwf) as [Hrw Hrt].
    exists r. split; [exact Hr|]. split; [exact Hc|]. split; [exact Hd|].
    split; [exact Hrw|exact Hrt].
Defined.

(** C3 on two volumes of dims (4, 1, 3). *)
Lemma squeeze_removes_unit_dims_at_volumes :
  let c := Images.Make Demo.volumes local in
  0 < len (Images.values c) /\
  exists c', Images.squeeze c = Ok c' /\
    (prod (Images.dims c) = 1 -> Images.dims c' = take 1 (Images.dims c)) /\
    (prod (Images.dims c) <> 1 ->
       Images.dims c' = filter (fun n => n <> 1) (Images.dims c) /\
       (Images.dims c' = Images.dims c <-> Forall (fun n => n <> 1) (Images.dims c))).
Proof.
  cbn zeta.
  assert (Hn : 0 < len (Images.values (Images.Make Demo.volumes local))).
  { cbn. lia. }
  split; [exact Hn|].
  exact (squeeze_removes_unit_dims (Images.Make Demo.volumes local) Hn).
Defined.

(** C9 on two volumes of dims (4, 1, 3). *)
Lemma squeeze_idempotent_at_volumes :
  let c := Images.Make Demo.volumes local in
  let c' := Images.Make (NdArray [2; 4; 3] (data Demo.volumes)) local in
  Images.squeeze c = Ok c' /\
  exists c'', Images.squeeze c' = Ok c'' /\ Images.dims c'' = Images.dims c'.
Proof.
  cbn zeta.
  assert (Hc : Images.squeeze (Images.Make Demo.volumes local)
               = Ok (Images.Make (NdArray [2; 4; 3] (data Demo.volumes)) local)).
  { reflexivity. }
  split; [exact Hc|].
  exact (squeeze_idempotent _ _ Hc).
Defined.

(** C5 on two volumes of dims (2, 2, 3), factor (1, 2, 2): along the last
    axis the entries 0 and 2 are kept, along the middle one entry 0. *)
Lemma subsample_dims_at_cubes :
  let c := Images.Make Demo.cubes local in
  let fs := [1; 2; 2]%Z in
  Forall (fun f => 0 < f)%Z fs /\
  length (Images.dims c) <= length fs /\
  Images.wf c /\
  exists c',
    Images.subsample c (Seq fs) = Ok c' /\
    Images.dims c' = [2; 1; 2] /\
    Forall2 (fun x y =>
               shape y = [2; 1; 2] /\
               length (data y) = 4 /\
               forall idx, Forall2 (fun i n => i < n) idx [2; 1; 2] ->
                 data y !! ravel [2; 1; 2] idx
                 = data x !! ravel [2; 2; 3]
                                   (zip_with (fun i f => i * Z.to_nat f) idx fs))
            (Images.tordd c) (Images.tordd c') /\
    Images.tordd c' = [NdArray [2; 1; 2] [0; 2; 6; 8]%Z;
                       NdArray [2; 1; 2] [12; 14; 18; 20]%Z].
Proof.
  cbn zeta.
  assert (Hpos : Forall (fun f => 0 < f)%Z [1; 2; 2]%Z).
  { repeat constructor. }
  assert (Hlen : length (Images.dims (Images.Make Demo.cubes local)) <= length [1; 2; 2]%Z).
  { cbn. lia. }
  assert (Hwf : Images.wf (Images.Make Demo.cubes local)).
  { split; [reflexivity|discriminate]. }
  split; [exact Hpos|]. split; [exact Hlen|]. split; [exact Hwf|].
  destruct (subsample_dims (Images.Make Demo.cubes local) (Seq [1; 2; 2]%Z) Hpos Hlen)
    as (c' & Hc' & _ & _ & _ & _ & _ & Hent).
  specialize (Hent Hwf).
  exists c'. split; [exact Hc'|].
  vm_compute in Hc'. injection Hc' as <-.
  split; [reflexivity|]. split; [exact Hent|reflexivity].
Defined.

(** C6 on two volumes of dims (2, 2, 3): axis 3 and axis 2. *)
Lemma projection_axis_range_at_cubes :
  let c := Images.Make Demo.cubes local in
  (Images.max_projection c 3 = Raise (Exception_ (MsgAxis 3 0 2)) /\
   Images.max_min_projection c 3 = Raise (Exception_ (MsgAxis 3 0 2))) /\
  exists r1 r2,
    Images.max_projection c 2 = Ok r1 /\
    Images.max_min_projection c 2 = Ok r2 /\
    Images.dims r1 = [2; 2] /\ Images.dims r2 = [2; 2].
Proof.
  cbn zeta. split.
  - apply (proj1 (projection_axis_range (Images.Make Demo.cubes local) 3)).
    cbn. lia.
  - destruct (proj2 (projection_axis_range (Images.Make Demo.cubes local) 2))
      as (r1 & r2 & H1 & H2 & D1 & D2 & _); [cbn; lia|].
    exists r1, r2. repeat split; assumption.
Defined.


(** C7 on three distributed 2x2 frames. *)
Lemma transformations_keep_mode_at_frames :
  let c := Images.Make Demo.frames spark in
  (exists c', Images.subsample c (Scalar 2) = Ok c' /\ Images.mode c' = spark) /\
  (exists c', fst (Images.sample c 2 (Some 1%Z) ([] : list Q)) = Ok c' /\
              Images.mode c' = local).
Proof.
  cbn zeta.
  pose proof (transformations_keep_mode (G := list Q) (Images.Make Demo.frames spark))
    as (_ & _ & _ & _ & Hsub & _ & _ & _ & _ & Hsample).
  split.
  - eexists. split; [reflexivity|]. apply (Hsub (Scalar 2)). reflexivity.
  - eexists. split; [reflexivity|]. apply (Hsample 2%Z (Some 1%Z) []). reflexivity.
Defined.

(** C8 on two volumes of dims (2, 2, 3), size (1, 1, 0), in both modes. *)
Lemma filters_leave_input_untouched_at_cubes :
  let x := NdArray [2; 2; 3] (List.map Z.of_nat (seq 12 12)) in
  let size := Seq [1; 1; 0]%Z in
  let h := Demo.cubes_heap in
  let unchanged (m : Mode) :=
    let self := Demo.cubes_ref m in
    let h1 := snd (Store.uniform_filter self size h) in
    let h2 := snd (Store.median_filter self size h) in
    fst (Store.read (Store.row (Store.values self) 1) h1) = Ok x /\
    fst (Store.read (Store.row (Store.values self) 1) h2) = Ok x /\
    Store.untouched h h1 /\ Store.untouched h h2 in
  fst (Store.read (Store.row (Store.values (Demo.cubes_ref local)) 1) h) = Ok x /\
  unchanged local /\ unchanged spark.
Proof.
  cbn zeta. split; [reflexivity|]. split.
  - exact (filters_leave_input_untouched (Demo.cubes_ref local) (Seq [1; 1; 0]%Z)
             Demo.cubes_heap 1 _ eq_refl).
  - exact (filters_leave_input_untouched (Demo.cubes_ref spark) (Seq [1; 1; 0]%Z)
             Demo.cubes_heap 1 _ eq_refl).
Defined.

(** The sample kernels return well-formed arrays of the shape they are
    given. *)
Lemma sample_filter_keeps_shape (nm : filter_name) (a : ndarray Z) (s : arg) :
  Np.wf a -> Np.wf (ndfilter nm a s) /\ shape (ndfilter nm a s) = shape a.
Proof.
  intros Ha. destruct nm; (split; [|done]); unfold Np.wf in *; cbn;
    by rewrite length_map.
Qed.

Lemma sample_gaussian_keeps_shape (sigma : farg) (order : arg) (a : ndarray Z) :
  Np.wf a -> Np.wf (gaussian a sigma order) /\ shape (gaussian a sigma order) = shape a.
Proof. done. Qed.

Lemma cubes_wf (m : Mode) : Images.wf (Images.Make Demo.cubes m).
Proof. split; [reflexivity|discriminate]. Qed.

Lemma frames_wf (m : Mode) : Images.wf (Images.Make Demo.frames m).
Proof. split; [reflexivity|discriminate]. Qed.

Lemma volumes_wf (m : Mode) : Images.wf (Images.Make Demo.volumes m).
Proof. split; [reflexivity|discriminate]. Qed.

(** X1 on two distributed volumes of dims (2, 2, 3), factor (2, 1, 2). *)
Lemma subsample_wf_at_cubes :
  let c := Images.Make Demo.cubes spark in
  let fs := [2; 1; 2]%Z in
  Forall (fun f => 0 < f)%Z fs /\
  length (Images.dims c) <= length fs /\
  Images.wf c /\
  exists c', Images.subsample c (Seq fs) = Ok c' /\ Images.wf c'.
Proof.
  cbn zeta.
  assert (Hpos : Forall (fun f => 0 < f)%Z [2; 1; 2]%Z).
  { repeat constructor. }
  assert (Hlen : length (Images.dims (Images.Make Demo.cubes spark)) <= length [2; 1; 2]%Z).
  { cbn. lia. }
  split; [exact Hpos|]. split; [exact Hlen|]. split; [exact (cubes_wf spark)|].
  eexists. split; [reflexivity|].
  exact (subsample_wf (Images.Make Demo.cubes spark) (Seq [2; 1; 2]%Z) _
           Hpos Hlen (cubes_wf spark) eq_refl).
Defined.

(** X2 on two distributed volumes of dims (2, 2, 3), median filter of size
    (1, 1, 0). *)
Lemma image_filter_refines_at_cubes :
  let self := Demo.cubes_ref spark in
  let c := Images.Make Demo.cubes spark in
  let size := Seq [1; 1; 0]%Z in
  Store.load self Demo.cubes_heap = Ok c /\
  Images.wf c /\
  (let out := Store._image_filter self median size Demo.cubes_heap in
   (let* r := fst out in Store.load r (snd out)) = Images._image_filter c median size).
Proof.
  cbn zeta. split; [reflexivity|]. split; [exact (cubes_wf spark)|].
  exact (image_filter_refines (Demo.cubes_ref spark) median (Seq [1; 1; 0]%Z)
           Demo.cubes_heap (Images.Make Demo.cubes spark)
           sample_filter_keeps_shape eq_refl (cubes_wf spark)).
Defined.

(** X3 on three 2x2 frames: two draws, the deviates 0 and
    6004799503160661 / 2^53 (the float64 nearest to 2/3).  The float64
    product of the second with 3 is 2.0, where the exact product is just
    below 2: image 2 is drawn. *)
Lemma sample_local_draws_images_at_frames :
  let c := Images.Make Demo.frames local in
  let ks := [0; 6004799503160661 # 9007199254740992]%Q in
  Forall (fun k => (0 <= k)%Q /\ (k <= 1 - 2 ^ (-53))%Q) ks /\
  (exists picked,
     Images.sample c 2 (Some 7%Z) ks = (Ok (Images.Make (stack picked) local), []) /\
     Forall2 (fun k x =>
                Images.tordd c
                  !! Z.to_nat (int (mul64 k (float64 (inject_Z
                                        (Z.of_nat (len (Images.values c)))))))
                = Some x)
             ks picked /\
     Images.count (Images.Make (stack picked) local) = 2 /\
     Images.dims (Images.Make (stack picked) local) = Images.dims c) /\
  fst (Images.sample c 2 (Some 7%Z) ks)
  = Ok (Images.Make (NdArray [2; 2; 2] [0; 1; 2; 3; 8; 9; 10; 11]%Z) local).
Proof.
  cbn zeta.
  assert (Hks : Forall (fun k => (0 <= k)%Q /\ (k <= 1 - 2 ^ (-53))%Q)
                  [0; 6004799503160661 # 9007199254740992]%Q).
  { repeat (apply List.Forall_cons; [split; vm_compute; discriminate|]).
    apply List.Forall_nil. }
  split; [exact Hks|]. split.
  - exact (sample_local_draws_images (Images.Make Demo.frames local) 2 (Some 7%Z)
             [0; 6004799503160661 # 9007199254740992]%Q []
             [0; 6004799503160661 # 9007199254740992]%Q
             eq_refl ltac:(lia) ltac:(cbn; lia) ltac:(cbn; lia) eq_refl eq_refl Hks).
  - vm_compute. reflexivity.
Defined.

(** X6 on two volumes of dims (2, 2, 3), factor 1. *)
Lemma subsample_ones_identity_at_cubes :
  let c := Images.Make Demo.cubes local in
  Images.wf c /\ Images.subsample c (Scalar 1) = Ok c.
Proof.
  cbn zeta. split; [exact (cubes_wf local)|].
  apply (subsample_ones_identity (Images.Make Demo.cubes local) (Scalar 1)).
  - exact (cubes_wf local).
  - repeat constructor.
  - cbn. lia.
Defined.

(** X7 on two volumes of dims (2, 2, 3): (1, 2, 2) then (2, 1, 1) is
    (2, 2, 2), and 1 then 2 is 2. *)
Lemma subsample_compose_at_cubes :
  let c := Images.Make Demo.cubes local in
  Images.wf c /\
  (exists c1 c2,
     Images.subsample c (Seq [1; 2; 2]%Z) = Ok c1 /\
     Images.subsample c1 (Seq [2; 1; 1]%Z) = Ok c2 /\
     Images.subsample c (Seq [2; 2; 2]%Z) = Ok c2) /\
  (exists c1 c2,
     Images.subsample c (Scalar 1) = Ok c1 /\
     Images.subsample c1 (Scalar 2) = Ok c2 /\
     Images.subsample c (Scalar 2) = Ok c2).
Proof.
  cbn zeta. split; [exact (cubes_wf local)|].
  destruct (subsample_compose (Images.Make Demo.cubes local) (cubes_wf local))
    as [Hseq Hint].
  split.
  - apply (Hseq [1; 2; 2]%Z [2; 1; 1]%Z).
    + repeat constructor.
    + repeat constructor.
    + cbn. lia.
    + cbn. lia.
  - apply (Hint 1%Z 2%Z); lia.
Defined.

(** X8 on two volumes of dims (4, 1, 3). *)
Lemma squeeze_keeps_entries_at_volumes :
  let c := Images.Make Demo.volumes spark in
  Images.wf c /\
  0 < len (Images.values c) /\
  Images.squeeze c = Ok (Images.Make (NdArray [2; 4; 3] (data Demo.volumes)) spark).
Proof.
  cbn zeta.
  assert (Hn : 0 < len (Images.values (Images.Make Demo.volumes spark))).
  { cbn. lia. }
  split; [exact (volumes_wf spark)|]. split; [exact Hn|].
  exact (proj1 (squeeze_keeps_entries (Images.Make Demo.volumes spark)
                  (volumes_wf spark) Hn)).
Defined.

(** X10 on two volumes of dims (2, 2, 3), uniform filter of size (1, 1, 0). *)
Lemma image_filter_slicewise_at_cubes :
  let c := Images.Make Demo.cubes local in
  let l := [1; 1; 0]%Z in
  Images.wf c /\
  Images.dims c = [2; 2; 3] /\
  exists c', Images._image_filter c uniform (Seq l) = Ok c' /\
    Images.count c' = Images.count c /\
    Images.dims c' = Images.dims c /\
    Images.mode c' = Images.mode c /\
    Forall2 (fun x y =>
               shape y = shape x /\
               forall z, z < 3 ->
                 get_plane z y = ndfilter uniform (get_plane z x) (Seq (take 2 l)))
            (Images.tordd c) (Images.tordd c').
Proof.
  cbn zeta. split; [exact (cubes_wf local)|]. split; [reflexivity|].
  exact (image_filter_slicewise (Images.Make Demo.cubes local) uniform [1; 1; 0]%Z 2 2 3
           sample_filter_keeps_shape (cubes_wf local) eq_refl eq_refl).
Defined.

(** X11 on three 2x2 frames. *)
Lemma gaussian_filter_images_at_frames :
  let c := Images.Make Demo.frames spark in
  let sigma := FScalar 2 in
  let order := Scalar 0 in
  Images.wf c /\
  exists c', Images.gaussian_filter c sigma order = Ok c' /\
    Images.tordd c' = List.map (fun v => gaussian v sigma order) (Images.tordd c) /\
    Images.count c' = Images.count c /\
    Images.dims c' = Images.dims c /\
    Images.mode c' = Images.mode c /\
    Images.wf c'.
Proof.
  cbn zeta. split; [exact (frames_wf spark)|].
  exact (gaussian_filter_images (Images.Make Demo.frames spark) (FScalar 2) (Scalar 0)
           (sample_gaussian_keeps_shape (FScalar 2) (Scalar 0)) (frames_wf spark)).
Defined.

(** X12 on three 2x2 frames: the number 1, the frame of ones, and an array
    of another shape. *)
Lemma subtract_entries_at_frames :
  let c := Images.Make Demo.frames local in
  Images.wf c /\
  Images.subtract c (Images.Number 1%Z)
    = Ok (Images.Make (NdArray [3; 2; 2] (List.map (fun e => (e - 1)%Z) (data Demo.frames)))
                      local) /\
  Images.subtract c (Images.Array (NdArray [2; 2] [1; 1; 1; 1]%Z))
    = Images.subtract c (Images.Number 1%Z) /\
  Images.subtract c (Images.Array (NdArray [4] [1; 1; 1; 1]%Z))
    = Raise (Exception_ (MsgSubtract [4] [2; 2])).
Proof.
  cbn zeta.
  destruct (subtract_entries (Images.Make Demo.frames local) (frames_wf local))
    as (Hnum & Harr & Hbad).
  split; [exact (frames_wf local)|]. split; [exact (Hnum 1%Z)|]. split.
  - rewrite (Harr (NdArray [2; 2] [1; 1; 1; 1]%Z) eq_refl), (Hnum 1%Z). reflexivity.
  - apply (Hbad (NdArray [4] [1; 1; 1; 1]%Z)). discriminate.
Defined.

(** X13 on three 2x2 frames. *)
Lemma toseries_positions_at_frames :
  let s := Images.toseries (Images.Make Demo.frames spark) in
  Images.wf (Images.Make Demo.frames spark) /\
  shape (Images.svalues s) = [2; 2; 3] /\
  Images.index s = [0; 1; 2] /\
  last_axis (Images.svalues s) = [[0; 4; 8]; [1; 5; 9]; [2; 6; 10]; [3; 7; 11]]%Z.
Proof.
  cbn zeta.
  destruct (toseries_positions (Images.Make Demo.frames spark) (frames_wf spark))
    as (Hshape & Hindex & _ & Hseries).
  split; [exact (frames_wf spark)|].
  split; [exact Hshape|]. split; [exact Hindex|exact Hseries].
Defined.

(** X14 on three distributed 2x2 frames. *)
Lemma aggregates_reduce_series_at_frames :
  let c := Images.Make Demo.frames spark in
  Images.wf c /\
  exists r, Images.sum c = Ok r /\
    Images.mode r = local /\
    shape (Images.values r) = [1; 2; 2] /\
    data (Images.values r) = [12; 15; 18; 21]%Z.
Proof.
  cbn zeta. split; [exact (frames_wf spark)|].
  pose proof (aggregates_reduce_series (Images.Make Demo.frames spark) (frames_wf spark))
    as Hall.
  eexists. split; [reflexivity|].
  exact (Forall_lookup_1 _ _ 3 (Sum, Images.sum) Hall eq_refl _ eq_refl).
Defined.

(** X15 on two volumes of dims (2, 2, 3), factor (1, 2, 2). *)
Lemma subsample_entries_at_cubes :
  let c := Images.Make Demo.cubes local in
  let fs := [1; 2; 2]%Z in
  Images.wf c /\
  Forall (fun f => 0 < f)%Z fs /\
  exists c', Images.subsample c (Seq fs) = Ok c' /\
    Forall2 (fun x y =>
               shape y = Images.dims c' /\
               forall idx, Forall2 (fun i n => i < n) idx (Images.dims c') ->
                 data y !! ravel (Images.dims c') idx
                 = data x !! ravel (Images.dims c)
                                   (zip_with (fun i f => i * Z.to_nat f) idx fs))
            (Images.tordd c) (Images.tordd c').
Proof.
  cbn zeta.
  assert (Hpos : Forall (fun f => 0 < f)%Z [1; 2; 2]%Z).
  { repeat constructor. }
  split; [exact (cubes_wf local)|]. split; [exact Hpos|].
  exact (subsample_entries (Images.Make Demo.cubes local) [1; 2; 2]%Z
           (cubes_wf local) Hpos eq_refl).
Defined.
